(** * Corner-feature pipeline of [utils.py]: convolution, Gaussian kernel,
      local maxima and adaptive non-maximal suppression.

    The Python functions of [utils.py] are embedded as Rocq functions.

    - A 2-D numpy array is a shape together with an indexing function
      ([ndarray]); slices are normalised the way Python normalises them
      (negative bounds count from the end, bounds are clamped), so that
      [a[r:-r]] is the empty slice when [r = 0], exactly as in numpy.
    - Code that can raise returns a [result]; the exception value records
      which [raise] statement or which library call produced it.
    - Samples are taken in any type with the arithmetic the code uses
      (class [Scalar]); theorems name the algebraic laws they rely on.
      Concrete runs use the instance on [Z]; the Gaussian kernel, which
      needs [exp], lives in the real numbers. *)

From Stdlib Require Import String Ascii.
From Stdlib Require Import Reals Lra.
From Stdlib Require Import QArith Qround Qreals.
From Stdlib Require Import ZArith List Bool Lia.
From Stdlib Require Import Sorting.Sorted Sorting.Permutation.
Import ListNotations.
Open Scope Z_scope.

(* ================================================================== *)
(** ** Python values and exceptions *)

(** A Python number: [int] or [float].  Floats are modelled by the
    rational they denote: rounding, overflow and underflow are not
    modelled, so a theorem below speaks of a [float] argument only where
    the outcome does not depend on them. *)
Inductive pynum : Type :=
| PyInt (z : Z)
| PyFloat (q : Q).

(** Exceptions the code can raise, told apart by their origin. *)
Inductive exn : Type :=
| InvalidBoundaryMode (boundary_mode : string)
    (* utils.py:85  raise ValueError(f"Invalide boundary mode: ...") *)
| KernelSizeNotOdd (n : pynum)
    (* utils.py:93  raise ValueError(f"Kernel size must be odd: {n}") *)
| BroadcastError
    (* numpy/numba ValueError: operands or assignment could not be broadcast *)
| NegativeDimensions
    (* numpy ValueError: negative dimensions are not allowed *)
| EmptyReduction
    (* numpy ValueError: zero-size array to reduction operation *)
| FloatAsInteger
    (* numpy TypeError: 'float' object cannot be interpreted as an integer *)
| ZeroDivision
    (* Python ZeroDivisionError: float division by zero *)
| IndexBuildError
    (* scipy ValueError: the spatial index rejects its input data *)
| IndexOutOfBounds.
    (* numpy IndexError: index is out of bounds *)

Inductive pyclass : Type :=
  ValueError | TypeError | ZeroDivisionError | IndexError.

(** The Python class of each exception. *)
Definition exn_class (e : exn) : pyclass :=
  match e with
  | InvalidBoundaryMode _ | KernelSizeNotOdd _ | BroadcastError
  | NegativeDimensions | EmptyReduction | IndexBuildError => ValueError
  | FloatAsInteger => TypeError
  | ZeroDivision => ZeroDivisionError
  | IndexOutOfBounds => IndexError
  end.

Inductive result (T : Type) : Type :=
| Ok (x : T)
| Raise (e : exn).
Arguments Ok {T} x.
Arguments Raise {T} e.

Definition bind {T U : Type} (c : result T) (k : T -> result U) : result U :=
  match c with
  | Ok x => k x
  | Raise e => Raise e
  end.

Notation "x <- c ;; k" := (bind c (fun x => k))
  (at level 61, c at next level, right associativity).

(** [range(lo, hi)]. *)
Definition range (lo hi : Z) : list Z :=
  map (fun i => lo + Z.of_nat i) (seq 0 (Z.to_nat (hi - lo))).

(** A [for] loop over a list of indices whose body updates a state and
    may raise. *)
Fixpoint for_each {S : Type} (l : list Z) (body : Z -> S -> result S) (s : S)
  : result S :=
  match l with
  | [] => Ok s
  | i :: l' =>
      match body i s with
      | Ok s' => for_each l' body s'
      | Raise e => Raise e
      end
  end.

(* ================================================================== *)
(** ** Slices *)

(** A slice [start:stop] (step 1); [None] is an omitted bound. *)
Record pyslice : Type := mk_slice { sl_start : option Z; sl_stop : option Z }.

Definition sl (a b : Z) : pyslice := mk_slice (Some a) (Some b).   (* a:b *)
Definition sl_from (a : Z) : pyslice := mk_slice (Some a) None.     (* a:  *)
Definition sl_to (b : Z) : pyslice := mk_slice None (Some b).       (* :b  *)
Definition sl_all : pyslice := mk_slice None None.                  (* :   *)

(** Python's normalisation of one slice bound against a length. *)
Definition norm_bound (i len : Z) : Z :=
  if i <? 0 then Z.max (i + len) 0 else Z.min i len.

Definition slice_lo (s : pyslice) (len : Z) : Z :=
  match sl_start s with
  | None => 0
  | Some i => norm_bound i len
  end.

Definition slice_hi (s : pyslice) (len : Z) : Z :=
  match sl_stop s with
  | None => len
  | Some i => norm_bound i len
  end.

(** Number of selected indices. *)
Definition slice_len (s : pyslice) (len : Z) : Z :=
  Z.max (slice_hi s len - slice_lo s len) 0.

(** [l[:n]] on a Python list. *)
Definition list_prefix {T : Type} (l : list T) (n : Z) : list T :=
  firstn (Z.to_nat (slice_hi (sl_to n) (Z.of_nat (length l)))) l.

(* ================================================================== *)
(** ** Arrays *)

(** A 2-D array: [shape0] rows, [shape1] columns, [item a v u] the sample
    in row [v], column [u]. *)
Record ndarray (A : Type) : Type :=
  mk_array { shape0 : Z; shape1 : Z; item : Z -> Z -> A }.
Arguments mk_array {A} shape0 shape1 item.
Arguments shape0 {A} n.
Arguments shape1 {A} n.
Arguments item {A} n v u.

Definition wf_array {A : Type} (a : ndarray A) : Prop :=
  0 <= shape0 a /\ 0 <= shape1 a.

(** The rows of an array, as nested lists. *)
Definition to_rows {A : Type} (a : ndarray A) : list (list A) :=
  map (fun v => map (fun u => item a v u) (range 0 (shape1 a)))
      (range 0 (shape0 a)).

(** All samples in row-major order. *)
Definition elements {A : Type} (a : ndarray A) : list A :=
  concat (to_rows a).

(** An array from nested lists ([d] fills short rows). *)
Definition of_rows {A : Type} (d : A) (rows : list (list A)) : ndarray A :=
  mk_array (Z.of_nat (length rows))
           (Z.of_nat (length (hd [] rows)))
           (fun v u => nth (Z.to_nat u) (nth (Z.to_nat v) rows []) d).

(** [a[rs, cs]]: a view. *)
Definition view {A : Type} (a : ndarray A) (rs cs : pyslice) : ndarray A :=
  let r0 := slice_lo rs (shape0 a) in
  let c0 := slice_lo cs (shape1 a) in
  mk_array (slice_len rs (shape0 a)) (slice_len cs (shape1 a))
           (fun v u => item a (r0 + v) (c0 + u)).

(** [a[v:v+1, lo:hi:2]], the one strided slice the code uses. *)
Definition view_step2 {A : Type} (a : ndarray A) (v : Z) (cs : pyslice)
  : ndarray A :=
  let c0 := slice_lo cs (shape1 a) in
  mk_array 1 ((slice_len cs (shape1 a) + 1) / 2)
           (fun _ u => item a v (c0 + 2 * u)).

(** [np.flip(a, 0)], [np.flip(a, 1)] and [a[::-1, ::-1]]. *)
Definition flip0 {A : Type} (a : ndarray A) : ndarray A :=
  mk_array (shape0 a) (shape1 a) (fun v u => item a (shape0 a - 1 - v) u).

Definition flip1 {A : Type} (a : ndarray A) : ndarray A :=
  mk_array (shape0 a) (shape1 a) (fun v u => item a v (shape1 a - 1 - u)).

Definition flip01 {A : Type} (a : ndarray A) : ndarray A :=
  mk_array (shape0 a) (shape1 a)
           (fun v u => item a (shape0 a - 1 - v) (shape1 a - 1 - u)).

(** Broadcasting of one dimension of a source onto a target dimension. *)
Definition broadcastable (src dst : Z) : bool :=
  (src =? dst) || (src =? 1).

(** Index into a source dimension that may have been broadcast. *)
Definition bidx (src i : Z) : Z := if src =? 1 then 0 else i.

(** [a[rs, cs] = src] with numpy's broadcasting of [src]. *)
Definition set_slice {A : Type} (a : ndarray A) (rs cs : pyslice)
    (src : ndarray A) : result (ndarray A) :=
  let r0 := slice_lo rs (shape0 a) in
  let c0 := slice_lo cs (shape1 a) in
  let nr := slice_len rs (shape0 a) in
  let nc := slice_len cs (shape1 a) in
  if broadcastable (shape0 src) nr && broadcastable (shape1 src) nc then
    Ok (mk_array (shape0 a) (shape1 a)
          (fun v u =>
             if (r0 <=? v) && (v <? r0 + nr) && (c0 <=? u) && (u <? c0 + nc)
             then item src (bidx (shape0 src) (v - r0)) (bidx (shape1 src) (u - c0))
             else item a v u))
  else Raise BroadcastError.

(** [a[rs, cs] = x] for a scalar [x]. *)
Definition set_slice_scalar {A : Type} (a : ndarray A) (rs cs : pyslice)
    (x : A) : ndarray A :=
  let r0 := slice_lo rs (shape0 a) in
  let c0 := slice_lo cs (shape1 a) in
  let nr := slice_len rs (shape0 a) in
  let nc := slice_len cs (shape1 a) in
  mk_array (shape0 a) (shape1 a)
    (fun v u =>
       if (r0 <=? v) && (v <? r0 + nr) && (c0 <=? u) && (u <? c0 + nc)
       then x else item a v u).

(** [a[v, u] = x]. *)
Definition set_item {A : Type} (a : ndarray A) (v u : Z) (x : A) : ndarray A :=
  mk_array (shape0 a) (shape1 a)
    (fun v' u' => if (v' =? v) && (u' =? u) then x else item a v' u').

(** [a.copy()]. *)
Definition copy {A : Type} (a : ndarray A) : ndarray A :=
  mk_array (shape0 a) (shape1 a) (item a).

(* ================================================================== *)
(** ** Sample arithmetic *)

Class Scalar (A : Type) : Type := {
  szero : A;
  sone : A;
  sadd : A -> A -> A;
  smul : A -> A -> A;
  slt : A -> A -> bool;          (* x < y *)
}.

#[export] Instance Scalar_Z : Scalar Z := {
  szero := 0;
  sone := 1;
  sadd := Z.add;
  smul := Z.mul;
  slt := Z.ltb;
}.

Section Numpy.
  Context {A : Type} `{Scalar A}.

(** [np.zeros_like(g)]. *)
Definition zeros_like (g : ndarray A) : ndarray A :=
  mk_array (shape0 g) (shape1 g) (fun _ _ => szero).

(** [a * b] elementwise, with broadcasting. *)
Definition np_mul (a b : ndarray A) : result (ndarray A) :=
  let dim x y := if x =? 1 then y else x in
  if (broadcastable (shape0 a) (shape0 b) || broadcastable (shape0 b) (shape0 a))
     && (broadcastable (shape1 a) (shape1 b) || broadcastable (shape1 b) (shape1 a))
  then Ok (mk_array (dim (shape0 a) (shape0 b)) (dim (shape1 a) (shape1 b))
             (fun v u => smul (item a (bidx (shape0 a) v) (bidx (shape1 a) u))
                              (item b (bidx (shape0 b) v) (bidx (shape1 b) u))))
  else Raise BroadcastError.

(** [np.sum(a)]. *)
Definition np_sum (a : ndarray A) : A :=
  fold_left sadd (elements a) szero.

(** [(p > a).all()]. *)
Definition all_gt (p : A) (a : ndarray A) : bool :=
  forallb (fun x => slt x p) (elements a).
End Numpy.

(* ================================================================== *)
(** ** Convolution engine *)

Section Convolution.
  Context {A : Type} `{Scalar A}.

  (** What freshly allocated memory holds: [np.empty] initialises nothing. *)
  Variable uninit : Z -> Z -> A.

(** [np.empty(shape)]. *)
Definition np_empty (shape : Z * Z) : result (ndarray A) :=
  if (fst shape <? 0) || (snd shape <? 0) then Raise NegativeDimensions
  else Ok (mk_array (fst shape) (snd shape) uninit).

(** utils.py:15-32. *)
Definition _convolve (g h : ndarray A) : result (ndarray A) :=
  let radius := shape0 h / 2 in
  let out := zeros_like g in
  let h180 := flip01 h in
  for_each (range radius (shape0 g - radius)) (fun v out =>
    for_each (range radius (shape1 g - radius)) (fun u out =>
      prod <- np_mul (view g (sl (v - radius) (v + radius + 1))
                             (sl (u - radius) (u + radius + 1)))
                     h180 ;;
      Ok (set_item out v u (np_sum prod)))
    out)
  out.

(** The padded input that [convolve2d] builds for a boundary mode other
    than "valid" (utils.py:42-85). *)
Definition conv_input_of (img : ndarray A) (r : Z) (boundary_mode : string)
    (fill : A) : result (ndarray A) :=
  let extended_shape := (shape0 img + 2 * r, shape1 img + 2 * r) in
  conv_input <- np_empty extended_shape ;;
  if (boundary_mode =? "fill")%string then
    let conv_input := set_slice_scalar conv_input sl_all sl_all fill in
    set_slice conv_input (sl r (- r)) (sl r (- r)) img
  else if (boundary_mode =? "extend")%string then
    conv_input <- set_slice conv_input (sl r (- r)) (sl r (- r)) img ;;
    (* Top *)
    conv_input <- set_slice conv_input (sl_to r) sl_all
                    (view conv_input (sl r (r + 1)) sl_all) ;;
    (* Bottom *)
    conv_input <- set_slice conv_input (sl_from (- r)) sl_all
                    (view conv_input (sl (- r - 1) (- r)) sl_all) ;;
    (* Left *)
    conv_input <- set_slice conv_input sl_all (sl_to r)
                    (view conv_input sl_all (sl r (r + 1))) ;;
    (* Right *)
    set_slice conv_input sl_all (sl_from (- r))
              (view conv_input sl_all (sl (- r - 1) (- r)))
  else if (boundary_mode =? "mirror")%string then
    conv_input <- set_slice conv_input (sl r (- r)) (sl r (- r)) img ;;
    (* Top *)
    conv_input <- set_slice conv_input (sl_to r) sl_all
                    (flip0 (view conv_input (sl r (r + r)) sl_all)) ;;
    (* Bottom *)
    conv_input <- set_slice conv_input (sl_from (- r)) sl_all
                    (flip0 (view conv_input (sl (- r - r) (- r)) sl_all)) ;;
    (* Left *)
    conv_input <- set_slice conv_input sl_all (sl_to r)
                    (flip1 (view conv_input sl_all (sl r (r + r)))) ;;
    (* Right *)
    set_slice conv_input sl_all (sl_from (- r))
              (flip1 (view conv_input sl_all (sl (- r - r) (- r))))
  else if (boundary_mode =? "wrap")%string then
    conv_input <- set_slice conv_input (sl r (- r)) (sl r (- r)) img ;;
    (* Top *)
    conv_input <- set_slice conv_input (sl_to r) (sl r (- r))
                    (view img (sl_from (- r)) sl_all) ;;
    (* Bottom *)
    conv_input <- set_slice conv_input (sl_from (- r)) (sl r (- r))
                    (view img (sl_to r) sl_all) ;;
    (* Left *)
    conv_input <- set_slice conv_input (sl r (- r)) (sl_to r)
                    (view img sl_all (sl_from (- r))) ;;
    (* Right *)
    conv_input <- set_slice conv_input (sl r (- r)) (sl_from (- r))
                    (view img sl_all (sl_to r)) ;;
    (* NW *)
    conv_input <- set_slice conv_input (sl_to r) (sl_to r)
                    (view img (sl_from (- r)) (sl_from (- r))) ;;
    (* NE *)
    conv_input <- set_slice conv_input (sl_to r) (sl_from (- r))
                    (view img (sl_from (- r)) (sl_to r)) ;;
    (* SW *)
    conv_input <- set_slice conv_input (sl_from (- r)) (sl_to r)
                    (view img (sl_to r) (sl_from (- r))) ;;
    (* SE *)
    set_slice conv_input (sl_from (- r)) (sl_from (- r))
              (view img (sl_to r) (sl_to r))
  else Raise (InvalidBoundaryMode boundary_mode).

(** utils.py:35-88. *)
Definition convolve2d (img kern : ndarray A) (boundary_mode : string)
    (fill : A) : result (ndarray A) :=
  let r := shape0 kern / 2 in
  if (boundary_mode =? "valid")%string then _convolve img kern
  else
    conv_input <- conv_input_of img r boundary_mode fill ;;
    conv_out <- _convolve conv_input kern ;;
    Ok (copy (view conv_out (sl r (- r)) (sl r (- r)))).
End Convolution.


(* ================================================================== *)
(** ** Facts about ranges, loops and slices *)

Lemma in_range (lo hi i : Z) : In i (range lo hi) <-> lo <= i < hi.
Proof.
  unfold range. rewrite in_map_iff. split.
  - intros (k & <- & Hk). apply in_seq in Hk. lia.
  - intros Hi. exists (Z.to_nat (i - lo)). split; [lia|].
    apply in_seq. lia.
Qed.

Lemma range_empty (lo hi : Z) : hi <= lo -> range lo hi = [].
Proof.
  intros Hle. unfold range.
  replace (Z.to_nat (hi - lo)) with 0%nat by lia. reflexivity.
Qed.

Lemma range_cons (lo hi : Z) : lo < hi -> range lo hi = lo :: range (lo + 1) hi.
Proof.
  intros Hlt. unfold range.
  replace (Z.to_nat (hi - lo)) with (S (Z.to_nat (hi - (lo + 1)))) by lia.
  cbn [seq map]. f_equal; [lia|].
  rewrite <- seq_shift, map_map. apply map_ext. intros k. lia.
Qed.

Lemma range_app (lo mid hi : Z) :
  lo <= mid <= hi -> range lo hi = range lo mid ++ range mid hi.
Proof.
  intros Hm. unfold range.
  replace (Z.to_nat (hi - lo)) with (Z.to_nat (mid - lo) + Z.to_nat (hi - mid))%nat by lia.
  rewrite seq_app, map_app. f_equal. cbn [Nat.add].
  assert (Hshift : forall n k,
             map (fun i => lo + Z.of_nat i) (seq (Z.to_nat (mid - lo) + k) n)
             = map (fun i => mid + Z.of_nat i) (seq k n)).
  { induction n as [|n IH]; intros k; [reflexivity|].
    cbn [seq map]. f_equal; [lia|].
    replace (S (Z.to_nat (mid - lo) + k)) with (Z.to_nat (mid - lo) + S k)%nat by lia.
    apply IH. }
  rewrite <- (Hshift _ 0%nat). now rewrite Nat.add_0_r.
Qed.

Lemma length_range (lo hi : Z) : length (range lo hi) = Z.to_nat (hi - lo).
Proof. unfold range. now rewrite length_map, length_seq. Qed.

Lemma NoDup_range (lo hi : Z) : NoDup (range lo hi).
Proof.
  unfold range. apply Finite.Injective_map_NoDup; [|apply seq_NoDup].
  intros x y Hxy. lia.
Qed.

Lemma nth_range (lo hi : Z) (k : nat) (d : Z) :
  (k < Z.to_nat (hi - lo))%nat -> nth k (range lo hi) d = lo + Z.of_nat k.
Proof.
  intros Hk. unfold range.
  rewrite (nth_indep _ d (lo + Z.of_nat 0)) by (rewrite length_map, length_seq; lia).
  rewrite (map_nth (fun i => lo + Z.of_nat i)), seq_nth by lia. reflexivity.
Qed.

(** Slice bounds in the positions where the code uses them. *)
Lemma norm_bound_nonneg (i len : Z) : 0 <= i <= len -> norm_bound i len = i.
Proof. intros Hi. unfold norm_bound. destruct (Z.ltb_spec i 0); lia. Qed.

Lemma norm_bound_neg (i len : Z) : i < 0 -> 0 <= i + len -> norm_bound i len = i + len.
Proof. intros Hi Hl. unfold norm_bound. destruct (Z.ltb_spec i 0); lia. Qed.

Ltac slice_bounds :=
  unfold slice_len, slice_lo, slice_hi, sl, sl_from, sl_to, sl_all, norm_bound;
  cbn [sl_start sl_stop];
  repeat match goal with
         | |- context [?x <? 0] => destruct (Z.ltb_spec x 0)
         end; lia.

(** A boolean box test decided by linear arithmetic. *)
Ltac box_false :=
  repeat rewrite andb_false_iff;
  rewrite ?Z.leb_gt, ?Z.ltb_ge, ?Z.eqb_neq; lia.

Ltac box_true :=
  repeat rewrite andb_true_iff;
  rewrite ?Z.leb_le, ?Z.ltb_lt, ?Z.eqb_eq; lia.

Section LoopFacts.
  Context {A : Type}.

(** A loop over rows whose body writes the cells of its own row only. *)
Lemma for_each_rows (body : Z -> ndarray A -> result (ndarray A))
    (cell : Z -> Z -> A) (inrow : Z -> bool) (l : list Z) (out : ndarray A) :
  (forall v o, In v l ->
     exists o', body v o = Ok o'
       /\ shape0 o' = shape0 o /\ shape1 o' = shape1 o
       /\ forall v' u', item o' v' u' =
            if (v' =? v) && inrow u' then cell v' u' else item o v' u') ->
  exists out',
    for_each l body out = Ok out'
    /\ shape0 out' = shape0 out /\ shape1 out' = shape1 out
    /\ forall v' u', item out' v' u' =
         if existsb (Z.eqb v') l && inrow u' then cell v' u' else item out v' u'.
Proof.
  revert out. induction l as [|v l IH]; intros out Hb.
  - exists out. cbn. repeat split; reflexivity.
  - cbn [for_each].
    destruct (Hb v out (or_introl eq_refl)) as (o1 & Hrun1 & Hs0 & Hs1 & Hit1).
    rewrite Hrun1.
    destruct (IH o1) as (out' & Hrun & Hs0' & Hs1' & Hit).
    { intros v' o Hv'. apply Hb. now right. }
    exists out'. rewrite Hrun. repeat split; try congruence.
    intros v' u'. rewrite Hit, Hit1. cbn [existsb].
    destruct (existsb (Z.eqb v') l) eqn:Hex; cbn [andb].
    + rewrite orb_true_r. cbn [andb].
      destruct (inrow u'); [reflexivity|].
      now rewrite andb_false_r.
    + rewrite orb_false_r. reflexivity.
Qed.
End LoopFacts.

Lemma existsb_range (lo hi i : Z) :
  existsb (Z.eqb i) (range lo hi) = (lo <=? i) && (i <? hi).
Proof.
  apply eq_true_iff_eq. rewrite existsb_exists, andb_true_iff, Z.leb_le, Z.ltb_lt.
  split.
  - intros (x & Hx & Heq). apply Z.eqb_eq in Heq. subst x. now apply in_range.
  - intros Hi. exists i. split; [now apply in_range | apply Z.eqb_refl].
Qed.

Lemma bidx_in_range (n i : Z) : 0 <= i < n -> bidx n i = i.
Proof. intros Hi. unfold bidx. destruct (Z.eqb_spec n 1); lia. Qed.

Lemma for_each_set_cells {A B : Type} (f : Z -> result B) (post : B -> A)
    (val : Z -> A) (v : Z) (l : list Z) (out : ndarray A) :
  (forall u, In u l -> exists p, f u = Ok p /\ post p = val u) ->
  exists out',
    for_each l (fun u out => p <- f u ;; Ok (set_item out v u (post p))) out = Ok out'
    /\ shape0 out' = shape0 out /\ shape1 out' = shape1 out
    /\ forall v' u', item out' v' u' =
         if (v' =? v) && existsb (Z.eqb u') l then val u' else item out v' u'.
Proof.
  revert out. induction l as [|u l IH]; intros out Hf.
  - exists out. cbn. repeat split; try reflexivity.
    intros v' u'. now rewrite andb_false_r.
  - cbn [for_each].
    destruct (Hf u (or_introl eq_refl)) as (p & Hp & Hpost).
    rewrite Hp. cbn [bind]. rewrite Hpost.
    destruct (IH (set_item out v u (val u))) as (out' & Hrun & Hs0 & Hs1 & Hit).
    { intros u' Hu'. apply Hf. now right. }
    exists out'. rewrite Hrun. repeat split; try assumption.
    intros v' u'. rewrite Hit. cbn [existsb set_item item].
    destruct (Z.eqb_spec v' v) as [->|Hv]; cbn [andb]; [|reflexivity].
    destruct (existsb (Z.eqb u') l) eqn:Hex.
    + now rewrite orb_true_r.
    + rewrite orb_false_r. destruct (Z.eqb_spec u' u) as [->|Hu]; reflexivity.
Qed.

Section ConvolveFacts.
  Context {A : Type} `{Scalar A}.

(** The products summed for output cell [(v, u)] by a kernel of radius
    [r], in the order [np.sum] meets them. *)
Definition conv_terms (g h : ndarray A) (r v u : Z) : list A :=
  concat (map (fun i =>
                 map (fun j => smul (item g (v - r + i) (u - r + j))
                                    (item h (2 * r - i) (2 * r - j)))
                     (range 0 (2 * r + 1)))
              (range 0 (2 * r + 1))).

Definition conv_cell (g h : ndarray A) (r v u : Z) : A :=
  fold_left sadd (conv_terms g h r v u) szero.

(** Cells that [_convolve] computes: the kernel window fits in [g]. *)
Definition interior (g : ndarray A) (r v u : Z) : bool :=
  (r <=? v) && (v <? shape0 g - r) && (r <=? u) && (u <? shape1 g - r).

Lemma window_product (g h : ndarray A) (r v u : Z) :
  0 <= r -> shape0 h = 2 * r + 1 -> shape1 h = 2 * r + 1 ->
  r <= v < shape0 g - r -> r <= u < shape1 g - r ->
  exists p,
    np_mul (view g (sl (v - r) (v + r + 1)) (sl (u - r) (u + r + 1))) (flip01 h)
    = Ok p
    /\ np_sum p = conv_cell g h r v u.
Proof.
  intros Hr Hh0 Hh1 Hv Hu. unfold np_mul.
  assert (Hlen0 : slice_len (sl (v - r) (v + r + 1)) (shape0 g) = 2 * r + 1)
    by slice_bounds.
  assert (Hlen1 : slice_len (sl (u - r) (u + r + 1)) (shape1 g) = 2 * r + 1)
    by slice_bounds.
  assert (Hlo0 : slice_lo (sl (v - r) (v + r + 1)) (shape0 g) = v - r)
    by slice_bounds.
  assert (Hlo1 : slice_lo (sl (u - r) (u + r + 1)) (shape1 g) = u - r)
    by slice_bounds.
  cbn [view flip01 shape0 shape1 item].
  rewrite Hlen0, Hlen1, Hlo0, Hlo1, Hh0, Hh1.
  unfold broadcastable at 1 3. rewrite Z.eqb_refl. cbn [orb andb].
  eexists. split; [reflexivity|].
  unfold np_sum, conv_cell, conv_terms, elements, to_rows. cbn [shape0 shape1 item].
  replace (if 2 * r + 1 =? 1 then 2 * r + 1 else 2 * r + 1) with (2 * r + 1)
    by (destruct (2 * r + 1 =? 1); reflexivity).
  f_equal. f_equal. apply map_ext_in. intros i Hi. apply in_range in Hi.
  apply map_ext_in. intros j Hj. apply in_range in Hj.
  rewrite !bidx_in_range by lia.
  f_equal; f_equal; lia.
Qed.

(** Closed form of [_convolve] for a square kernel of side [2r+1]:
    every interior cell holds its window sum, every other cell the zero
    that [zeros_like] put there. *)
Lemma _convolve_cells (g h : ndarray A) (r : Z) :
  0 <= r -> shape0 h = 2 * r + 1 -> shape1 h = 2 * r + 1 ->
  exists out,
    _convolve g h = Ok out
    /\ shape0 out = shape0 g /\ shape1 out = shape1 g
    /\ forall v u, item out v u =
         if interior g r v u then conv_cell g h r v u else szero.
Proof.
  intros Hr Hh0 Hh1. unfold _convolve.
  replace (shape0 h / 2) with r by (rewrite Hh0; apply Z.div_unique with 1; lia).
  destruct (for_each_rows
              (fun v out =>
                 for_each (range r (shape1 g - r))
                   (fun u out =>
                      prod <- np_mul (view g (sl (v - r) (v + r + 1))
                                             (sl (u - r) (u + r + 1)))
                                     (flip01 h) ;;
                      Ok (set_item out v u (np_sum prod))) out)
              (conv_cell g h r)
              (fun u => (r <=? u) && (u <? shape1 g - r))
              (range r (shape0 g - r)) (zeros_like g))
    as (out & Hrun & Hs0 & Hs1 & Hit).
  { intros v o Hv. apply in_range in Hv.
    destruct (for_each_set_cells
                (fun u => np_mul (view g (sl (v - r) (v + r + 1))
                                         (sl (u - r) (u + r + 1)))
                                 (flip01 h))
                np_sum (conv_cell g h r v) v (range r (shape1 g - r)) o)
      as (o' & Hrun & Hs0 & Hs1 & Hit).
    { intros u Hu. apply in_range in Hu. now apply window_product. }
    exists o'. repeat split; try assumption.
    intros v' u'. rewrite Hit, existsb_range.
    destruct (Z.eqb_spec v' v) as [->|]; reflexivity. }
  exists out. repeat split; try assumption.
  intros v u. rewrite Hit, existsb_range. unfold interior.
  rewrite !andb_assoc. reflexivity.
Qed.
End ConvolveFacts.

(** Evaluate the comparisons of a literal boundary mode. *)
Ltac mode_tests :=
  repeat match goal with
         | |- context [String.eqb ?a ?b] =>
             let t := eval vm_compute in (String.eqb a b) in
             change (String.eqb a b) with t
         end; cbv iota.

(** Decide the box tests of nested slice assignments by arithmetic. *)
Ltac decide_boxes :=
  repeat match goal with
         | |- context [if ?c then _ else _] =>
             first [ replace c with true by (symmetry; box_true)
                   | replace c with false by (symmetry; box_false) ]
         end.

Definition in_box (r0 nr c0 nc v u : Z) : bool :=
  (r0 <=? v) && (v <? r0 + nr) && (c0 <=? u) && (u <? c0 + nc).

Lemma set_slice_spec {A : Type} (a : ndarray A) (rs cs : pyslice) (src : ndarray A)
    (r0 nr c0 nc : Z) :
  slice_lo rs (shape0 a) = r0 -> slice_len rs (shape0 a) = nr ->
  slice_lo cs (shape1 a) = c0 -> slice_len cs (shape1 a) = nc ->
  broadcastable (shape0 src) nr = true -> broadcastable (shape1 src) nc = true ->
  exists a',
    set_slice a rs cs src = Ok a'
    /\ shape0 a' = shape0 a /\ shape1 a' = shape1 a
    /\ forall v u, item a' v u =
         if in_box r0 nr c0 nc v u
         then item src (bidx (shape0 src) (v - r0)) (bidx (shape1 src) (u - c0))
         else item a v u.
Proof.
  intros <- <- <- <- Hb0 Hb1. unfold set_slice. rewrite Hb0, Hb1. cbn [andb].
  eexists. split; [reflexivity|]. cbn [shape0 shape1 item]. repeat split.
Qed.

Lemma set_slice_raises {A : Type} (a : ndarray A) (rs cs : pyslice) (src : ndarray A) :
  broadcastable (shape0 src) (slice_len rs (shape0 a))
  && broadcastable (shape1 src) (slice_len cs (shape1 a)) = false ->
  set_slice a rs cs src = Raise BroadcastError.
Proof. intros Hb. unfold set_slice. now rewrite Hb. Qed.

Lemma broadcastable_refl (n : Z) : broadcastable n n = true.
Proof. unfold broadcastable. now rewrite Z.eqb_refl. Qed.

Lemma broadcastable_one (n : Z) : broadcastable 1 n = true.
Proof. unfold broadcastable. now rewrite orb_true_r. Qed.

(** Slice bounds, by the sign of the written bounds. *)
Lemma slice_lo_sl (a b len : Z) : 0 <= a <= len -> slice_lo (sl a b) len = a.
Proof. intros. slice_bounds. Qed.

Lemma slice_lo_sl_neg (a b len : Z) :
  a < 0 -> 0 <= a + len -> slice_lo (sl a b) len = a + len.
Proof. intros. slice_bounds. Qed.

Lemma slice_len_sl (a b len : Z) :
  0 <= a <= b -> b <= len -> slice_len (sl a b) len = b - a.
Proof. intros. slice_bounds. Qed.

Lemma slice_len_sl_to_neg (a b len : Z) :
  0 <= a -> b < 0 -> a <= b + len -> slice_len (sl a b) len = b + len - a.
Proof. intros. slice_bounds. Qed.

Lemma slice_len_sl_neg (a b len : Z) :
  a <= b -> b < 0 -> 0 <= a + len -> slice_len (sl a b) len = b - a.
Proof. intros. slice_bounds. Qed.

Lemma slice_lo_to (b len : Z) : slice_lo (sl_to b) len = 0.
Proof. reflexivity. Qed.

Lemma slice_len_to (b len : Z) : 0 <= b <= len -> slice_len (sl_to b) len = b.
Proof. intros. slice_bounds. Qed.

Lemma slice_lo_from_neg (a len : Z) :
  a < 0 -> 0 <= a + len -> slice_lo (sl_from a) len = a + len.
Proof. intros. slice_bounds. Qed.

Lemma slice_len_from_neg (a len : Z) :
  a < 0 -> 0 <= a + len -> slice_len (sl_from a) len = - a.
Proof. intros. slice_bounds. Qed.

Lemma slice_lo_all (len : Z) : slice_lo sl_all len = 0.
Proof. reflexivity. Qed.

Lemma slice_len_all (len : Z) : 0 <= len -> slice_len sl_all len = len.
Proof. intros. slice_bounds. Qed.

Ltac slices_in I :=
  repeat first
    [ rewrite slice_lo_to in I
    | rewrite slice_lo_all in I
    | rewrite slice_lo_sl in I by lia
    | rewrite slice_lo_sl_neg in I by lia
    | rewrite slice_len_sl in I by lia
    | rewrite slice_len_sl_to_neg in I by lia
    | rewrite slice_len_sl_neg in I by lia
    | rewrite slice_len_to in I by lia
    | rewrite slice_lo_from_neg in I by lia
    | rewrite slice_len_from_neg in I by lia
    | rewrite slice_len_all in I by lia ].

(** Bring the cell equation [I] of a slice assignment to arithmetic form. *)
Ltac tidy I :=
  cbn [flip0 flip1 view shape0 shape1 item] in I;
  repeat match goal with
         | S : shape0 _ = _ |- _ => rewrite S in I
         | S : shape1 _ = _ |- _ => rewrite S in I
         end;
  slices_in I.

Lemma bidx_one (n i : Z) : n = 1 -> bidx n i = 0.
Proof. intros ->. reflexivity. Qed.

(** Follow one cell back through the recorded slice assignments. *)
Ltac trace_cell :=
  repeat (match goal with
          | I : forall v u, item ?c v u = _ |- context [item ?c _ _] => rewrite I
          end;
          unfold in_box;
          rewrite ?bidx_one by lia; rewrite ?bidx_in_range by lia;
          decide_boxes).

Ltac shapes_goal :=
  repeat match goal with
         | S : shape0 _ = _ |- _ => rewrite S
         | S : shape1 _ = _ |- _ => rewrite S
         end.

(** Side conditions of [set_slice_spec]: slice bounds and broadcasting. *)
Ltac solve_side :=
  cbn [flip0 flip1 view set_slice_scalar shape0 shape1]; shapes_goal;
  unfold broadcastable; rewrite ?orb_true_iff, ?Z.eqb_eq;
  slice_bounds.

(** One slice assignment [a[rs, cs] = src] whose target box is known. *)
Ltac pad_step a rs cs src r0 nr c0 nc c E S0 S1 I :=
  destruct (set_slice_spec a rs cs src r0 nr c0 nc) as (c & E & S0 & S1 & I);
  [ solve_side .. | ];
  rewrite E; cbn [bind];
  cbn [set_slice_scalar shape0 shape1] in S0, S1;
  repeat match goal with
         | S : shape0 _ = _ |- _ =>
             tryif constr_eq S S0 then fail else rewrite S in S0
         | S : shape1 _ = _ |- _ =>
             tryif constr_eq S S1 then fail else rewrite S in S1
         end;
  tidy I.

Section PaddingFacts.
  Context {A : Type} `{Scalar A}.
  Variable uninit : Z -> Z -> A.

(** Reflection of an out-of-range index back into [0, n), the edge
    sample included: [-1 -> 0], [-2 -> 1], [n -> n-1], [n+1 -> n-2]. *)
Definition reflect (n x : Z) : Z :=
  if x <? 0 then - 1 - x else if n <=? x then 2 * n - 1 - x else x.

Lemma np_empty_ok (m n : Z) :
  0 <= m -> 0 <= n -> np_empty uninit (m, n) = Ok (mk_array m n uninit).
Proof.
  intros Hm Hn. unfold np_empty. cbn [fst snd].
  replace ((m <? 0) || (n <? 0)) with false by (symmetry; box_false).
  reflexivity.
Qed.

(** The padded input holds the image in its centre block. *)
Definition centred (img ci : ndarray A) (r : Z) : Prop :=
  shape0 ci = shape0 img + 2 * r /\ shape1 ci = shape1 img + 2 * r
  /\ forall v u, 0 <= v < shape0 img -> 0 <= u < shape1 img ->
       item ci (r + v) (r + u) = item img v u.

Lemma fill_input (img : ndarray A) (r : Z) (fill : A) :
  wf_array img -> 1 <= r ->
  exists ci,
    conv_input_of uninit img r "fill" fill = Ok ci /\ centred img ci r
    /\ forall i j, item ci i j =
         if in_box r (shape0 img) r (shape1 img) i j
         then item img (i - r) (j - r)
         else if in_box 0 (shape0 img + 2 * r) 0 (shape1 img + 2 * r) i j
              then fill else uninit i j.
Proof.
  intros [HM HN] Hr.
  unfold conv_input_of, centred. mode_tests. rewrite np_empty_ok by lia. cbn [bind].
  remember (shape0 img) as M eqn:EM. remember (shape1 img) as N eqn:EN.
  pad_step (set_slice_scalar (mk_array (M + 2 * r) (N + 2 * r) uninit) sl_all sl_all fill)
           (sl r (- r)) (sl r (- r)) img r M r N cin1 Hrun1 Hsh10 Hsh11 Hcell1.
  rewrite <- EM, <- EN in Hcell1.
  exists cin1. split; [reflexivity|]. split.
  - split; [assumption|]. split; [assumption|].
    intros v u Hv Hu. trace_cell. f_equal; lia.
  - intros i j. rewrite Hcell1. unfold in_box.
    destruct ((r <=? i) && (i <? r + M) && (r <=? j) && (j <? r + N)) eqn:Hbox.
    + repeat rewrite andb_true_iff in Hbox.
      rewrite Z.leb_le, Z.ltb_lt, Z.leb_le, Z.ltb_lt in Hbox.
      rewrite !bidx_in_range by lia. reflexivity.
    + cbn [set_slice_scalar item shape0 shape1].
      rewrite slice_lo_all, !slice_len_all by lia. reflexivity.
Qed.

Lemma mirror_input (img : ndarray A) (r : Z) (fill : A) :
  wf_array img -> 1 <= r ->
  exists ci,
    conv_input_of uninit img r "mirror" fill = Ok ci /\ centred img ci r
    /\ (r <= shape0 img -> r <= shape1 img ->
        forall i j, 0 <= i < shape0 img + 2 * r -> 0 <= j < shape1 img + 2 * r ->
          item ci i j = item img (reflect (shape0 img) (i - r))
                                 (reflect (shape1 img) (j - r))).
Proof.
  intros [HM HN] Hr.
  unfold conv_input_of, centred. mode_tests. rewrite np_empty_ok by lia. cbn [bind].
  remember (shape0 img) as M eqn:EM. remember (shape1 img) as N eqn:EN.
  pad_step (mk_array (M + 2 * r) (N + 2 * r) uninit) (sl r (- r)) (sl r (- r)) img
           r M r N cin1 Hrun1 Hsh10 Hsh11 Hcell1.
  pad_step cin1 (sl_to r) sl_all (flip0 (view cin1 (sl r (r + r)) sl_all))
           0 r 0 (N + 2 * r) cin2 Hrun2 Hsh20 Hsh21 Hcell2.
  pad_step cin2 (sl_from (- r)) sl_all (flip0 (view cin2 (sl (- r - r) (- r)) sl_all))
           (M + r) r 0 (N + 2 * r) cin3 Hrun3 Hsh30 Hsh31 Hcell3.
  pad_step cin3 sl_all (sl_to r) (flip1 (view cin3 sl_all (sl r (r + r))))
           0 (M + 2 * r) 0 r cin4 Hrun4 Hsh40 Hsh41 Hcell4.
  pad_step cin4 sl_all (sl_from (- r)) (flip1 (view cin4 sl_all (sl (- r - r) (- r))))
           0 (M + 2 * r) (N + r) r cin5 Hrun5 Hsh50 Hsh51 Hcell5.
  rewrite <- EM, <- EN in Hcell1.
  exists cin5. split; [reflexivity|]. split.
  - split; [assumption|]. split; [assumption|].
    intros v u Hv Hu. trace_cell. f_equal; lia.
  - intros HrM HrN i j Hi Hj. unfold reflect.
    destruct (Z.ltb_spec (i - r) 0); [|destruct (Z.leb_spec M (i - r))];
      (destruct (Z.ltb_spec (j - r) 0); [|destruct (Z.leb_spec N (j - r))]);
      trace_cell; f_equal; lia.
Qed.

(** Clamping of an out-of-range index to the nearest edge of [0, n). *)
Definition clamp (n x : Z) : Z :=
  if x <? 0 then 0 else if n <=? x then n - 1 else x.

Lemma extend_input (img : ndarray A) (r : Z) (fill : A) :
  wf_array img -> 1 <= r ->
  exists ci,
    conv_input_of uninit img r "extend" fill = Ok ci /\ centred img ci r
    /\ (1 <= shape0 img -> 1 <= shape1 img ->
        forall i j, 0 <= i < shape0 img + 2 * r -> 0 <= j < shape1 img + 2 * r ->
          item ci i j = item img (clamp (shape0 img) (i - r))
                                 (clamp (shape1 img) (j - r))).
Proof.
  intros [HM HN] Hr.
  unfold conv_input_of, centred. mode_tests. rewrite np_empty_ok by lia. cbn [bind].
  remember (shape0 img) as M eqn:EM. remember (shape1 img) as N eqn:EN.
  pad_step (mk_array (M + 2 * r) (N + 2 * r) uninit) (sl r (- r)) (sl r (- r)) img
           r M r N cin1 Hrun1 Hsh10 Hsh11 Hcell1.
  pad_step cin1 (sl_to r) sl_all (view cin1 (sl r (r + 1)) sl_all)
           0 r 0 (N + 2 * r) cin2 Hrun2 Hsh20 Hsh21 Hcell2.
  pad_step cin2 (sl_from (- r)) sl_all (view cin2 (sl (- r - 1) (- r)) sl_all)
           (M + r) r 0 (N + 2 * r) cin3 Hrun3 Hsh30 Hsh31 Hcell3.
  pad_step cin3 sl_all (sl_to r) (view cin3 sl_all (sl r (r + 1)))
           0 (M + 2 * r) 0 r cin4 Hrun4 Hsh40 Hsh41 Hcell4.
  pad_step cin4 sl_all (sl_from (- r)) (view cin4 sl_all (sl (- r - 1) (- r)))
           0 (M + 2 * r) (N + r) r cin5 Hrun5 Hsh50 Hsh51 Hcell5.
  rewrite <- EM, <- EN in Hcell1.
  exists cin5. split; [reflexivity|]. split.
  - split; [assumption|]. split; [assumption|].
    intros v u Hv Hu. trace_cell. f_equal; lia.
  - intros HrM HrN i j Hi Hj. unfold clamp.
    destruct (Z.ltb_spec (i - r) 0); [|destruct (Z.leb_spec M (i - r))];
      (destruct (Z.ltb_spec (j - r) 0); [|destruct (Z.leb_spec N (j - r))]);
      trace_cell; f_equal; lia.
Qed.

(** One wrap-around of an out-of-range index into [0, n). *)
Definition wrap_index (n x : Z) : Z :=
  if x <? 0 then x + n else if n <=? x then x - n else x.

Lemma wrap_input (img : ndarray A) (r : Z) (fill : A) :
  wf_array img -> 1 <= r ->
  r <= shape0 img \/ shape0 img = 1 ->
  r <= shape1 img \/ shape1 img = 1 ->
  exists ci,
    conv_input_of uninit img r "wrap" fill = Ok ci /\ centred img ci r
    /\ (r <= shape0 img -> r <= shape1 img ->
        forall i j, 0 <= i < shape0 img + 2 * r -> 0 <= j < shape1 img + 2 * r ->
          item ci i j = item img (wrap_index (shape0 img) (i - r))
                                 (wrap_index (shape1 img) (j - r))).
Proof.
  intros [HM HN] Hr HrM HrN.
  unfold conv_input_of, centred. mode_tests. rewrite np_empty_ok by lia. cbn [bind].
  remember (shape0 img) as M eqn:EM. remember (shape1 img) as N eqn:EN.
  pad_step (mk_array (M + 2 * r) (N + 2 * r) uninit) (sl r (- r)) (sl r (- r)) img
           r M r N cin1 Hrun1 Hsh10 Hsh11 Hcell1.
  pad_step cin1 (sl_to r) (sl r (- r)) (view img (sl_from (- r)) sl_all)
           0 r r N cin2 Hrun2 Hsh20 Hsh21 Hcell2.
  pad_step cin2 (sl_from (- r)) (sl r (- r)) (view img (sl_to r) sl_all)
           (M + r) r r N cin3 Hrun3 Hsh30 Hsh31 Hcell3.
  pad_step cin3 (sl r (- r)) (sl_to r) (view img sl_all (sl_from (- r)))
           r M 0 r cin4 Hrun4 Hsh40 Hsh41 Hcell4.
  pad_step cin4 (sl r (- r)) (sl_from (- r)) (view img sl_all (sl_to r))
           r M (N + r) r cin5 Hrun5 Hsh50 Hsh51 Hcell5.
  pad_step cin5 (sl_to r) (sl_to r) (view img (sl_from (- r)) (sl_from (- r)))
           0 r 0 r cin6 Hrun6 Hsh60 Hsh61 Hcell6.
  pad_step cin6 (sl_to r) (sl_from (- r)) (view img (sl_from (- r)) (sl_to r))
           0 r (N + r) r cin7 Hrun7 Hsh70 Hsh71 Hcell7.
  pad_step cin7 (sl_from (- r)) (sl_to r) (view img (sl_to r) (sl_from (- r)))
           (M + r) r 0 r cin8 Hrun8 Hsh80 Hsh81 Hcell8.
  pad_step cin8 (sl_from (- r)) (sl_from (- r)) (view img (sl_to r) (sl_to r))
           (M + r) r (N + r) r cin9 Hrun9 Hsh90 Hsh91 Hcell9.
  rewrite <- EM, <- EN in *.
  exists cin9. split; [reflexivity|]. split.
  - split; [assumption|]. split; [assumption|].
    intros v u Hv Hu. trace_cell. f_equal; lia.
  - clear HrM HrN. intros HrM HrN i j Hi Hj. unfold wrap_index.
    slices_in Hcell2. slices_in Hcell3. slices_in Hcell4. slices_in Hcell5.
    slices_in Hcell6. slices_in Hcell7. slices_in Hcell8. slices_in Hcell9.
    destruct (Z.ltb_spec (i - r) 0); [|destruct (Z.leb_spec M (i - r))];
      (destruct (Z.ltb_spec (j - r) 0); [|destruct (Z.leb_spec N (j - r))]);
      trace_cell; f_equal; lia.
Qed.
End PaddingFacts.

(* ================================================================== *)
(** ** Convolution with an identity-impulse kernel *)

Section IdentityKernel.
  Context {A : Type} `{Scalar A}.

(** A square kernel of side [2r+1], zero except for a one at its centre. *)
Definition identity_impulse (kern : ndarray A) (r : Z) : Prop :=
  0 <= r /\ shape0 kern = 2 * r + 1 /\ shape1 kern = 2 * r + 1
  /\ forall i j, 0 <= i < 2 * r + 1 -> 0 <= j < 2 * r + 1 ->
       item kern i j = if (i =? r) && (j =? r) then sone else szero.

  Hypothesis sadd_0_l : forall x : A, sadd szero x = x.
  Hypothesis sadd_0_r : forall x : A, sadd x szero = x.
  Hypothesis smul_0_r : forall x : A, smul x szero = szero.
  Hypothesis smul_1_r : forall x : A, smul x sone = x.

Lemma fold_sadd_zeros (l : list A) (x : A) :
  (forall y, In y l -> y = szero) -> fold_left sadd l x = x.
Proof.
  revert x. induction l as [|y l IH]; intros x Hl; [reflexivity|].
  cbn [fold_left]. rewrite (Hl y) by (now left). rewrite sadd_0_r.
  apply IH. intros z Hz. apply Hl. now right.
Qed.

Lemma conv_cell_identity (g kern : ndarray A) (r v u : Z) :
  identity_impulse kern r -> conv_cell g kern r v u = item g v u.
Proof.
  intros (Hr & _ & _ & Hk). unfold conv_cell, conv_terms.
  set (row := fun i : Z =>
                map (fun j : Z => smul (item g (v - r + i) (u - r + j))
                                       (item kern (2 * r - i) (2 * r - j)))
                    (range 0 (2 * r + 1))).
  assert (Hzero_row : forall i, 0 <= i < 2 * r + 1 -> i <> r ->
                                forall y, In y (row i) -> y = szero).
  { intros i Hi Hne y Hy. unfold row in Hy. apply in_map_iff in Hy.
    destruct Hy as (j & <- & Hj). apply in_range in Hj.
    rewrite Hk by lia.
    replace (2 * r - i =? r) with false by (symmetry; apply Z.eqb_neq; lia).
    apply smul_0_r. }
  rewrite (range_app 0 r (2 * r + 1)) by lia.
  rewrite (range_cons r (2 * r + 1)) by lia.
  rewrite map_app, concat_app. cbn [map concat].
  rewrite !fold_left_app.
  rewrite (fold_sadd_zeros (concat (map row (range 0 r)))).
  2:{ intros y Hy. apply in_concat in Hy. destruct Hy as (l & Hl & Hy).
      apply in_map_iff in Hl. destruct Hl as (i & <- & Hi). apply in_range in Hi.
      apply (Hzero_row i); [lia | lia | exact Hy]. }
  rewrite (fold_sadd_zeros (concat (map row (range (r + 1) (2 * r + 1))))).
  2:{ intros y Hy. apply in_concat in Hy. destruct Hy as (l & Hl & Hy).
      apply in_map_iff in Hl. destruct Hl as (i & <- & Hi). apply in_range in Hi.
      apply (Hzero_row i); [lia | lia | exact Hy]. }
  unfold row.
  rewrite (range_app 0 r (2 * r + 1)) by lia.
  rewrite (range_cons r (2 * r + 1)) by lia.
  rewrite map_app. cbn [map]. rewrite fold_left_app. cbn [fold_left].
  assert (Hzero_col : forall lo hi, 0 <= lo -> hi <= 2 * r + 1 ->
                        (forall j, lo <= j < hi -> j <> r) ->
                        forall y,
                          In y (map (fun j : Z =>
                                       smul (item g (v - r + r) (u - r + j))
                                            (item kern (2 * r - r) (2 * r - j)))
                                    (range lo hi)) -> y = szero).
  { intros lo hi Hlo Hhi Hne y Hy. apply in_map_iff in Hy.
    destruct Hy as (j & <- & Hj). apply in_range in Hj.
    rewrite Hk by lia.
    replace (2 * r - j =? r) with false
      by (symmetry; apply Z.eqb_neq; specialize (Hne j Hj); lia).
    rewrite andb_false_r. apply smul_0_r. }
  rewrite fold_sadd_zeros by (apply Hzero_col; lia).
  rewrite fold_sadd_zeros by (apply Hzero_col; lia).
  rewrite Hk by lia.
  replace (2 * r - r =? r) with true by (symmetry; apply Z.eqb_eq; lia).
  cbn [andb]. rewrite smul_1_r, sadd_0_l. f_equal; lia.
Qed.
End IdentityKernel.


(* ================================================================== *)
(** ** What [convolve2d] returns *)

Section ConvolveResults.
  Context {A : Type} `{Scalar A}.
  Variable uninit : Z -> Z -> A.

(** The boundary modes that pad the image. *)
Definition padded_modes : list string := ["fill"; "extend"; "mirror"; "wrap"]%string.

(** All boundary modes that [convolve2d] recognises. *)
Definition boundary_modes : list string := ("valid" :: padded_modes)%string.

(** For a padded mode and a kernel of radius [r >= 1], the result has the
    shape of the image and each cell is the window sum of the padded
    input around it. *)
Lemma convolve2d_padded (img kern ci : ndarray A) (r : Z) (mode : string) (fill : A) :
  wf_array img -> 1 <= r ->
  shape0 kern = 2 * r + 1 -> shape1 kern = 2 * r + 1 ->
  (mode =? "valid")%string = false ->
  conv_input_of uninit img r mode fill = Ok ci -> centred img ci r ->
  exists out,
    convolve2d uninit img kern mode fill = Ok out
    /\ shape0 out = shape0 img /\ shape1 out = shape1 img
    /\ forall v u, 0 <= v < shape0 img -> 0 <= u < shape1 img ->
         item out v u = conv_cell ci kern r (r + v) (r + u).
Proof.
  intros [HM HN] Hr Hk0 Hk1 Hmode Hci (Hs0 & Hs1 & Hcen).
  unfold convolve2d. rewrite Hmode.
  replace (shape0 kern / 2) with r by (rewrite Hk0; apply Z.div_unique with 1; lia).
  rewrite Hci. cbn [bind].
  destruct (_convolve_cells ci kern r) as (co & Hco & Hc0 & Hc1 & Hcell); try lia.
  rewrite Hco. cbn [bind]. eexists. split; [reflexivity|].
  cbn [copy view shape0 shape1 item]. rewrite Hc0, Hc1, Hs0, Hs1.
  rewrite !slice_len_sl_to_neg, !slice_lo_sl by lia.
  split; [lia|]. split; [lia|].
  intros v u Hv Hu. rewrite Hcell. unfold interior. rewrite Hs0, Hs1.
  replace ((r <=? r + v) && (r + v <? shape0 img + 2 * r - r)
           && (r <=? r + u) && (r + u <? shape1 img + 2 * r - r))
    with true by (symmetry; box_true).
  reflexivity.
Qed.

(** In "valid" mode the result is what [_convolve] leaves: window sums
    in the interior, zeros in the border band of width [r]. *)
Lemma convolve2d_valid (img kern : ndarray A) (r : Z) (fill : A) :
  0 <= r -> shape0 kern = 2 * r + 1 -> shape1 kern = 2 * r + 1 ->
  exists out,
    convolve2d uninit img kern "valid" fill = Ok out
    /\ shape0 out = shape0 img /\ shape1 out = shape1 img
    /\ forall v u, item out v u =
         if interior img r v u then conv_cell img kern r v u else szero.
Proof.
  intros Hr Hk0 Hk1. unfold convolve2d. mode_tests.
  now apply _convolve_cells.
Qed.

Lemma padded_mode_not_valid (mode : string) :
  In mode padded_modes -> (mode =? "valid")%string = false.
Proof.
  intros Hin. cbn in Hin.
  destruct Hin as [<-|[<-|[<-|[<-|[]]]]]; reflexivity.
Qed.

(** Every padded mode builds an input that holds the image in its centre;
    "wrap" needs each image dimension to be at least [r], or 1. *)
Lemma padded_input (img : ndarray A) (r : Z) (mode : string) (fill : A) :
  wf_array img -> 1 <= r -> In mode padded_modes ->
  (mode = "wrap"%string ->
   (r <= shape0 img \/ shape0 img = 1) /\ (r <= shape1 img \/ shape1 img = 1)) ->
  exists ci, conv_input_of uninit img r mode fill = Ok ci /\ centred img ci r.
Proof.
  intros Hwf Hr Hin Hwrap. cbn in Hin.
  destruct Hin as [<-|[<-|[<-|[<-|[]]]]].
  - destruct (fill_input uninit img r fill Hwf Hr) as (ci & Hci & Hcen & _). eauto.
  - destruct (extend_input uninit img r fill Hwf Hr) as (ci & Hci & Hcen & _). eauto.
  - destruct (mirror_input uninit img r fill Hwf Hr) as (ci & Hci & Hcen & _). eauto.
  - destruct (Hwrap eq_refl) as [H0 H1].
    destruct (wrap_input uninit img r fill Hwf Hr H0 H1) as (ci & Hci & Hcen & _). eauto.
Qed.

Lemma to_rows_ext (a b : ndarray A) :
  shape0 a = shape0 b -> shape1 a = shape1 b ->
  (forall v u, 0 <= v < shape0 a -> 0 <= u < shape1 a -> item a v u = item b v u) ->
  to_rows a = to_rows b.
Proof.
  intros H0 H1 Hit. unfold to_rows. rewrite <- H0, <- H1.
  apply map_ext_in. intros v Hv. apply in_range in Hv.
  apply map_ext_in. intros u Hu. apply in_range in Hu.
  apply Hit; lia.
Qed.

Hypothesis sadd_0_l : forall x : A, sadd szero x = x.
Hypothesis sadd_0_r : forall x : A, sadd x szero = x.
Hypothesis smul_0_r : forall x : A, smul x szero = szero.
Hypothesis smul_1_r : forall x : A, smul x sone = x.

(** C2 (amended).  With an identity-impulse kernel of radius [r]:
    in a padded mode ("fill", "extend", "mirror", "wrap") and for [r >= 1],
    [convolve2d] returns the image unchanged ("wrap" needs each image
    dimension to be at least [r], or 1); in "valid" mode it returns the
    image with the border band of width [r] set to zero. *)
Theorem convolve2d_identity_impulse
    (img kern : ndarray A) (r : Z) (mode : string) (fill : A) :
  wf_array img -> identity_impulse kern r ->
  (In mode padded_modes -> 1 <= r ->
   (mode = "wrap"%string ->
    (r <= shape0 img \/ shape0 img = 1) /\ (r <= shape1 img \/ shape1 img = 1)) ->
   exists out,
     convolve2d uninit img kern mode fill = Ok out
     /\ shape0 out = shape0 img /\ shape1 out = shape1 img
     /\ to_rows out = to_rows img)
  /\ (mode = "valid"%string ->
      exists out,
        convolve2d uninit img kern mode fill = Ok out
        /\ shape0 out = shape0 img /\ shape1 out = shape1 img
        /\ forall v u, 0 <= v < shape0 img -> 0 <= u < shape1 img ->
             item out v u = if interior img r v u then item img v u else szero).
Proof.
  intros Hwf Hid. pose proof Hid as (Hr0 & Hk0 & Hk1 & _). split.
  - intros Hin Hr Hwrap.
    destruct (padded_input img r mode fill Hwf Hr Hin Hwrap) as (ci & Hci & Hcen).
    destruct (convolve2d_padded img kern ci r mode fill Hwf Hr Hk0 Hk1
                (padded_mode_not_valid mode Hin) Hci Hcen)
      as (out & Hout & Hs0 & Hs1 & Hcell).
    exists out. repeat split; try assumption.
    apply to_rows_ext; try assumption.
    intros v u Hv Hu. rewrite Hs0 in Hv. rewrite Hs1 in Hu.
    rewrite Hcell by assumption.
    rewrite (conv_cell_identity sadd_0_l sadd_0_r smul_0_r smul_1_r) by exact Hid.
    destruct Hcen as (_ & _ & Hcen). now apply Hcen.
  - intros ->.
    destruct (convolve2d_valid img kern r fill Hr0 Hk0 Hk1)
      as (out & Hout & Hs0 & Hs1 & Hcell).
    exists out. repeat split; try assumption.
    intros v u _ _. rewrite Hcell.
    now rewrite (conv_cell_identity sadd_0_l sadd_0_r smul_0_r smul_1_r) by exact Hid.
Qed.
End ConvolveResults.

(* ------------------------------------------------------------------ *)
(** *** Concrete runs on integer images *)

(** Contents of uninitialised memory in the concrete runs. *)
Definition junk : Z -> Z -> Z := fun _ _ => -1.

Definition img3x3 : ndarray Z := of_rows 0 [[1; 2; 3]; [4; 5; 6]; [7; 8; 9]].
Definition img2x2 : ndarray Z := of_rows 0 [[1; 2]; [3; 4]].
Definition impulse3x3 : ndarray Z := of_rows 0 [[0; 0; 0]; [0; 1; 0]; [0; 0; 0]].
Definition impulse1x1 : ndarray Z := of_rows 0 [[1]].

Lemma wf_img3x3 : wf_array img3x3.
Proof. split; cbn; lia. Qed.

Lemma identity_impulse3x3 : identity_impulse impulse3x3 1.
Proof.
  repeat split; try reflexivity; try lia.
  intros i j Hi Hj.
  assert (Hi' : i = 0 \/ i = 1 \/ i = 2) by lia.
  assert (Hj' : j = 0 \/ j = 1 \/ j = 2) by lia.
  destruct Hi' as [->|[->| ->]]; destruct Hj' as [->|[->| ->]]; reflexivity.
Qed.

(** C2, witness: the 3x3 impulse leaves the 3x3 image unchanged in
    "mirror" mode. *)
Lemma convolve2d_identity_impulse_witness :
  exists out,
    convolve2d junk img3x3 impulse3x3 "mirror" 0 = Ok out
    /\ shape0 out = 3 /\ shape1 out = 3
    /\ to_rows out = [[1; 2; 3]; [4; 5; 6]; [7; 8; 9]].
Proof.
  destruct (@convolve2d_identity_impulse Z Scalar_Z junk Z.add_0_l Z.add_0_r Z.mul_0_r Z.mul_1_r
              img3x3 impulse3x3 1 "mirror" 0 wf_img3x3 identity_impulse3x3)
    as [Hpad _].
  apply Hpad.
  - cbn. tauto.
  - lia.
  - intros Hmode. discriminate Hmode.
Defined.

(** C2, counterexample: in "valid" mode the 3x3 impulse does not return
    the 3x3 image; the border band comes back as zeros. *)
Lemma convolve2d_identity_valid_counterexample :
  exists out,
    convolve2d junk img3x3 impulse3x3 "valid" 0 = Ok out
    /\ to_rows out = [[0; 0; 0]; [0; 5; 0]; [0; 0; 0]]
    /\ to_rows out <> to_rows img3x3.
Proof.
  eexists. split; [reflexivity|]. split; [reflexivity|]. discriminate.
Qed.

(** C1, failing input: with a 1x1 kernel the radius is 0, the slice
    [r:-r] is empty, and every padded mode raises numpy's broadcast
    error instead of returning an array of the image's shape. *)
Theorem convolve2d_unit_kernel_raises (uninit : Z -> Z -> Z) :
  Forall (fun mode => convolve2d uninit img2x2 impulse1x1 mode 0 = Raise BroadcastError)
         padded_modes.
Proof. repeat constructor. Qed.

(* ================================================================== *)
(** ** Mirror padding *)

Section MirrorPadding.
  Context {A : Type} `{Scalar A}.
  Variable uninit : Z -> Z -> A.

(** The reading of mirror padding that leaves the border sample out: the
    padded row at distance [t+1] above the image is image row [t+1]. *)
Definition mirror_excludes_border (img : ndarray A) (r : Z) (fill : A) : Prop :=
  r + 1 <= shape0 img -> r + 1 <= shape1 img ->
  forall ci, conv_input_of uninit img r "mirror" fill = Ok ci ->
  forall t u, 0 <= t < r -> 0 <= u < shape1 img ->
    item ci (r - 1 - t) (r + u) = item img (t + 1) u.

(** C3 (amended).  In mirror mode, for an image with at least [r+1] rows
    and columns and every offset [t] in [0..r-1], the padding at distance
    [t+1] outside a border is the image sample at distance [t] inside it:
    the border row or column itself is the first one reflected. *)
Theorem mirror_padding_reflects_from_border
    (img : ndarray A) (r : Z) (fill : A) :
  wf_array img -> 1 <= r -> r + 1 <= shape0 img -> r + 1 <= shape1 img ->
  exists ci,
    conv_input_of uninit img r "mirror" fill = Ok ci
    /\ forall t, 0 <= t < r ->
         (forall u, 0 <= u < shape1 img ->
            item ci (r - 1 - t) (r + u) = item img t u
            /\ item ci (r + shape0 img + t) (r + u) = item img (shape0 img - 1 - t) u)
         /\ (forall v, 0 <= v < shape0 img ->
               item ci (r + v) (r - 1 - t) = item img v t
               /\ item ci (r + v) (r + shape1 img + t) = item img v (shape1 img - 1 - t)).
Proof.
  intros Hwf Hr HM HN.
  destruct (mirror_input uninit img r fill Hwf Hr) as (ci & Hci & _ & Hcell).
  exists ci. split; [exact Hci|].
  specialize (Hcell ltac:(lia) ltac:(lia)).
  intros t Ht. split.
  - intros u Hu. split; rewrite Hcell by lia; unfold reflect;
      repeat match goal with
             | |- context [?x <? 0] => destruct (Z.ltb_spec x 0)
             | |- context [?n <=? ?x] => destruct (Z.leb_spec n x)
             end; try lia; f_equal; lia.
  - intros v Hv. split; rewrite Hcell by lia; unfold reflect;
      repeat match goal with
             | |- context [?x <? 0] => destruct (Z.ltb_spec x 0)
             | |- context [?n <=? ?x] => destruct (Z.leb_spec n x)
             end; try lia; f_equal; lia.
Qed.
End MirrorPadding.

(** C3, witness: radius 1 on the 3x3 image. *)
Lemma mirror_padding_reflects_from_border_witness :
  exists ci,
    conv_input_of junk img3x3 1 "mirror" 0 = Ok ci
    /\ forall t, 0 <= t < 1 ->
         (forall u, 0 <= u < 3 ->
            item ci (1 - 1 - t) (1 + u) = item img3x3 t u
            /\ item ci (1 + 3 + t) (1 + u) = item img3x3 (3 - 1 - t) u)
         /\ (forall v, 0 <= v < 3 ->
               item ci (1 + v) (1 - 1 - t) = item img3x3 v t
               /\ item ci (1 + v) (1 + 3 + t) = item img3x3 v (3 - 1 - t)).
Proof.
  apply (mirror_padding_reflects_from_border junk img3x3 1 0 wf_img3x3);
    cbn; lia.
Defined.

(** C3, counterexample: with radius 1 on the 3x3 image the padded row
    above the image is image row 0, the border row, and not row 1. *)
Lemma mirror_excludes_border_counterexample :
  ~ mirror_excludes_border junk img3x3 1 0.
Proof.
  intros Hclaim.
  destruct (mirror_input junk img3x3 1 0 wf_img3x3 ltac:(lia))
    as (ci & Hci & _ & Hcell).
  specialize (Hcell ltac:(cbn; lia) ltac:(cbn; lia) 0 1 ltac:(cbn; lia) ltac:(cbn; lia)).
  specialize (Hclaim ltac:(cbn; lia) ltac:(cbn; lia) ci Hci 0 0
                     ltac:(lia) ltac:(cbn; lia)).
  change (1 - 1 - 0) with 0 in Hclaim. change (1 + 0) with 1 in Hclaim.
  rewrite Hcell in Hclaim. discriminate Hclaim.
Qed.

(* ================================================================== *)
(** ** Kernel builder *)

(** *** Python arithmetic on [int] and [float] *)

Definition py_to_Q (x : pynum) : Q :=
  match x with
  | PyInt z => inject_Z z
  | PyFloat q => q
  end.

Definition py_to_R (x : pynum) : R :=
  match x with
  | PyInt z => IZR z
  | PyFloat q => Q2R q
  end.

(** [a + b], [a - b], [a * b], [-a]: [int] only when both operands are. *)
Definition py_add (a b : pynum) : pynum :=
  match a, b with
  | PyInt x, PyInt y => PyInt (x + y)
  | _, _ => PyFloat (py_to_Q a + py_to_Q b)
  end.

Definition py_sub (a b : pynum) : pynum :=
  match a, b with
  | PyInt x, PyInt y => PyInt (x - y)
  | _, _ => PyFloat (py_to_Q a - py_to_Q b)
  end.

Definition py_mul (a b : pynum) : pynum :=
  match a, b with
  | PyInt x, PyInt y => PyInt (x * y)
  | _, _ => PyFloat (py_to_Q a * py_to_Q b)
  end.

Definition py_neg (a : pynum) : pynum :=
  match a with
  | PyInt x => PyInt (- x)
  | PyFloat q => PyFloat (- q)
  end.

(** [a ** 2]. *)
Definition py_sq (a : pynum) : pynum := py_mul a a.

(** [a // 2] and [a % 2] (floor division and its remainder). *)
Definition py_floordiv2 (a : pynum) : pynum :=
  match a with
  | PyInt x => PyInt (x / 2)
  | PyFloat q => PyFloat (inject_Z (Qfloor (q / 2)))
  end.

Definition py_mod2 (a : pynum) : pynum :=
  match a with
  | PyInt x => PyInt (x mod 2)
  | PyFloat q => PyFloat (q - 2 * inject_Z (Qfloor (q / 2)))
  end.

(** [int(a)]: truncation towards zero. *)
Definition py_int (a : pynum) : Z :=
  match a with
  | PyInt x => x
  | PyFloat q => if Qle_bool 0 q then Qfloor q else Qceiling q
  end.

(** Truth value of a number: it is not zero. *)
Definition py_truthy (a : pynum) : bool :=
  match a with
  | PyInt x => negb (x =? 0)
  | PyFloat q => negb (Qeq_bool q 0)
  end.

(** Use of a number where numpy or [range] needs an integer. *)
Definition py_index (a : pynum) : result Z :=
  match a with
  | PyInt x => Ok x
  | PyFloat _ => Raise FloatAsInteger
  end.

#[export] Instance Scalar_R : Scalar R := {
  szero := 0%R;
  sone := 1%R;
  sadd := Rplus;
  smul := Rmult;
  slt := fun x y => if Rlt_dec x y then true else false;
}.

(** [h /= s]. *)
Definition np_div_scalar (h : ndarray R) (s : R) : ndarray R :=
  mk_array (shape0 h) (shape1 h) (fun v u => (item h v u / s)%R).

Section KernelBuilder.
  Variable uninit : Z -> Z -> R.

(** The argument of [np.exp] at utils.py:99-101; the division is Python's. *)
Definition gauss_exponent (j k : Z) (mean sigma : pynum) : result R :=
  let num := py_neg (py_add (py_sq (py_sub (PyInt j) mean))
                            (py_sq (py_sub (PyInt k) mean))) in
  let den := py_mul (PyFloat 2) (py_sq sigma) in
  if py_truthy den then Ok (py_to_R num / py_to_R den)%R
  else Raise ZeroDivision.

(** utils.py:91-103. *)
Definition get_gaussian_kernel (n sigma : pynum) : result (ndarray R) :=
  if negb (py_truthy (py_mod2 n)) then Raise (KernelSizeNotOdd n)
  else
    let mean := py_floordiv2 n in
    size <- py_index n ;;
    h <- np_empty uninit (size, size) ;;
    h <- for_each (range 0 size) (fun j h =>
           for_each (range 0 size) (fun k h =>
             x <- gauss_exponent j k mean sigma ;;
             Ok (set_item h k j (exp x)))
           h)
         h ;;
    Ok (np_div_scalar h (np_sum h)).

(** The side length computed at utils.py:108. *)
Definition gaussian_side (sigma : pynum) : pynum :=
  py_add (PyInt (py_int (py_mul (PyInt 5) sigma)))
         (py_sub (PyInt 1) (py_mod2 sigma)).

(** utils.py:106-109. *)
Definition gaussian (sigma : pynum) : result (ndarray R) :=
  let n := gaussian_side sigma in
  get_gaussian_kernel n sigma.
End KernelBuilder.

Example gaussian_side_2 : gaussian_side (PyInt 2) = PyInt 11.
Proof. reflexivity. Qed.

Example gaussian_side_3 : gaussian_side (PyInt 3) = PyInt 15.
Proof. reflexivity. Qed.

Example gaussian_side_float : gaussian_side (PyFloat (3 # 2)) = PyFloat (13 # 2).
Proof. reflexivity. Qed.

Example gaussian_float_raises (uninit : Z -> Z -> R) :
  gaussian uninit (PyFloat (3 # 2)) = Raise FloatAsInteger.
Proof. reflexivity. Qed.

Example gaussian_float2_raises (uninit : Z -> Z -> R) :
  gaussian uninit (PyFloat 2) = Raise FloatAsInteger.
Proof. reflexivity. Qed.

(* ================================================================== *)
(** ** Which exceptions a computation can raise *)

(** The two exceptions that [utils.py] raises itself, for a rejected
    parameter. *)
Definition is_parameter_error (e : exn) : bool :=
  match e with
  | InvalidBoundaryMode _ | KernelSizeNotOdd _ => true
  | _ => false
  end.

(** Every exception that [c] can raise satisfies [P]. *)
Definition raises_only {T : Type} (P : exn -> Prop) (c : result T) : Prop :=
  forall e, c = Raise e -> P e.

Lemma raises_only_ok {T : Type} (P : exn -> Prop) (x : T) : raises_only P (Ok x).
Proof. intros e He. discriminate He. Qed.

Lemma raises_only_raise {T : Type} (P : exn -> Prop) (e : exn) :
  P e -> raises_only P (@Raise T e).
Proof. intros HP e' He'. now inversion He'; subst. Qed.

Lemma raises_only_bind {T U : Type} (P : exn -> Prop) (c : result T)
    (k : T -> result U) :
  raises_only P c -> (forall x, raises_only P (k x)) -> raises_only P (bind c k).
Proof.
  intros Hc Hk e He. destruct c as [x|e']; cbn in He.
  - now apply (Hk x).
  - inversion He; subst. now apply Hc.
Qed.

Lemma raises_only_for_each {S : Type} (P : exn -> Prop) (l : list Z)
    (body : Z -> S -> result S) (s : S) :
  (forall i s', raises_only P (body i s')) -> raises_only P (for_each l body s).
Proof.
  intros Hbody. revert s. induction l as [|i l IH]; intros s.
  - apply raises_only_ok.
  - cbn [for_each]. destruct (body i s) as [s'|e'] eqn:Hb.
    + apply IH.
    + apply raises_only_raise. now apply (Hbody i s).
Qed.

Lemma raises_only_set_slice {A : Type} (P : exn -> Prop) (a : ndarray A)
    (rs cs : pyslice) (src : ndarray A) :
  P BroadcastError -> raises_only P (set_slice a rs cs src).
Proof.
  intros HP. unfold set_slice.
  destruct (_ && _); [apply raises_only_ok | now apply raises_only_raise].
Qed.

Lemma raises_only_np_empty {A : Type} (P : exn -> Prop) (uninit : Z -> Z -> A)
    (shape : Z * Z) :
  P NegativeDimensions -> raises_only P (np_empty uninit shape).
Proof.
  intros HP. unfold np_empty.
  destruct (_ || _); [now apply raises_only_raise | apply raises_only_ok].
Qed.

Lemma raises_only__convolve {A : Type} `{Scalar A} (P : exn -> Prop)
    (g h : ndarray A) :
  P BroadcastError -> raises_only P (_convolve g h).
Proof.
  intros HP. unfold _convolve.
  apply raises_only_for_each. intros v out.
  apply raises_only_for_each. intros u out'.
  apply raises_only_bind; [|intros; apply raises_only_ok].
  unfold np_mul. destruct (_ && _); [apply raises_only_ok | now apply raises_only_raise].
Qed.

(** With a recognised mode, nothing in [convolve2d] raises a parameter
    error. *)
Lemma convolve2d_recognised_mode {A : Type} `{Scalar A} (uninit : Z -> Z -> A)
    (img kern : ndarray A) (mode : string) (fill : A) :
  In mode boundary_modes ->
  raises_only (fun e => is_parameter_error e = false)
              (convolve2d uninit img kern mode fill).
Proof.
  intros Hin. cbn in Hin. unfold convolve2d, conv_input_of.
  destruct Hin as [<-|[<-|[<-|[<-|[<-|[]]]]]]; mode_tests;
    repeat first
      [ apply raises_only__convolve
      | apply raises_only_set_slice
      | apply raises_only_np_empty
      | apply raises_only_ok
      | apply raises_only_bind; [|intros ?]
      | reflexivity ].
Qed.

(** With any other mode, and well-formed arrays, the first thing raised
    is the error of utils.py:85. *)
Lemma convolve2d_unrecognised_mode {A : Type} `{Scalar A} (uninit : Z -> Z -> A)
    (img kern : ndarray A) (mode : string) (fill : A) :
  wf_array img -> wf_array kern -> ~ In mode boundary_modes ->
  convolve2d uninit img kern mode fill = Raise (InvalidBoundaryMode mode).
Proof.
  intros [HM HN] [Hk _] Hnot. unfold convolve2d, conv_input_of.
  assert (Hne : forall m, In m boundary_modes -> (mode =? m)%string = false).
  { intros m Hm. apply String.eqb_neq. intros ->. now apply Hnot. }
  rewrite !Hne by (cbn; tauto).
  rewrite np_empty_ok; [reflexivity | |];
    pose proof (Z.div_pos (shape0 kern) 2 Hk ltac:(lia)); lia.
Qed.

(** *** The parity test of [get_gaussian_kernel] *)

(** The value of [n] is an even integer. *)
Definition py_even (n : pynum) : Prop :=
  match n with
  | PyInt z => Z.even z = true
  | PyFloat q => exists k : Z, (q == 2 * inject_Z k)%Q
  end.

Lemma py_mod2_zero_iff (n : pynum) :
  py_truthy (py_mod2 n) = false <-> py_even n.
Proof.
  destruct n as [z|q]; cbn [py_mod2 py_truthy py_even].
  - rewrite negb_false_iff, Z.eqb_eq, Zmod_even.
    destruct (Z.even z); split; intros Hz; try reflexivity; discriminate Hz.
  - rewrite negb_false_iff, Qeq_bool_iff. split.
    + intros Hq. exists (Qfloor (q / 2)).
      rewrite <- (Qplus_0_l (2 * inject_Z (Qfloor (q / 2)))), <- Hq. ring.
    + intros (k & Hk).
      assert (Hhalf : (q / 2 == inject_Z k)%Q) by (rewrite Hk; field).
      rewrite Hhalf, Qfloor_Z, Hk. ring.
Qed.

Lemma get_gaussian_kernel_even (uninit : Z -> Z -> R) (n sigma : pynum) :
  py_even n -> get_gaussian_kernel uninit n sigma = Raise (KernelSizeNotOdd n).
Proof.
  intros Hn. apply py_mod2_zero_iff in Hn.
  unfold get_gaussian_kernel. now rewrite Hn.
Qed.

Lemma get_gaussian_kernel_not_even (uninit : Z -> Z -> R) (n sigma : pynum) :
  ~ py_even n ->
  raises_only (fun e => is_parameter_error e = false)
              (get_gaussian_kernel uninit n sigma).
Proof.
  intros Hn. rewrite <- py_mod2_zero_iff in Hn.
  unfold get_gaussian_kernel.
  destruct (py_truthy (py_mod2 n)); [|now exfalso; apply Hn].
  cbn [negb].
  apply raises_only_bind.
  { destruct n; [apply raises_only_ok | now apply raises_only_raise]. }
  intros size. apply raises_only_bind; [now apply raises_only_np_empty|].
  intros h. apply raises_only_bind; [|intros; apply raises_only_ok].
  apply raises_only_for_each. intros j h1.
  apply raises_only_for_each. intros k h2.
  apply raises_only_bind; [|intros; apply raises_only_ok].
  unfold gauss_exponent.
  destruct (py_truthy _); [apply raises_only_ok | now apply raises_only_raise].
Qed.

(** C9.  [convolve2d] raises its invalid-mode error exactly when the mode
    is none of "valid", "fill", "extend", "mirror", "wrap", and
    [get_gaussian_kernel] raises its odd-size error exactly when the
    requested side length is even; [gaussian] hands on whatever
    [get_gaussian_kernel] raises. *)
Theorem parameter_errors {A : Type} `{Scalar A}
    (uninit : Z -> Z -> A) (uninitR : Z -> Z -> R)
    (img kern : ndarray A) (mode : string) (fill : A) (n sigma : pynum) :
  wf_array img -> wf_array kern ->
  ((exists m, convolve2d uninit img kern mode fill = Raise (InvalidBoundaryMode m))
   <-> ~ In mode boundary_modes)
  /\ (~ In mode boundary_modes ->
      convolve2d uninit img kern mode fill = Raise (InvalidBoundaryMode mode))
  /\ ((exists x, get_gaussian_kernel uninitR n sigma = Raise (KernelSizeNotOdd x))
      <-> py_even n)
  /\ (py_even n -> get_gaussian_kernel uninitR n sigma = Raise (KernelSizeNotOdd n))
  /\ (forall e, get_gaussian_kernel uninitR (gaussian_side sigma) sigma = Raise e ->
                gaussian uninitR sigma = Raise e).
Proof.
  intros Himg Hkern. repeat split.
  - intros (m & Hm) Hin.
    apply (convolve2d_recognised_mode uninit img kern mode fill Hin) in Hm.
    discriminate Hm.
  - intros Hnot. exists mode. now apply convolve2d_unrecognised_mode.
  - now apply convolve2d_unrecognised_mode.
  - intros (x & Hx).
    destruct n as [z|q].
    + cbn [py_even]. destruct (Z.even z) eqn:Hz; [reflexivity|].
      exfalso.
      assert (Hne : ~ py_even (PyInt z)) by (cbn [py_even]; congruence).
      apply (get_gaussian_kernel_not_even uninitR _ sigma Hne) in Hx.
      discriminate Hx.
    + destruct (py_truthy (py_mod2 (PyFloat q))) eqn:Ht.
      * exfalso.
        assert (Hne : ~ py_even (PyFloat q)).
        { rewrite <- py_mod2_zero_iff. congruence. }
        apply (get_gaussian_kernel_not_even uninitR _ sigma Hne) in Hx.
        discriminate Hx.
      * now apply py_mod2_zero_iff.
  - intros Hn. exists n. now apply get_gaussian_kernel_even.
  - now apply get_gaussian_kernel_even.
  - intros e He. exact He.
Qed.

(** C9, witness: an unrecognised mode on the 3x3 image, and side length 4. *)
Lemma parameter_errors_witness :
  convolve2d junk img3x3 impulse3x3 "reflect" 0 = Raise (InvalidBoundaryMode "reflect")
  /\ get_gaussian_kernel (fun _ _ => 0%R) (PyInt 4) (PyInt 1)
     = Raise (KernelSizeNotOdd (PyInt 4)).
Proof.
  destruct (parameter_errors junk (fun _ _ => 0%R) img3x3 impulse3x3 "reflect" 0
              (PyInt 4) (PyInt 1) wf_img3x3 ltac:(split; cbn; lia))
    as (_ & Hmode & _ & Hsize & _).
  split.
  - apply Hmode. cbn. intros [Hm|[Hm|[Hm|[Hm|[Hm|[]]]]]]; discriminate Hm.
  - apply Hsize. reflexivity.
Defined.

(* ================================================================== *)
(** ** The Gaussian kernel *)

(** Loops that fill an array column by column, as [get_gaussian_kernel]
    does ([j] outside, [k] inside, writing [h[k, j]]). *)
Lemma for_each_set_cells_col {A B : Type} (f : Z -> result B) (post : B -> A)
    (val : Z -> A) (u : Z) (l : list Z) (out : ndarray A) :
  (forall v, In v l -> exists p, f v = Ok p /\ post p = val v) ->
  exists out',
    for_each l (fun v out => p <- f v ;; Ok (set_item out v u (post p))) out = Ok out'
    /\ shape0 out' = shape0 out /\ shape1 out' = shape1 out
    /\ forall v' u', item out' v' u' =
         if (u' =? u) && existsb (Z.eqb v') l then val v' else item out v' u'.
Proof.
  revert out. induction l as [|v l IH]; intros out Hf.
  - exists out. cbn. repeat split; try reflexivity.
    intros v' u'. now rewrite andb_false_r.
  - cbn [for_each].
    destruct (Hf v (or_introl eq_refl)) as (p & Hp & Hpost).
    rewrite Hp. cbn [bind]. rewrite Hpost.
    destruct (IH (set_item out v u (val v))) as (out' & Hrun & Hs0 & Hs1 & Hit).
    { intros v' Hv'. apply Hf. now right. }
    exists out'. rewrite Hrun. repeat split; try assumption.
    intros v' u'. rewrite Hit. cbn [existsb set_item item].
    destruct (Z.eqb_spec u' u) as [->|Hu]; cbn [andb].
    + destruct (existsb (Z.eqb v') l) eqn:Hex.
      * now rewrite orb_true_r.
      * rewrite orb_false_r. rewrite andb_true_r.
        destruct (Z.eqb_spec v' v) as [->|Hv]; reflexivity.
    + now rewrite andb_false_r.
Qed.

Lemma for_each_cols {A : Type} (body : Z -> ndarray A -> result (ndarray A))
    (cell : Z -> Z -> A) (incol : Z -> bool) (l : list Z) (out : ndarray A) :
  (forall u o, In u l ->
     exists o', body u o = Ok o'
       /\ shape0 o' = shape0 o /\ shape1 o' = shape1 o
       /\ forall v' u', item o' v' u' =
            if (u' =? u) && incol v' then cell v' u' else item o v' u') ->
  exists out',
    for_each l body out = Ok out'
    /\ shape0 out' = shape0 out /\ shape1 out' = shape1 out
    /\ forall v' u', item out' v' u' =
         if existsb (Z.eqb u') l && incol v' then cell v' u' else item out v' u'.
Proof.
  revert out. induction l as [|u l IH]; intros out Hb.
  - exists out. cbn. repeat split; reflexivity.
  - cbn [for_each].
    destruct (Hb u out (or_introl eq_refl)) as (o1 & Hrun1 & Hs0 & Hs1 & Hit1).
    rewrite Hrun1.
    destruct (IH o1) as (out' & Hrun & Hs0' & Hs1' & Hit).
    { intros u' o Hu'. apply Hb. now right. }
    exists out'. rewrite Hrun. repeat split; try congruence.
    intros v' u'. rewrite Hit, Hit1. cbn [existsb].
    destruct (existsb (Z.eqb u') l) eqn:Hex; cbn [andb].
    + rewrite orb_true_r. cbn [andb].
      destruct (incol v'); [reflexivity|].
      now rewrite andb_false_r.
    + rewrite orb_false_r. reflexivity.
Qed.

(** Sums of real numbers as [np.sum] folds them. *)
Lemma fold_Rplus_scale (l : list R) (a s : R) :
  fold_left Rplus (map (fun x => x / s)%R l) (a / s)%R
  = (fold_left Rplus l a / s)%R.
Proof.
  revert a. induction l as [|x l IH]; intros a; [reflexivity|].
  cbn [map fold_left].
  replace (a / s + x / s)%R with ((a + x) / s)%R by (unfold Rdiv; ring).
  apply IH.
Qed.

Lemma fold_Rplus_pos (l : list R) (a : R) :
  (forall x, In x l -> (0 < x)%R) -> (0 <= a)%R -> l <> [] ->
  (0 < fold_left Rplus l a)%R.
Proof.
  revert a. induction l as [|x l IH]; intros a Hpos Ha Hne; [congruence|].
  cbn [fold_left]. pose proof (Hpos x (or_introl eq_refl)) as Hx.
  destruct l as [|y l].
  - cbn. lra.
  - apply IH; [intros z Hz; apply Hpos; now right | lra | discriminate].
Qed.

Lemma Q2R_inject_Z (z : Z) : Q2R (inject_Z z) = IZR z.
Proof. unfold Q2R, inject_Z. cbn. field. Qed.

(** The unnormalised weight of cell [(row, col)]. *)
Definition gauss_weight (mean sigma row col : Z) : R :=
  exp (- IZR ((col - mean) ^ 2 + (row - mean) ^ 2) / (2 * IZR sigma ^ 2)).

(** The sum of all weights of an [n] by [n] kernel, in row-major order. *)
Definition gauss_total (n sigma : Z) : R :=
  fold_left Rplus
    (concat (map (fun row => map (fun col => gauss_weight (n / 2) sigma row col)
                                 (range 0 n))
                 (range 0 n)))
    0%R.

Lemma gauss_exponent_int (j k mean sigma : Z) :
  sigma <> 0 ->
  exists x, gauss_exponent j k (PyInt mean) (PyInt sigma) = Ok x
            /\ exp x = gauss_weight mean sigma k j.
Proof.
  intros Hs. unfold gauss_exponent.
  cbn [py_sub py_sq py_mul py_add py_neg py_to_Q py_truthy py_to_R].
  assert (Hden : Qeq_bool (2 * inject_Z (sigma * sigma)) 0 = false).
  { destruct (Qeq_bool _ _) eqn:Hq; [|reflexivity].
    apply Qeq_bool_iff in Hq. unfold Qeq, Qmult, inject_Z in Hq.
    cbn [Qnum Qden] in Hq. nia. }
  rewrite Hden. cbn [negb]. eexists. split; [reflexivity|].
  unfold gauss_weight. f_equal.
  rewrite Q2R_mult, Q2R_inject_Z.
  replace (Q2R 2) with 2%R by (unfold Q2R; cbn; lra).
  rewrite opp_IZR, mult_IZR. f_equal.
  - f_equal. f_equal. ring.
  - ring.
Qed.

Lemma gauss_total_pos (n sigma : Z) : 0 < n -> (0 < gauss_total n sigma)%R.
Proof.
  intros Hn. unfold gauss_total. apply fold_Rplus_pos.
  - intros x Hx. apply in_concat in Hx. destruct Hx as (l & Hl & Hx).
    apply in_map_iff in Hl. destruct Hl as (row & <- & _).
    apply in_map_iff in Hx. destruct Hx as (col & <- & _).
    apply exp_pos.
  - lra.
  - rewrite (range_cons 0 n) by lia. cbn [map concat]. discriminate.
Qed.

Section GaussianFacts.
  Variable uninit : Z -> Z -> R.

(** For an odd positive size and a non-zero integer [sigma] the kernel is
    built, holds the weights divided by their total, and sums to 1. *)
Lemma get_gaussian_kernel_odd (n sigma : Z) :
  0 < n -> Z.odd n = true -> sigma <> 0 ->
  exists h,
    get_gaussian_kernel uninit (PyInt n) (PyInt sigma) = Ok h
    /\ shape0 h = n /\ shape1 h = n
    /\ (forall row col, 0 <= row < n -> 0 <= col < n ->
          item h row col
          = (gauss_weight (n / 2) sigma row col / gauss_total n sigma)%R)
    /\ np_sum h = 1%R.
Proof.
  intros Hn Hodd Hs. unfold get_gaussian_kernel.
  cbn [py_mod2 py_truthy py_floordiv2 py_index bind].
  rewrite Zmod_odd, Hodd. cbn [Z.eqb negb].
  rewrite np_empty_ok by lia. cbn [bind].
  destruct (for_each_cols
              (fun j h =>
                 for_each (range 0 n)
                   (fun k h =>
                      x <- gauss_exponent j k (PyInt (n / 2)) (PyInt sigma) ;;
                      Ok (set_item h k j (exp x))) h)
              (gauss_weight (n / 2) sigma)
              (fun v => (0 <=? v) && (v <? n))
              (range 0 n) (mk_array n n uninit))
    as (h & Hrun & Hs0 & Hs1 & Hit).
  { intros j o Hj.
    destruct (for_each_set_cells_col
                (fun k => gauss_exponent j k (PyInt (n / 2)) (PyInt sigma))
                exp (fun k => gauss_weight (n / 2) sigma k j) j (range 0 n) o)
      as (o' & Hrun & Hs0 & Hs1 & Hit).
    { intros k _. now apply gauss_exponent_int. }
    exists o'. repeat split; try assumption.
    intros v' u'. rewrite Hit, existsb_range.
    destruct (Z.eqb_spec u' j) as [->|]; reflexivity. }
  rewrite Hrun. cbn [bind]. cbn [shape0 shape1] in Hs0, Hs1.
  assert (Helems : elements h
                   = concat (map (fun row =>
                                    map (fun col => gauss_weight (n / 2) sigma row col)
                                        (range 0 n))
                                 (range 0 n))).
  { unfold elements, to_rows. rewrite Hs0, Hs1. f_equal.
    apply map_ext_in. intros v Hv. apply in_range in Hv.
    apply map_ext_in. intros u Hu. apply in_range in Hu.
    rewrite Hit, existsb_range.
    replace ((0 <=? u) && (u <? n) && ((0 <=? v) && (v <? n))) with true
      by (symmetry; box_true).
    reflexivity. }
  assert (Hsum : np_sum h = gauss_total n sigma).
  { unfold np_sum, gauss_total. now rewrite Helems. }
  pose proof (gauss_total_pos n sigma Hn) as Hpos.
  eexists. split; [reflexivity|].
  cbn [np_div_scalar shape0 shape1 item]. rewrite Hsum.
  split; [assumption|]. split; [assumption|]. split.
  - intros row col Hrow Hcol. rewrite Hit, existsb_range.
    replace ((0 <=? col) && (col <? n) && ((0 <=? row) && (row <? n))) with true
      by (symmetry; box_true).
    reflexivity.
  - unfold np_sum at 1.
    replace (elements _) with (map (fun x => (x / gauss_total n sigma)%R) (elements h)).
    2:{ unfold elements, to_rows. cbn [shape0 shape1 item].
        rewrite concat_map, map_map. f_equal.
        apply map_ext. intros v. now rewrite map_map. }
    cbn [sadd szero Scalar_R].
    replace 0%R with (0 / gauss_total n sigma)%R at 1 by (unfold Rdiv; ring).
    rewrite fold_Rplus_scale.
    change (fold_left Rplus (elements h) 0%R) with (np_sum h).
    rewrite Hsum. field. lra.
Qed.

(** The side length for an integer [sigma]: the least odd integer that
    is at least [5 * sigma]. *)
Lemma gaussian_side_int (sigma : Z) :
  exists n,
    gaussian_side (PyInt sigma) = PyInt n
    /\ Z.odd n = true /\ 5 * sigma <= n
    /\ forall m, Z.odd m = true -> 5 * sigma <= m -> n <= m.
Proof.
  exists (5 * sigma + (1 - sigma mod 2)). split; [reflexivity|].
  rewrite Zmod_odd.
  assert (Hpar : Z.odd (5 * sigma) = Z.odd sigma).
  { rewrite Z.odd_mul. reflexivity. }
  destruct (Z.odd sigma) eqn:Hodd.
  - replace (5 * sigma + (1 - 1)) with (5 * sigma) by lia.
    split; [congruence|]. split; [lia|]. intros m _ Hm. exact Hm.
  - replace (5 * sigma + (1 - 0)) with (5 * sigma + 1) by lia.
    split.
    + rewrite Z.odd_add, Hpar. reflexivity.
    + split; [lia|]. intros m Hm Hle.
      destruct (Z.eq_dec m (5 * sigma)) as [->|Hne]; [congruence | lia].
Qed.

(** For every positive integer [sigma], [gaussian] builds
    a kernel whose side [n] is the least odd integer at least [5 * sigma];
    cell [(row, col)] is [exp(-((col-mean)^2+(row-mean)^2)/(2*sigma^2))],
    with [mean = n // 2], divided by the total of these weights, so that
    the kernel sums to 1. *)
Theorem gaussian_integer_sigma (sigma : Z) :
  0 < sigma ->
  exists n h,
    gaussian_side (PyInt sigma) = PyInt n
    /\ (Z.odd n = true /\ 5 * sigma <= n
        /\ forall m, Z.odd m = true -> 5 * sigma <= m -> n <= m)
    /\ gaussian uninit (PyInt sigma) = Ok h
    /\ shape0 h = n /\ shape1 h = n
    /\ (forall row col, 0 <= row < n -> 0 <= col < n ->
          item h row col
          = (exp (- IZR ((col - n / 2) ^ 2 + (row - n / 2) ^ 2)
                  / (2 * IZR sigma ^ 2))
             / gauss_total n sigma)%R)
    /\ (0 < gauss_total n sigma)%R
    /\ np_sum h = 1%R.
Proof.
  intros Hs.
  destruct (gaussian_side_int sigma) as (n & Hside & Hodd & Hle & Hleast).
  destruct (get_gaussian_kernel_odd n sigma ltac:(lia) Hodd ltac:(lia))
    as (h & Hh & Hs0 & Hs1 & Hcell & Hsum).
  exists n, h. unfold gaussian. rewrite Hside.
  repeat split; try assumption.
  apply gauss_total_pos. lia.
Qed.
End GaussianFacts.

(** The claim that a kernel is built for every positive [sigma], integer
    or not, with the least odd side at least [5 * sigma]. *)
Definition gaussian_builds_least_odd_kernel (uninit : Z -> Z -> R) (sigma : pynum)
  : Prop :=
  exists n h,
    gaussian uninit sigma = Ok h
    /\ shape0 h = n /\ shape1 h = n
    /\ Z.odd n = true /\ (5 * py_to_Q sigma <= inject_Z n)%Q
    /\ forall m, Z.odd m = true -> (5 * py_to_Q sigma <= inject_Z m)%Q -> n <= m.

(** [sigma = 2], the value [harris_response] uses. *)
Lemma gaussian_integer_sigma_witness :
  exists n h,
    gaussian_side (PyInt 2) = PyInt n
    /\ (Z.odd n = true /\ 5 * 2 <= n
        /\ forall m, Z.odd m = true -> 5 * 2 <= m -> n <= m)
    /\ gaussian (fun _ _ => 0%R) (PyInt 2) = Ok h
    /\ shape0 h = n /\ shape1 h = n
    /\ (forall row col, 0 <= row < n -> 0 <= col < n ->
          item h row col
          = (exp (- IZR ((col - n / 2) ^ 2 + (row - n / 2) ^ 2)
                  / (2 * IZR 2 ^ 2))
             / gauss_total n 2)%R)
    /\ (0 < gauss_total n 2)%R
    /\ np_sum h = 1%R.
Proof.
  apply (gaussian_integer_sigma (fun _ _ => 0%R) 2). lia.
Defined.

Section GaussianFloatSigma.
  Variable uninit : Z -> Z -> R.

(** C5.  For a [float] [sigma] the side [int(5 * sigma) + (1 - sigma % 2)]
    is a [float], and no [float] gets past the parity test and [np.empty]:
    [gaussian(1.5)], with side [6.5], and [gaussian(2.0)], with side
    [11.0], raise numpy's [TypeError] where the claim has kernels of 9 by
    9 and 11 by 11 cells, and [gaussian] returns for no [float] [sigma] at
    all. *)
Theorem gaussian_float_sigma_raises :
  gaussian_side (PyFloat (3 # 2)) = PyFloat (13 # 2)
  /\ gaussian uninit (PyFloat (3 # 2)) = Raise FloatAsInteger
  /\ gaussian uninit (PyFloat 2) = Raise FloatAsInteger
  /\ ~ gaussian_builds_least_odd_kernel uninit (PyFloat (3 # 2))
  /\ forall q : Q, exists e, gaussian uninit (PyFloat q) = Raise e.
Proof.
  split; [reflexivity|]. split; [reflexivity|]. split; [reflexivity|]. split.
  - intros (n & h & Hrun & _). discriminate Hrun.
  - intros q. unfold gaussian, gaussian_side.
    cbn [py_mul py_int py_mod2 py_sub py_add py_to_Q].
    unfold get_gaussian_kernel.
    destruct (negb (py_truthy (py_mod2 _))); [eauto|].
    cbn [py_index bind]. eauto.
Qed.
End GaussianFloatSigma.

(* ================================================================== *)
(** ** Maxima extractor *)

(** A candidate point [(u, v, score)]: column, row, score. *)
Definition point_u {A : Type} (pt : Z * Z * A) : Z := fst (fst pt).
Definition point_v {A : Type} (pt : Z * Z * A) : Z := snd (fst pt).
Definition point_h {A : Type} (pt : Z * Z * A) : A := snd pt.

Section StableSort.
  Context {T : Type}.
  Variable key_lt : T -> T -> bool.   (* the key of the first is smaller *)

(** [l.sort(key=..., reverse=True)]: descending by key and stable, elements
    with equal keys keep their order.  [insert_desc x l] puts [x], which
    came before every element of [l], into the sorted [l]. *)
Fixpoint insert_desc (x : T) (l : list T) : list T :=
  match l with
  | [] => [x]
  | y :: l' => if key_lt x y then y :: insert_desc x l' else x :: l
  end.

Fixpoint sort_desc (l : list T) : list T :=
  match l with
  | [] => []
  | x :: l' => insert_desc x (sort_desc l')
  end.
End StableSort.

Section MaximaExtractor.
  Context {A : Type} `{Scalar A}.

(** The test of utils.py:136-143 on cell [(k, j)] with score [p]. *)
Definition above_neighbours (im : ndarray A) (k j : Z) (p : A) : bool :=
  (* Neighbors above *)
  all_gt p (view im (sl (k - 1) k) (sl (j - 1) (j + 2)))
  (* Below *)
  && all_gt p (view im (sl (k + 1) (k + 2)) (sl (j - 1) (j + 2)))
  (* Left and right *)
  && all_gt p (view_step2 im k (sl (j - 1) (j + 2))).

(** utils.py:128-147. *)
Definition get_maxima (im : ndarray A) (threshold : A) (sort : bool)
  : list (Z * Z * A) :=
  let m := shape0 im in
  let n := shape1 im in
  let points :=
    fold_left (fun points k =>
      fold_left (fun points j =>
        if slt (item im k j) threshold then points
        else
          let p := item im k j in
          if above_neighbours im k j p then points ++ [(j, k, p)]
          else points)
        (range 1 (n - 1)) points)
      (range 1 (m - 1)) [] in
  if sort then sort_desc (fun a b => slt (point_h a) (point_h b)) points
  else points.
End MaximaExtractor.

Definition peak5x5 : ndarray Z :=
  of_rows 0 [[0; 0; 0; 0; 0];
             [0; 3; 0; 7; 0];
             [0; 0; 0; 0; 0];
             [0; 9; 9; 0; 0];
             [0; 0; 0; 0; 0]].

Example get_maxima_peak5x5 :
  get_maxima peak5x5 2 false = [(1, 1, 3); (3, 1, 7)].
Proof. reflexivity. Qed.

Example get_maxima_peak5x5_sorted :
  get_maxima peak5x5 2 true = [(3, 1, 7); (1, 1, 3)].
Proof. reflexivity. Qed.

Example get_maxima_peak5x5_threshold :
  get_maxima peak5x5 5 false = [(3, 1, 7)].
Proof. reflexivity. Qed.

(** *** Lists built by loops, and the stable sort *)

Lemma fold_left_append {T X : Type} (g : X -> list T) (l : list X) (init : list T) :
  fold_left (fun acc x => acc ++ g x) l init = init ++ flat_map g l.
Proof.
  revert init. induction l as [|x l IH]; intros init; cbn.
  - now rewrite app_nil_r.
  - now rewrite IH, app_assoc.
Qed.

Lemma fold_left_ext_in {T X : Type} (f g : T -> X -> T) (l : list X) (init : T) :
  (forall acc x, In x l -> f acc x = g acc x) ->
  fold_left f l init = fold_left g l init.
Proof.
  revert init. induction l as [|x l IH]; intros init Hfg; [reflexivity|].
  cbn. rewrite Hfg by (now left). apply IH.
  intros acc y Hy. apply Hfg. now right.
Qed.

Lemma StronglySorted_app {T : Type} (R : T -> T -> Prop) (l1 l2 : list T) :
  StronglySorted R l1 -> StronglySorted R l2 ->
  (forall a b, In a l1 -> In b l2 -> R a b) ->
  StronglySorted R (l1 ++ l2).
Proof.
  intros H1 H2 H12. induction H1 as [|a l1 H1 IH Ha]; [exact H2|].
  cbn. constructor.
  - apply IH. intros x y Hx Hy. apply H12; [now right | exact Hy].
  - apply Forall_app. split; [exact Ha|].
    apply Forall_forall. intros b Hb. apply H12; [now left | exact Hb].
Qed.

Lemma StronglySorted_range (lo hi : Z) : StronglySorted Z.lt (range lo hi).
Proof.
  unfold range. generalize (Z.to_nat (hi - lo)) as len. intros len.
  generalize 0%nat as start. induction len as [|len IH]; intros start; cbn.
  - constructor.
  - constructor; [apply IH|].
    apply Forall_forall. intros x Hx. apply in_map_iff in Hx.
    destruct Hx as (i & <- & Hi). apply in_seq in Hi. lia.
Qed.

Lemma StronglySorted_flat_map {T : Type} (R : T -> T -> Prop) (f : Z -> list T)
    (l : list Z) :
  StronglySorted Z.lt l ->
  (forall x, In x l -> StronglySorted R (f x)) ->
  (forall x y a b, In x l -> In y l -> x < y -> In a (f x) -> In b (f y) -> R a b) ->
  StronglySorted R (flat_map f l).
Proof.
  intros Hl Hf Hcross. induction Hl as [|x l Hl IH Hx]; cbn; [constructor|].
  apply StronglySorted_app.
  - apply Hf. now left.
  - apply IH.
    + intros y Hy. apply Hf. now right.
    + intros y z a b Hy Hz. apply Hcross; now right.
  - intros a b Ha Hb. apply in_flat_map in Hb. destruct Hb as (y & Hy & Hb).
    rewrite Forall_forall in Hx.
    apply (Hcross x y); [now left | now right | now apply Hx | exact Ha | exact Hb].
Qed.

Section StableSortFacts.
  Context {T : Type}.
  Variable key_lt : T -> T -> bool.

Lemma insert_desc_perm (x : T) (l : list T) :
  Permutation (insert_desc key_lt x l) (x :: l).
Proof.
  induction l as [|y l IH]; cbn; [reflexivity|].
  destruct (key_lt x y); [|reflexivity].
  rewrite IH. apply perm_swap.
Qed.

Lemma sort_desc_perm (l : list T) : Permutation (sort_desc key_lt l) l.
Proof.
  induction l as [|x l IH]; cbn; [reflexivity|].
  rewrite insert_desc_perm. now apply perm_skip.
Qed.

Lemma sort_desc_length (l : list T) : length (sort_desc key_lt l) = length l.
Proof. apply Permutation_length, sort_desc_perm. Qed.

Lemma sort_desc_in (l : list T) (x : T) : In x (sort_desc key_lt l) <-> In x l.
Proof.
  split; apply Permutation_in; [|symmetry]; apply sort_desc_perm.
Qed.

(** No element of the sorted list has a smaller key than a later one. *)
Definition desc : T -> T -> Prop := fun a b => key_lt a b = false.

Hypothesis key_lt_asym : forall a b, key_lt a b = true -> key_lt b a = false.
Hypothesis key_ge_trans :
  forall a b c, key_lt a b = false -> key_lt b c = false -> key_lt a c = false.

Lemma insert_desc_sorted (x : T) (l : list T) :
  StronglySorted desc l -> StronglySorted desc (insert_desc key_lt x l).
Proof.
  intros Hl. induction Hl as [|y l Hl IH Hy]; cbn.
  - constructor; constructor.
  - destruct (key_lt x y) eqn:Hxy.
    + constructor; [exact IH|].
      apply Forall_forall. intros z Hz.
      apply (Permutation_in _ (insert_desc_perm x l)) in Hz.
      destruct Hz as [<-|Hz].
      * now apply key_lt_asym.
      * rewrite Forall_forall in Hy. now apply Hy.
    + constructor; [now constructor|].
      constructor; [exact Hxy|].
      apply Forall_forall. intros z Hz. rewrite Forall_forall in Hy.
      apply (key_ge_trans x y z Hxy). now apply Hy.
Qed.

Lemma sort_desc_sorted (l : list T) : StronglySorted desc (sort_desc key_lt l).
Proof.
  induction l as [|x l IH]; cbn; [constructor|].
  now apply insert_desc_sorted.
Qed.
End StableSortFacts.

(** *** What [get_maxima] returns *)

Section MaximaFacts.
  Context {A : Type} `{Scalar A}.

(** Cell [(k, j)] is strictly greater than each of its eight neighbours. *)
Definition strict_local_max (im : ndarray A) (k j : Z) : Prop :=
  forall dk dj, -1 <= dk <= 1 -> -1 <= dj <= 1 -> (dk <> 0 \/ dj <> 0) ->
    slt (item im (k + dk) (j + dj)) (item im k j) = true.

(** Interior cells: not on the one-pixel border. *)
Definition interior_cell (im : ndarray A) (k j : Z) : Prop :=
  1 <= k < shape0 im - 1 /\ 1 <= j < shape1 im - 1.

Lemma above_neighbours_cells (im : ndarray A) (k j : Z) (p : A) :
  interior_cell im k j ->
  above_neighbours im k j p
  = (slt (item im (k - 1) (j - 1)) p && slt (item im (k - 1) j) p
     && slt (item im (k - 1) (j + 1)) p
     && slt (item im (k + 1) (j - 1)) p && slt (item im (k + 1) j) p
     && slt (item im (k + 1) (j + 1)) p
     && slt (item im k (j - 1)) p && slt (item im k (j + 1)) p).
Proof.
  intros [Hk Hj]. unfold above_neighbours, all_gt, elements, to_rows.
  cbn [view view_step2 shape0 shape1 item].
  rewrite !slice_lo_sl, !slice_len_sl by lia.
  replace (k - (k - 1)) with 1 by lia.
  replace (k + 2 - (k + 1)) with 1 by lia.
  replace (j + 2 - (j - 1)) with 3 by lia.
  change (range 0 1) with [0]. change (range 0 3) with [0; 1; 2].
  change (range 0 ((3 + 1) / 2)) with [0; 1].
  cbn [map concat app forallb].
  replace (k - 1 + 0) with (k - 1) by lia.
  replace (k + 1 + 0) with (k + 1) by lia.
  replace (j - 1 + 0) with (j - 1) by lia.
  replace (j - 1 + 1) with j by lia.
  replace (j - 1 + 2) with (j + 1) by lia.
  replace (j - 1 + 2 * 0) with (j - 1) by lia.
  replace (j - 1 + 2 * 1) with (j + 1) by lia.
  rewrite !andb_true_r, !andb_assoc. reflexivity.
Qed.

Lemma above_neighbours_spec (im : ndarray A) (k j : Z) :
  interior_cell im k j ->
  above_neighbours im k j (item im k j) = true <-> strict_local_max im k j.
Proof.
  intros Hint. rewrite above_neighbours_cells by assumption.
  repeat rewrite andb_true_iff. unfold strict_local_max. split.
  - intros [[[[[[[H1 H2] H3] H4] H5] H6] H7] H8] dk dj Hdk Hdj Hne.
    assert (Hdk' : dk = -1 \/ dk = 0 \/ dk = 1) by lia.
    assert (Hdj' : dj = -1 \/ dj = 0 \/ dj = 1) by lia.
    destruct Hdk' as [->|[->| ->]]; destruct Hdj' as [->|[->| ->]];
      try (exfalso; lia);
      rewrite ?Z.add_0_r;
      change (k + -1) with (k - 1); change (j + -1) with (j - 1); assumption.
  - intros Hmax.
    repeat split.
    + apply (Hmax (-1) (-1)); lia.
    + rewrite <- (Z.add_0_r j) at 1. apply (Hmax (-1) 0); lia.
    + apply (Hmax (-1) 1); lia.
    + apply (Hmax 1 (-1)); lia.
    + rewrite <- (Z.add_0_r j) at 1. apply (Hmax 1 0); lia.
    + apply (Hmax 1 1); lia.
    + rewrite <- (Z.add_0_r k) at 1. apply (Hmax 0 (-1)); lia.
    + rewrite <- (Z.add_0_r k) at 1. apply (Hmax 0 1); lia.
Qed.

(** The point, if any, that the scan appends at cell [(k, j)]. *)
Definition peak_at (im : ndarray A) (threshold : A) (k j : Z) : list (Z * Z * A) :=
  if slt (item im k j) threshold then []
  else if above_neighbours im k j (item im k j) then [(j, k, item im k j)]
       else [].

(** The scan, as the list of the points it meets in row-major order. *)
Lemma get_maxima_scan (im : ndarray A) (threshold : A) :
  get_maxima im threshold false
  = flat_map (fun k => flat_map (peak_at im threshold k) (range 1 (shape1 im - 1)))
             (range 1 (shape0 im - 1)).
Proof.
  unfold get_maxima.
  rewrite <- (app_nil_l (flat_map _ _)), <- fold_left_append.
  apply fold_left_ext_in. intros acc k _.
  rewrite <- fold_left_append.
  apply fold_left_ext_in. intros acc' j _. unfold peak_at.
  destruct (slt (item im k j) threshold); [now rewrite app_nil_r|].
  destruct (above_neighbours im k j (item im k j)); [reflexivity|].
  now rewrite app_nil_r.
Qed.

Lemma get_maxima_sorted_eq (im : ndarray A) (threshold : A) :
  get_maxima im threshold true
  = sort_desc (fun a b => slt (point_h a) (point_h b))
              (get_maxima im threshold false).
Proof. reflexivity. Qed.

(** Membership in the unsorted scan. *)
Lemma in_get_maxima_scan (im : ndarray A) (threshold : A) (j k : Z) (p : A) :
  In (j, k, p) (get_maxima im threshold false) <->
  interior_cell im k j /\ p = item im k j
  /\ slt p threshold = false /\ strict_local_max im k j.
Proof.
  rewrite get_maxima_scan, in_flat_map. split.
  - intros (k' & Hk' & Hin). apply in_flat_map in Hin.
    destruct Hin as (j' & Hj' & Hin).
    apply in_range in Hk'. apply in_range in Hj'.
    unfold peak_at in Hin.
    destruct (slt (item im k' j') threshold) eqn:Hthr; [contradiction|].
    destruct (above_neighbours im k' j' (item im k' j')) eqn:Habove; [|contradiction].
    destruct Hin as [Heq|[]]. inversion Heq; subst.
    assert (Hint : interior_cell im k j) by (split; lia).
    repeat split; try lia; try assumption.
    now apply above_neighbours_spec.
  - intros ([Hk Hj] & -> & Hthr & Hmax).
    exists k. split; [apply in_range; lia|].
    apply in_flat_map. exists j. split; [apply in_range; lia|].
    unfold peak_at. rewrite Hthr.
    replace (above_neighbours im k j (item im k j)) with true.
    + now left.
    + symmetry. apply above_neighbours_spec; [split; lia | exact Hmax].
Qed.

(** Row-major scan order on points: by row, then by column. *)
Definition scan_before (a b : Z * Z * A) : Prop :=
  point_v a < point_v b \/ (point_v a = point_v b /\ point_u a < point_u b).

Lemma get_maxima_scan_order (im : ndarray A) (threshold : A) :
  StronglySorted scan_before (get_maxima im threshold false).
Proof.
  rewrite get_maxima_scan.
  apply StronglySorted_flat_map; [apply StronglySorted_range | |].
  - intros k _. apply StronglySorted_flat_map; [apply StronglySorted_range | |].
    + intros j _. unfold peak_at.
      destruct (slt _ _); [constructor|].
      destruct (above_neighbours _ _ _ _); repeat constructor.
    + intros j1 j2 a b _ _ Hlt Ha Hb. unfold peak_at in Ha, Hb.
      destruct (slt (item im k j1) threshold); [contradiction|].
      destruct (above_neighbours im k j1 _); [|contradiction].
      destruct (slt (item im k j2) threshold); [contradiction|].
      destruct (above_neighbours im k j2 _); [|contradiction].
      destruct Ha as [<-|[]]. destruct Hb as [<-|[]].
      right. cbn. lia.
  - intros k1 k2 a b _ _ Hlt Ha Hb.
    apply in_flat_map in Ha. destruct Ha as (j1 & _ & Ha).
    apply in_flat_map in Hb. destruct Hb as (j2 & _ & Hb).
    unfold peak_at in Ha, Hb.
    destruct (slt (item im k1 j1) threshold); [contradiction|].
    destruct (above_neighbours im k1 j1 _); [|contradiction].
    destruct (slt (item im k2 j2) threshold); [contradiction|].
    destruct (above_neighbours im k2 j2 _); [|contradiction].
    destruct Ha as [<-|[]]. destruct Hb as [<-|[]].
    left. cbn. lia.
Qed.
End MaximaFacts.

Lemma StronglySorted_NoDup {T : Type} (R : T -> T -> Prop) (l : list T) :
  (forall x, ~ R x x) -> StronglySorted R l -> NoDup l.
Proof.
  intros Hirr Hl. induction Hl as [|x l Hl IH Hx]; constructor; [|exact IH].
  intros Hin. rewrite Forall_forall in Hx. now apply (Hirr x), Hx.
Qed.

Section MaximaTheorems.
  Context {A : Type} `{Scalar A}.

  (** The order on scores: [slt] is a strict order whose complement is
      transitive, as [<] is on numbers. *)
  Hypothesis slt_asym : forall a b : A, slt a b = true -> slt b a = false.
  Hypothesis sge_trans :
    forall a b c : A, slt a b = false -> slt b c = false -> slt a c = false.

Lemma slt_irrefl (x : A) : slt x x = false.
Proof.
  destruct (slt x x) eqn:Hx; [|reflexivity].
  pose proof (slt_asym x x Hx) as Hx'. congruence.
Qed.

(** Scores in descending order: no point has a smaller score than a later
    one. *)
Definition score_desc (a b : Z * Z * A) : Prop :=
  slt (point_h a) (point_h b) = false.

(** C6.  [get_maxima] returns exactly the interior cells whose score is not
    below the threshold and is strictly greater than each of the eight
    neighbours, each once, as (column, row, score); a cell with a neighbour
    of equal score is never returned; without [sort] the points come in
    row-major scan order, with [sort] by descending score. *)
Theorem get_maxima_spec (im : ndarray A) (threshold : A) (sort : bool) :
  (forall j k p,
      In (j, k, p) (get_maxima im threshold sort) <->
      interior_cell im k j /\ p = item im k j
      /\ slt p threshold = false /\ strict_local_max im k j)
  /\ NoDup (get_maxima im threshold sort)
  /\ (forall j k p dk dj,
         In (j, k, p) (get_maxima im threshold sort) ->
         -1 <= dk <= 1 -> -1 <= dj <= 1 -> (dk <> 0 \/ dj <> 0) ->
         item im (k + dk) (j + dj) <> p)
  /\ (sort = false -> StronglySorted scan_before (get_maxima im threshold sort))
  /\ (sort = true ->
      StronglySorted score_desc (get_maxima im threshold sort)
      /\ Permutation (get_maxima im threshold sort) (get_maxima im threshold false)).
Proof.
  assert (Hperm : Permutation (get_maxima im threshold sort)
                              (get_maxima im threshold false)).
  { destruct sort; [|reflexivity].
    rewrite get_maxima_sorted_eq. apply sort_desc_perm. }
  assert (Hin : forall j k p,
             In (j, k, p) (get_maxima im threshold sort) <->
             interior_cell im k j /\ p = item im k j
             /\ slt p threshold = false /\ strict_local_max im k j).
  { intros j k p. rewrite <- in_get_maxima_scan.
    split; apply Permutation_in; [exact Hperm | symmetry; exact Hperm]. }
  split; [exact Hin|]. split; [|split; [|split]].
  - apply (Permutation_NoDup (Permutation_sym Hperm)).
    apply (StronglySorted_NoDup scan_before); [|apply get_maxima_scan_order].
    intros x [Hlt|[_ Hlt]]; lia.
  - intros j k p dk dj Hpt Hdk Hdj Hne Heq.
    apply Hin in Hpt. destruct Hpt as (_ & -> & _ & Hmax).
    specialize (Hmax dk dj Hdk Hdj Hne). rewrite Heq, slt_irrefl in Hmax.
    discriminate Hmax.
  - intros ->. apply get_maxima_scan_order.
  - intros ->. split; [|exact Hperm].
    rewrite get_maxima_sorted_eq.
    apply (sort_desc_sorted (fun a b => slt (point_h a) (point_h b))).
    + intros a b. apply slt_asym.
    + intros a b c. apply sge_trans.
Qed.

(** C10.  No two points returned by [get_maxima] are 8-neighbours: two
    distinct returned points differ by at least 2 in their row or by at
    least 2 in their column. *)
Theorem get_maxima_separated (im : ndarray A) (threshold : A) (sort : bool)
    (a b : Z * Z * A) :
  In a (get_maxima im threshold sort) -> In b (get_maxima im threshold sort) ->
  a <> b ->
  2 <= Z.abs (point_v a - point_v b) \/ 2 <= Z.abs (point_u a - point_u b).
Proof.
  assert (Hscan : forall pt, In pt (get_maxima im threshold sort) ->
                             In pt (get_maxima im threshold false)).
  { intros pt. destruct sort; [|exact (fun Hpt => Hpt)].
    rewrite get_maxima_sorted_eq. apply sort_desc_in. }
  destruct a as [[j k] p]. destruct b as [[j' k'] p'].
  intros Ha Hb Hne. apply Hscan, in_get_maxima_scan in Ha.
  apply Hscan, in_get_maxima_scan in Hb.
  destruct Ha as (_ & -> & _ & Hmax). destruct Hb as (_ & -> & _ & Hmax').
  cbn [point_v point_u fst snd].
  destruct (Z_lt_le_dec (Z.abs (k - k')) 2) as [Hk|Hk]; [|now left].
  destruct (Z_lt_le_dec (Z.abs (j - j')) 2) as [Hj|Hj]; [|now right].
  exfalso.
  destruct (Z.eq_dec k k') as [->|Hkk].
  - destruct (Z.eq_dec j j') as [->|Hjj]; [now apply Hne|].
    specialize (Hmax 0 (j' - j) ltac:(lia) ltac:(lia) ltac:(lia)).
    specialize (Hmax' 0 (j - j') ltac:(lia) ltac:(lia) ltac:(lia)).
    replace (k' + 0) with k' in * by lia.
    replace (j + (j' - j)) with j' in Hmax by lia.
    replace (j' + (j - j')) with j in Hmax' by lia.
    apply slt_asym in Hmax. congruence.
  - specialize (Hmax (k' - k) (j' - j) ltac:(lia) ltac:(lia) ltac:(lia)).
    specialize (Hmax' (k - k') (j - j') ltac:(lia) ltac:(lia) ltac:(lia)).
    replace (k + (k' - k)) with k' in Hmax by lia.
    replace (j + (j' - j)) with j' in Hmax by lia.
    replace (k' + (k - k')) with k in Hmax' by lia.
    replace (j' + (j - j')) with j in Hmax' by lia.
    apply slt_asym in Hmax. congruence.
Qed.
End MaximaTheorems.

Lemma Z_slt_asym (a b : Z) : slt a b = true -> slt b a = false.
Proof. cbn. rewrite Z.ltb_lt, Z.ltb_ge. lia. Qed.

Lemma Z_sge_trans (a b c : Z) :
  slt a b = false -> slt b c = false -> slt a c = false.
Proof. cbn. rewrite !Z.ltb_ge. lia. Qed.

(** C6, witness: the 5x5 map with peaks 3 and 7 and a plateau of two 9s. *)
Lemma get_maxima_spec_witness :
  (forall j k p,
      In (j, k, p) (get_maxima peak5x5 2 true) <->
      interior_cell peak5x5 k j /\ p = item peak5x5 k j
      /\ slt p 2 = false /\ strict_local_max peak5x5 k j)
  /\ NoDup (get_maxima peak5x5 2 true)
  /\ (forall j k p dk dj,
         In (j, k, p) (get_maxima peak5x5 2 true) ->
         -1 <= dk <= 1 -> -1 <= dj <= 1 -> (dk <> 0 \/ dj <> 0) ->
         item peak5x5 (k + dk) (j + dj) <> p)
  /\ (true = false -> StronglySorted scan_before (get_maxima peak5x5 2 true))
  /\ (true = true ->
      StronglySorted score_desc (get_maxima peak5x5 2 true)
      /\ Permutation (get_maxima peak5x5 2 true) (get_maxima peak5x5 2 false)).
Proof.
  exact (get_maxima_spec Z_slt_asym Z_sge_trans peak5x5 2 true).
Defined.

(** C10, witness: the two peaks of the 5x5 map are two columns apart. *)
Lemma get_maxima_separated_witness :
  2 <= Z.abs (point_v (1, 1, 3) - point_v (3, 1, 7))
  \/ 2 <= Z.abs (point_u (1, 1, 3) - point_u (3, 1, 7)).
Proof.
  apply (get_maxima_separated Z_slt_asym peak5x5 2 false).
  - rewrite get_maxima_peak5x5. left. reflexivity.
  - rewrite get_maxima_peak5x5. right. left. reflexivity.
  - discriminate.
Defined.

(* ================================================================== *)
(** ** ANMS selector *)

(** A suppression radius.  The code holds the Euclidean distance
    [np.sqrt(q)] for an integer [q], or the integer [rmax]; both are
    non-negative reals and are held here by their square: [Sqrt q] is the
    real number whose square is [q]. *)
Record radius : Type := Sqrt { radicand : Z }.

(** [a < b] on radii: square roots compare as their radicands. *)
Definition radius_lt (a b : radius) : bool := radicand a <? radicand b.

(** The real number that a radius stands for. *)
Definition radius_val (a : radius) : R := sqrt (IZR (radicand a)).

(** [np.sqrt((u - uu) ** 2 + (v - vv) ** 2)]. *)
Definition dist (u v uu vv : Z) : radius :=
  Sqrt ((u - uu) ^ 2 + (v - vv) ^ 2).

(** An integer used as a radius. *)
Definition radius_of_int (x : Z) : radius := Sqrt (x * x).

(** A point ranked by its suppression radius: [(u, v, rmin)]. *)
Definition ranked_point : Type := Z * Z * radius.

(** What [_maxima_to_uv] returns: two coordinate arrays, or one array of
    coordinate pairs. *)
Inductive uv_result : Type :=
| Unzipped (u v : list Z)
| Zipped (uv : list (Z * Z)).

(** utils.py:212-217. *)
Definition _maxima_to_uv (maxima : list ranked_point) (zipped : bool) : uv_result :=
  if negb zipped then
    let u := map (fun mi => fst (fst mi)) maxima in
    let v := map (fun mi => snd (fst mi)) maxima in
    Unzipped u v
  else Zipped (map (fun mi => (fst (fst mi), snd (fst mi))) maxima).

(** [enumerate(l)]. *)
Definition enumerate {T : Type} (l : list T) : list (Z * T) :=
  combine (range 0 (Z.of_nat (length l))) l.

(** [l.sort(key=lambda v: v[2], reverse=True)] on ranked points. *)
Definition sort_by_radius (l : list ranked_point) : list ranked_point :=
  sort_desc (fun a b => radius_lt (snd a) (snd b)) l.

Section ANMS.
  Context {A : Type} `{Scalar A}.

  (** numpy's [mean] and [std] of a response map. *)
  Variables np_mean np_std : ndarray A -> A.

  (** scipy's spatial index: building it from the candidate coordinates,
      and [query(x, k)], the [k] nearest points to [x] as (distance, index)
      pairs in ascending distance. *)
  Variable tree : Type.
  Variable KDTree : list (Z * Z) -> result tree.
  Variable query : tree -> Z * Z -> Z -> list (radius * Z).

(** [H.min()]. *)
Definition np_min (a : ndarray A) : result A :=
  match elements a with
  | [] => Raise EmptyReduction
  | x :: l => Ok (fold_left (fun m y => if slt y m then y else m) l x)
  end.

(** The threshold policy of utils.py:151-154 and 172-175. *)
Definition threshold_of (H : ndarray A) (use_thresh : bool) : result A :=
  if use_thresh then Ok (sadd (np_mean H) (np_std H))
  else np_min H.

(** The inner loop of utils.py:159-163: the suppression radius of the
    candidate [(u, v, h)] at position [i]. *)
Definition suppression_radius (maxima : list (Z * Z * A)) (c : A) (rmax : radius)
    (i u v : Z) (h : A) : radius :=
  fold_left (fun rmin '(k, (uu, vv, hh)) =>
               let d := dist u v uu vv in
               if negb (i =? k) && slt h (smul c hh) && radius_lt d rmin
               then d else rmin)
            (enumerate maxima) rmax.

(** utils.py:157-164: every candidate with its suppression radius. *)
Definition anms_entries (maxima : list (Z * Z * A)) (c : A) (rmax : radius)
  : list ranked_point :=
  fold_left (fun anms_maxima '(i, (u, v, h)) =>
               let rmin := suppression_radius maxima c rmax i u v h in
               anms_maxima ++ [(u, v, rmin)])
            (enumerate maxima) [].

(** utils.py:150-166. *)
Definition anms (H : ndarray A) (n : Z) (c : A) (use_thresh zipped : bool)
  : result uv_result :=
  thresh <- threshold_of H use_thresh ;;
  let maxima := get_maxima H thresh false in
  let rmax := radius_of_int (Z.max (shape0 H) (shape1 H) ^ 2) in
  let anms_maxima := anms_entries maxima c rmax in
  let anms_maxima := sort_by_radius anms_maxima in
  Ok (_maxima_to_uv (list_prefix anms_maxima n) zipped).

(** [mh[ind]] for an index returned by the spatial index. *)
Definition np_index (mh : list A) (ind : Z) : result A :=
  let nm := Z.of_nat (length mh) in
  if (- nm <=? ind) && (ind <? nm)
  then Ok (nth (Z.to_nat (if ind <? 0 then ind + nm else ind)) mh szero)
  else Raise IndexOutOfBounds.

(** The loop of utils.py:198-207 for one candidate: the first [k] whose
    farthest queried neighbour is significantly stronger gives the entry
    to append; the loop ends there ([break]). *)
Fixpoint progressive_search (t : tree) (mh : list A) (c : A) (edge : Z)
    (u v : Z) (h : A) (ks : list Z) : result (option ranked_point) :=
  match ks with
  | [] => Ok None
  | k :: ks' =>
      let dist_ind := query t (u, v) k in
      let '(dist_last, ind_last) := last dist_ind (Sqrt 0, 0) in
      hneighbor <- np_index mh ind_last ;;
      if slt h (smul c hneighbor)
      then Ok (Some (u + edge, v + edge, dist_last))
      else progressive_search t mh c edge u v h ks'
  end.

(** utils.py:189-207: the entries recorded for all candidates. *)
Definition anms_kdtree_entries (t : tree) (maxima : list (Z * Z * A)) (c : A)
    (edge : Z) : result (list ranked_point) :=
  let muv := map (fun mi => (fst (fst mi), snd (fst mi))) maxima in
  let mh := map (fun mi => snd mi) maxima in
  let nm := Z.of_nat (length maxima) in
  for_each (range 0 nm)
    (fun i anms_maxima =>
       let '(u, v) := nth (Z.to_nat i) muv (0, 0) in
       h <- np_index mh i ;;
       found <- progressive_search t mh c edge u v h (range 2 nm) ;;
       match found with
       | Some entry => Ok (anms_maxima ++ [entry])
       | None => Ok anms_maxima
       end)
    [].

(** utils.py:169-209. *)
Definition anms_kdtree (H : ndarray A) (n : Z) (c : A) (edge : Z)
    (use_thresh zipped : bool) : result uv_result :=
  let H := view H (sl edge (- edge)) (sl edge (- edge)) in
  thresh <- threshold_of H use_thresh ;;
  let maxima := get_maxima H thresh false in
  let muv := map (fun mi => (fst (fst mi), snd (fst mi))) maxima in
  t <- KDTree muv ;;
  anms_maxima <- anms_kdtree_entries t maxima c edge ;;
  let anms_maxima := sort_by_radius anms_maxima in
  Ok (_maxima_to_uv (list_prefix anms_maxima n) zipped).
End ANMS.

(* ------------------------------------------------------------------ *)
(** *** A reference spatial index and concrete runs *)

#[export] Instance Scalar_Q : Scalar Q := {
  szero := 0%Q;
  sone := 1%Q;
  sadd := Qplus;
  smul := Qmult;
  slt := fun x y => negb (Qle_bool y x);
}.

(** A reference index: the points themselves; a query sorts all points by
    distance to [x], nearest first and ties in index order, and keeps the
    first [k].  It refuses an empty point set, as scipy does. *)
Definition ref_tree : Type := list (Z * Z).

Definition ref_KDTree (muv : list (Z * Z)) : result ref_tree :=
  match muv with
  | [] => Raise IndexBuildError
  | _ => Ok muv
  end.

Definition ref_query (t : ref_tree) (x : Z * Z) (k : Z) : list (radius * Z) :=
  let all := map (fun '(i, (uu, vv)) => (dist (fst x) (snd x) uu vv, i))
                 (enumerate t) in
  firstn (Z.to_nat k)
         (sort_desc (fun a b => radius_lt (fst b) (fst a)) all).

(** A 7x9 response map with four peaks. *)
Definition peaks7x9 : ndarray Q :=
  of_rows 0%Q
    [[0; 0;  0; 0; 0; 0; 0; 0; 0];
     [0; 10; 0; 0; 0; 0; 0; 5; 0];
     [0; 0;  0; 0; 0; 0; 0; 0; 0];
     [0; 0;  0; 0; 8; 0; 0; 0; 0];
     [0; 0;  0; 0; 0; 0; 0; 0; 0];
     [0; 4;  0; 0; 0; 0; 0; 0; 0];
     [0; 0;  0; 0; 0; 0; 0; 0; 0]]%Q.

Definition qstat : ndarray Q -> Q := fun _ => 0%Q.

Example get_maxima_peaks7x9 :
  get_maxima peaks7x9 1%Q false
  = [(1, 1, 10%Q); (7, 1, 5%Q); (4, 3, 8%Q); (1, 5, 4%Q)].
Proof. reflexivity. Qed.

Example anms_peaks7x9 :
  anms qstat qstat peaks7x9 100 (9 # 10) false true
  = Ok (Zipped [(1, 1); (7, 1); (4, 3); (1, 5)]).
Proof. vm_compute. reflexivity. Qed.

Example anms_entries_peaks7x9 :
  anms_entries (get_maxima peaks7x9 1%Q false) (9 # 10) (radius_of_int (9 ^ 2))
  = [(1, 1, Sqrt 6561); (7, 1, Sqrt 13); (4, 3, Sqrt 13); (1, 5, Sqrt 13)].
Proof. vm_compute. reflexivity. Qed.

Example anms_kdtree_entries_peaks7x9 :
  anms_kdtree_entries ref_tree ref_query
    [(1, 1); (7, 1); (4, 3); (1, 5)] (get_maxima peaks7x9 1%Q false) (9 # 10) 0
  = Ok [(7, 1, Sqrt 13); (4, 3, Sqrt 13); (1, 5, Sqrt 13)].
Proof. vm_compute. reflexivity. Qed.

(* ================================================================== *)
(** ** Facts about the ANMS selector *)

(** Radii compare as the real numbers they stand for. *)
Lemma radius_lt_real (a b : radius) :
  0 <= radicand a -> 0 <= radicand b ->
  (radius_lt a b = true <-> (radius_val a < radius_val b)%R).
Proof.
  intros Ha Hb. unfold radius_lt, radius_val. rewrite Z.ltb_lt. split.
  - intros Hlt. apply sqrt_lt_1_alt. split; [now apply IZR_le | now apply IZR_lt].
  - intros Hlt. apply lt_IZR. apply sqrt_lt_0_alt. exact Hlt.
Qed.

Lemma radius_le_real (a b : radius) :
  radicand a <= radicand b -> (radius_val a <= radius_val b)%R.
Proof.
  intros Hab. unfold radius_val. apply sqrt_le_1_alt. now apply IZR_le.
Qed.

(** An integer sentinel stands for itself. *)
Lemma radius_val_of_int (x : Z) : 0 <= x -> radius_val (radius_of_int x) = IZR x.
Proof.
  intros Hx. unfold radius_val, radius_of_int. cbn [radicand].
  rewrite mult_IZR. apply sqrt_square. now apply IZR_le.
Qed.

(** [enumerate] pairs each element with its position. *)
Lemma combine_range_nth {T : Type} (l : list T) (start : nat) (i : Z) (x : T) :
  In (i, x) (combine (map (fun k => 0 + Z.of_nat k) (seq start (length l))) l) <->
  Z.of_nat start <= i /\ nth_error l (Z.to_nat i - start) = Some x.
Proof.
  revert start. induction l as [|y l IH]; intros start; cbn [length seq map combine].
  - split; [intros [] | intros [_ Hnth]].
    destruct (Z.to_nat i - start)%nat; discriminate Hnth.
  - cbn [In]. rewrite IH. split.
    + intros [Heq|[Hle Hnth]].
      * inversion Heq; subst. split; [lia|].
        match goal with
        | |- nth_error _ ?k = _ => replace k with 0%nat by lia
        end.
        reflexivity.
      * split; [lia|].
        replace (Z.to_nat i - start)%nat with (S (Z.to_nat i - S start)) by lia.
        exact Hnth.
    + intros [Hle Hnth].
      destruct (Z.eq_dec i (Z.of_nat start)) as [->|Hne].
      * left. replace (Z.to_nat (Z.of_nat start) - start)%nat with 0%nat in Hnth by lia.
        cbn in Hnth. inversion Hnth. reflexivity.
      * right. split; [lia|].
        replace (Z.to_nat i - start)%nat with (S (Z.to_nat i - S start)) in Hnth by lia.
        exact Hnth.
Qed.

Lemma in_enumerate {T : Type} (l : list T) (i : Z) (x : T) :
  In (i, x) (enumerate l) <-> 0 <= i /\ nth_error l (Z.to_nat i) = Some x.
Proof.
  unfold enumerate, range. rewrite Z.sub_0_r, Nat2Z.id.
  rewrite combine_range_nth. rewrite Nat.sub_0_r. reflexivity.
Qed.

Lemma in_enumerate_bounds {T : Type} (l : list T) (i : Z) (x : T) :
  In (i, x) (enumerate l) -> 0 <= i < Z.of_nat (length l) /\ In x l.
Proof.
  intros Hin. apply in_enumerate in Hin. destruct Hin as [Hi Hnth].
  split; [|now apply nth_error_In in Hnth].
  assert (Hlt : (Z.to_nat i < length l)%nat).
  { apply nth_error_Some. congruence. }
  lia.
Qed.

Lemma map_fst_combine {T U : Type} (l : list T) (l' : list U) :
  length l = length l' -> map fst (combine l l') = l.
Proof.
  revert l'. induction l as [|x l IH]; intros [|y l'] Hlen; cbn in *;
    try reflexivity; try discriminate.
  f_equal. apply IH. now inversion Hlen.
Qed.

Lemma map_snd_combine {T U : Type} (l : list T) (l' : list U) :
  length l = length l' -> map snd (combine l l') = l'.
Proof.
  revert l'. induction l as [|x l IH]; intros [|y l'] Hlen; cbn in *;
    try reflexivity; try discriminate.
  f_equal. apply IH. now inversion Hlen.
Qed.

Lemma enumerate_snd {T : Type} (l : list T) : map snd (enumerate l) = l.
Proof.
  unfold enumerate. apply map_snd_combine.
  rewrite length_range. lia.
Qed.

Lemma enumerate_fst {T : Type} (l : list T) :
  map fst (enumerate l) = range 0 (Z.of_nat (length l)).
Proof.
  unfold enumerate. apply map_fst_combine.
  rewrite length_range. lia.
Qed.

(** A running minimum over the elements that pass a test. *)
Lemma fold_min_radius {T : Type} (P : T -> bool) (f : T -> radius) (l : list T)
    (r0 : radius) :
  let r := fold_left (fun rmin x => if P x && radius_lt (f x) rmin then f x else rmin)
                     l r0 in
  (r = r0 \/ exists x, In x l /\ P x = true /\ r = f x)
  /\ radicand r <= radicand r0
  /\ forall x, In x l -> P x = true -> radicand r <= radicand (f x).
Proof.
  revert r0. induction l as [|y l IH]; intros r0; cbn zeta.
  - cbn. split; [now left|]. split; [lia|]. intros x [].
  - cbn [fold_left].
    specialize (IH (if P y && radius_lt (f y) r0 then f y else r0)).
    cbn zeta in IH. destruct IH as (Hwhich & Hle & Hmin).
    set (r := fold_left _ l _) in *.
    destruct (P y) eqn:HP; cbn [andb] in *.
    + unfold radius_lt in *.
      destruct (Z.ltb_spec (radicand (f y)) (radicand r0)) as [Hlt|Hge].
      * split; [|split; [lia|]].
        -- right. destruct Hwhich as [->|(x & Hx & HPx & ->)].
           ++ exists y. repeat split; [now left | assumption].
           ++ exists x. repeat split; [now right | assumption].
        -- intros x [<-|Hx] HPx; [lia | now apply Hmin].
      * split; [|split; [lia|]].
        -- destruct Hwhich as [->|(x & Hx & HPx & ->)]; [now left|].
           right. exists x. repeat split; [now right | assumption].
        -- intros x [<-|Hx] HPx; [lia | now apply Hmin].
    + split; [|split; [lia|]].
      * destruct Hwhich as [->|(x & Hx & HPx & ->)]; [now left|].
        right. exists x. repeat split; [now right | assumption].
      * intros x [<-|Hx] HPx; [congruence | now apply Hmin].
Qed.

Lemma list_prefix_firstn {T : Type} (l : list T) (n : Z) :
  0 <= n -> list_prefix l n = firstn (Z.to_nat n) l.
Proof.
  intros Hn. unfold list_prefix, slice_hi, sl_to, norm_bound. cbn [sl_stop].
  destruct (Z.ltb_spec n 0); [lia|].
  destruct (Z_le_gt_dec n (Z.of_nat (length l))) as [Hle|Hgt].
  - now rewrite Z.min_l by lia.
  - rewrite Z.min_r by lia. rewrite Nat2Z.id.
    rewrite firstn_all. symmetry. apply firstn_all2. lia.
Qed.

Lemma in_list_prefix {T : Type} (l : list T) (n : Z) (x : T) :
  In x (list_prefix l n) -> In x l.
Proof.
  unfold list_prefix. intros Hin.
  rewrite <- (firstn_skipn (Z.to_nat (slice_hi (sl_to n) (Z.of_nat (length l)))) l).
  apply in_or_app. now left.
Qed.

Lemma flat_map_singleton {T U : Type} (f : T -> U) (l : list T) :
  flat_map (fun x => [f x]) l = map f l.
Proof. induction l as [|x l IH]; cbn; [reflexivity | now rewrite IH]. Qed.

Section BruteForceFacts.
  Context {A : Type} `{Scalar A}.
  Variables np_mean np_std : ndarray A -> A.

(** Candidate [k], at [(uu, vv)] with score [hh], is another candidate that
    is significantly stronger than candidate [i] with score [h]. *)
Definition stronger_neighbour (maxima : list (Z * Z * A)) (c : A) (i : Z) (h : A)
    (k uu vv : Z) (hh : A) : Prop :=
  In (k, (uu, vv, hh)) (enumerate maxima) /\ k <> i /\ slt h (smul c hh) = true.

Lemma anms_entries_map (maxima : list (Z * Z * A)) (c : A) (rmax : radius) :
  anms_entries maxima c rmax
  = map (fun '(i, (u, v, h)) => (u, v, suppression_radius maxima c rmax i u v h))
        (enumerate maxima).
Proof.
  unfold anms_entries.
  rewrite <- flat_map_singleton, <- (app_nil_l (flat_map _ _)), <- fold_left_append.
  apply fold_left_ext_in. intros acc [i [[u v] h]] _. reflexivity.
Qed.

(** The inner loop computes the least distance to a significantly
    stronger other candidate, as long as every such distance is below
    [rmax]; first on radicands, then on the real numbers they stand for. *)
Lemma suppression_radius_least (maxima : list (Z * Z * A)) (c : A) (rmax : radius)
    (i u v : Z) (h : A) :
  (forall k uu vv hh, In (k, (uu, vv, hh)) (enumerate maxima) ->
                      radicand (dist u v uu vv) < radicand rmax) ->
  let r := suppression_radius maxima c rmax i u v h in
  ((forall k uu vv hh, ~ stronger_neighbour maxima c i h k uu vv hh) -> r = rmax)
  /\ (forall k uu vv hh, stronger_neighbour maxima c i h k uu vv hh ->
        (exists k' uu' vv' hh',
            stronger_neighbour maxima c i h k' uu' vv' hh'
            /\ r = dist u v uu' vv')
        /\ radicand r <= radicand (dist u v uu vv)).
Proof.
  intros Hbound.
  pose (P := fun x : Z * (Z * Z * A) =>
               negb (i =? fst x) && slt h (smul c (snd (snd x)))).
  pose (f := fun x : Z * (Z * Z * A) =>
               dist u v (fst (fst (snd x))) (snd (fst (snd x)))).
  assert (Hfold : suppression_radius maxima c rmax i u v h
                  = fold_left (fun rmin x => if P x && radius_lt (f x) rmin
                                             then f x else rmin)
                              (enumerate maxima) rmax).
  { unfold suppression_radius. apply fold_left_ext_in.
    intros acc [k [[uu vv] hh]] _. reflexivity. }
  cbn zeta. rewrite Hfold.
  destruct (fold_min_radius P f (enumerate maxima) rmax) as (Hwhich & _ & Hmin).
  set (r := fold_left _ _ _) in *.
  assert (HP : forall k uu vv hh,
             stronger_neighbour maxima c i h k uu vv hh <->
             In (k, (uu, vv, hh)) (enumerate maxima) /\ P (k, (uu, vv, hh)) = true).
  { intros k uu vv hh. unfold stronger_neighbour, P. cbn [fst snd].
    rewrite andb_true_iff, negb_true_iff, Z.eqb_neq.
    split; intros (H1 & H2 & H3); repeat split; try assumption; congruence. }
  split.
  - intros Hnone. destruct Hwhich as [Hr|([k [[uu vv] hh]] & Hx & HPx & _)];
      [exact Hr|].
    exfalso. apply (Hnone k uu vv hh). apply HP. now split.
  - intros k uu vv hh Hstr. apply HP in Hstr. destruct Hstr as [Hin HPk].
    pose proof (Hmin _ Hin HPk) as Hle. unfold f in Hle. cbn [fst snd] in Hle.
    split; [|exact Hle].
    destruct Hwhich as [Hr|([k' [[uu' vv'] hh']] & Hx & HPx & Hr)].
    + exfalso. specialize (Hbound k uu vv hh Hin). rewrite Hr in Hle. lia.
    + exists k', uu', vv', hh'. split; [apply HP; now split | exact Hr].
Qed.
End BruteForceFacts.

Lemma StronglySorted_weaken {T : Type} (R R' : T -> T -> Prop) (l : list T) :
  (forall a b, R a b -> R' a b) -> StronglySorted R l -> StronglySorted R' l.
Proof.
  intros HR Hl. induction Hl as [|x l Hl IH Hx]; constructor; [exact IH|].
  eapply Forall_impl; [|exact Hx]. intros b. apply HR.
Qed.

Lemma sort_by_radius_perm (l : list ranked_point) : Permutation (sort_by_radius l) l.
Proof. apply sort_desc_perm. Qed.

(** Ranked points in descending order of the radius they stand for. *)
Definition radius_desc (a b : ranked_point) : Prop :=
  (radius_val (snd b) <= radius_val (snd a))%R.

Lemma sort_by_radius_sorted (l : list ranked_point) :
  StronglySorted radius_desc (sort_by_radius l).
Proof.
  apply (StronglySorted_weaken
           (desc (fun a b : ranked_point => radius_lt (snd a) (snd b)))).
  - intros a b Hab. unfold desc, radius_lt in Hab. apply Z.ltb_ge in Hab.
    now apply radius_le_real.
  - apply sort_desc_sorted.
    + intros a b. unfold radius_lt. rewrite Z.ltb_lt, Z.ltb_ge. lia.
    + intros a b c. unfold radius_lt. rewrite !Z.ltb_ge. lia.
Qed.

Lemma elements_nonempty {A : Type} (a : ndarray A) :
  0 < shape0 a -> 0 < shape1 a -> elements a <> [].
Proof.
  intros H0 H1. unfold elements, to_rows.
  rewrite (range_cons 0 (shape0 a)) by lia.
  rewrite (range_cons 0 (shape1 a)) by lia.
  cbn. discriminate.
Qed.

(** The points that a result holds. *)
Definition result_points (r : uv_result) : list (Z * Z) :=
  match r with
  | Unzipped u v => combine u v
  | Zipped uv => uv
  end.

Lemma result_points_maxima_to_uv (l : list ranked_point) (zipped : bool) :
  result_points (_maxima_to_uv l zipped) = map fst l.
Proof.
  unfold _maxima_to_uv. destruct zipped; cbn [negb result_points].
  - apply map_ext. intros [[u v] r]. reflexivity.
  - induction l as [|[[u v] r] l IH]; cbn; [reflexivity | now rewrite IH].
Qed.

Section CandidateDistances.
  Context {A : Type} `{Scalar A}.

(** Any two candidates of a map are closer than the sentinel [rmax]. *)
Lemma candidates_within_rmax (H0 : ndarray A) (thresh : A)
    (u v uu vv : Z) (h hh : A) :
  In (u, v, h) (get_maxima H0 thresh false) ->
  In (uu, vv, hh) (get_maxima H0 thresh false) ->
  radicand (dist u v uu vv)
  < radicand (radius_of_int (Z.max (shape0 H0) (shape1 H0) ^ 2)).
Proof.
  intros Ha Hb. apply in_get_maxima_scan in Ha. apply in_get_maxima_scan in Hb.
  destruct Ha as ([Hv Hu] & _). destruct Hb as ([Hvv Huu] & _).
  unfold dist, radius_of_int. cbn [radicand]. rewrite !Z.pow_2_r.
  set (mx := Z.max (shape0 H0) (shape1 H0)).
  assert (Hmx : 3 <= mx) by lia.
  assert (Ha : Z.abs (u - uu) <= mx - 3) by lia.
  assert (Hb : Z.abs (v - vv) <= mx - 3) by lia.
  assert (Ha2 : (u - uu) * (u - uu) <= (mx - 3) * (mx - 3)).
  { rewrite <- Z.abs_square. apply Z.mul_le_mono_nonneg; lia. }
  assert (Hb2 : (v - vv) * (v - vv) <= (mx - 3) * (mx - 3)).
  { rewrite <- Z.abs_square. apply Z.mul_le_mono_nonneg; lia. }
  nia.
Qed.
End CandidateDistances.

(** [enumerate(l)[i]] is [(i, l[i])]. *)
Lemma nth_error_enumerate {T : Type} (l : list T) (i : nat) (x : T) :
  nth_error l i = Some x -> nth_error (enumerate l) i = Some (Z.of_nat i, x).
Proof.
  intros Hnth.
  assert (Hlt : (i < length l)%nat) by (apply nth_error_Some; congruence).
  destruct (nth_error (enumerate l) i) as [[k y]|] eqn:He.
  - pose proof (f_equal (option_map fst) He) as Hk.
    pose proof (f_equal (option_map snd) He) as Hy.
    rewrite <- !nth_error_map in Hk, Hy.
    rewrite enumerate_fst in Hk. rewrite enumerate_snd in Hy.
    unfold range in Hk. rewrite nth_error_map, nth_error_seq in Hk.
    replace (i <? Z.to_nat (Z.of_nat (length l) - 0))%nat with true in Hk
      by (symmetry; apply Nat.ltb_lt; lia).
    cbn in Hk, Hy. rewrite Hnth in Hy. inversion Hk. inversion Hy. reflexivity.
  - apply nth_error_None in He.
    rewrite <- (length_map snd), enumerate_snd in He. lia.
Qed.

Lemma StronglySorted_map {T U : Type} (f : T -> U) (R' : U -> U -> Prop)
    (l : list T) :
  StronglySorted (fun a b => R' (f a) (f b)) l -> StronglySorted R' (map f l).
Proof.
  intros Hl. induction Hl as [|x l Hl IH Hx]; cbn [map]; constructor;
    [exact IH|].
  apply Forall_forall. intros y Hy. apply in_map_iff in Hy.
  destruct Hy as (z & <- & Hz). rewrite Forall_forall in Hx. now apply Hx.
Qed.

Lemma StronglySorted_weaken_in {T : Type} (R1 R2 : T -> T -> Prop) (l : list T) :
  (forall a b, In a l -> In b l -> R1 a b -> R2 a b) ->
  StronglySorted R1 l -> StronglySorted R2 l.
Proof.
  intros HR Hl. induction Hl as [|x l Hl IH Hx]; constructor.
  - apply IH. intros a b Ha Hb. apply HR; now right.
  - rewrite Forall_forall in Hx |- *. intros y Hy.
    apply HR; [now left | now right | now apply Hx].
Qed.

(** [l[:n]] without the vocabulary of slices: a negative [n] counts from
    the end. *)
Lemma list_prefix_python {T : Type} (l : list T) (n : Z) :
  list_prefix l n
  = firstn (Z.to_nat (if n <? 0 then n + Z.of_nat (length l) else n)) l.
Proof.
  unfold list_prefix, slice_hi, sl_to, norm_bound. cbn [sl_stop].
  destruct (Z.ltb_spec n 0) as [Hneg|Hpos].
  - f_equal. lia.
  - destruct (Z_le_gt_dec n (Z.of_nat (length l))) as [Hle|Hgt].
    + now rewrite Z.min_l by lia.
    + rewrite Z.min_r by lia. rewrite Nat2Z.id.
      rewrite firstn_all. symmetry. apply firstn_all2. lia.
Qed.

(** A ranked point with its radius as a real number. *)
Definition ranked_value (e : ranked_point) : Z * Z * R :=
  (fst e, radius_val (snd e)).

Lemma map_fst_ranked_value (l : list ranked_point) :
  map fst (map ranked_value l) = map fst l.
Proof. rewrite map_map. apply map_ext. intros [[u v] r]. reflexivity. Qed.

(** What [_maxima_to_uv] returns, from the ranked points with real
    radii. *)
Lemma maxima_to_uv_ranked_value (l : list ranked_point) (zipped : bool) :
  _maxima_to_uv l zipped
  = if zipped then Zipped (map fst (map ranked_value l))
    else Unzipped (map (fun e => fst (fst e)) (map ranked_value l))
                  (map (fun e => snd (fst e)) (map ranked_value l)).
Proof.
  unfold _maxima_to_uv. destruct zipped; cbn [negb]; rewrite !map_map.
  - f_equal. apply map_ext. intros [[u v] r]. reflexivity.
  - reflexivity.
Qed.

Section SuppressionRadius.
  Context {A : Type} `{Scalar A}.

(** The suppression radius that the candidate at position [i] of [maxima],
    at [(u, v)] with score [h], is to get: [sentinel] when no other
    candidate [k] has [h < c * h_k]; otherwise the least of the Euclidean
    distances from [(u, v)] to such candidates. *)
Definition least_stronger_distance (maxima : list (Z * Z * A)) (c : A)
    (sentinel : R) (i : nat) (u v : Z) (h : A) (r : R) : Prop :=
  ((forall k uu vv hh,
      nth_error maxima k = Some (uu, vv, hh) -> k <> i ->
      slt h (smul c hh) = false) ->
   r = sentinel)
  /\ (forall k uu vv hh,
        nth_error maxima k = Some (uu, vv, hh) -> k <> i ->
        slt h (smul c hh) = true ->
        (r <= sqrt (IZR ((u - uu) ^ 2 + (v - vv) ^ 2)))%R
        /\ exists k' uu' vv' hh',
             nth_error maxima k' = Some (uu', vv', hh') /\ k' <> i
             /\ slt h (smul c hh') = true
             /\ r = sqrt (IZR ((u - uu') ^ 2 + (v - vv') ^ 2))).

(** The inner loop of [anms] computes that radius, when the sentinel is
    above every distance between candidates. *)
Lemma suppression_radius_real (maxima : list (Z * Z * A)) (c : A) (rmax : radius)
    (i : nat) (u v : Z) (h : A) :
  (forall k uu vv hh, In (k, (uu, vv, hh)) (enumerate maxima) ->
                      radicand (dist u v uu vv) < radicand rmax) ->
  least_stronger_distance maxima c (radius_val rmax) i u v h
    (radius_val (suppression_radius maxima c rmax (Z.of_nat i) u v h)).
Proof.
  intros Hbound.
  destruct (suppression_radius_least maxima c rmax (Z.of_nat i) u v h Hbound)
    as [Hnone Hsome].
  assert (Hto : forall k uu vv hh,
             nth_error maxima k = Some (uu, vv, hh) -> k <> i ->
             slt h (smul c hh) = true ->
             stronger_neighbour maxima c (Z.of_nat i) h (Z.of_nat k) uu vv hh).
  { intros k uu vv hh Hk Hne Hstr. split; [|split; [lia | exact Hstr]].
    apply in_enumerate. rewrite Nat2Z.id. split; [lia | exact Hk]. }
  assert (Hfrom : forall k uu vv hh,
             stronger_neighbour maxima c (Z.of_nat i) h k uu vv hh ->
             nth_error maxima (Z.to_nat k) = Some (uu, vv, hh)
             /\ Z.to_nat k <> i /\ slt h (smul c hh) = true).
  { intros k uu vv hh (Hin & Hne & Hstr). apply in_enumerate in Hin.
    destruct Hin as [Hk Hnth]. split; [exact Hnth|]. split; [lia | exact Hstr]. }
  split.
  - intros Hno. f_equal. apply Hnone. intros k uu vv hh Hstr.
    destruct (Hfrom k uu vv hh Hstr) as (Hnth & Hne & Htest).
    rewrite (Hno _ _ _ _ Hnth Hne) in Htest. discriminate Htest.
  - intros k uu vv hh Hk Hne Hstr.
    destruct (Hsome _ _ _ _ (Hto k uu vv hh Hk Hne Hstr))
      as [(k' & uu' & vv' & hh' & Hstr' & Hr) Hle].
    split.
    + exact (radius_le_real _ (dist u v uu vv) Hle).
    + destruct (Hfrom _ _ _ _ Hstr') as (Hnth' & Hne' & Htest').
      exists (Z.to_nat k'), uu', vv', hh'.
      split; [exact Hnth'|]. split; [exact Hne'|]. split; [exact Htest'|].
      rewrite Hr. reflexivity.
Qed.

(** A radius computed by the inner loop is the square root of a number
    that is not negative. *)
Lemma suppression_radius_nonneg (maxima : list (Z * Z * A)) (c : A) (rmax : radius)
    (i u v : Z) (h : A) :
  0 <= radicand rmax ->
  0 <= radicand (suppression_radius maxima c rmax i u v h).
Proof.
  unfold suppression_radius. generalize (enumerate maxima). intros l.
  revert rmax. induction l as [|[k [[uu vv] hh]] l IH]; intros rmax Hr;
    cbn [fold_left]; [exact Hr|].
  apply IH. destruct (_ && _); [|exact Hr].
  unfold dist. cbn [radicand]. nia.
Qed.

(** The radius of every candidate of a map, as a real number. *)
Lemma candidate_radius_real (H0 : ndarray A) (thresh c : A) (i : nat) (u v : Z)
    (h : A) :
  let maxima := get_maxima H0 thresh false in
  let rmax := radius_of_int (Z.max (shape0 H0) (shape1 H0) ^ 2) in
  nth_error maxima i = Some (u, v, h) ->
  least_stronger_distance maxima c
    (IZR (Z.max (shape0 H0) (shape1 H0) ^ 2)) i u v h
    (radius_val (suppression_radius maxima c rmax (Z.of_nat i) u v h)).
Proof.
  intros maxima rmax Hnth.
  rewrite <- (radius_val_of_int (Z.max (shape0 H0) (shape1 H0) ^ 2))
    by (rewrite Z.pow_2_r; apply Z.square_nonneg).
  apply suppression_radius_real. intros k uu vv hh Hk.
  apply (candidates_within_rmax H0 thresh u v uu vv h hh).
  - now apply nth_error_In in Hnth.
  - exact (proj2 (in_enumerate_bounds _ _ _ Hk)).
Qed.

(** The entry of every candidate, with its radius as a real number. *)
Lemma anms_entries_real (H0 : ndarray A) (thresh c : A) (i : nat) (u v : Z)
    (h : A) :
  let maxima := get_maxima H0 thresh false in
  let rmax := radius_of_int (Z.max (shape0 H0) (shape1 H0) ^ 2) in
  nth_error maxima i = Some (u, v, h) ->
  exists rmin,
    nth_error (map ranked_value (anms_entries maxima c rmax)) i = Some (u, v, rmin)
    /\ least_stronger_distance maxima c
         (IZR (Z.max (shape0 H0) (shape1 H0) ^ 2)) i u v h rmin.
Proof.
  intros maxima rmax Hnth.
  exists (radius_val (suppression_radius maxima c rmax (Z.of_nat i) u v h)).
  split.
  - rewrite anms_entries_map, nth_error_map, nth_error_map.
    rewrite (nth_error_enumerate maxima i (u, v, h) Hnth). reflexivity.
  - now apply candidate_radius_real.
Qed.
End SuppressionRadius.

Section BruteForceTheorem.
  Context {A : Type} `{Scalar A}.
  Variables np_mean np_std : ndarray A -> A.

(** C7.  In brute-force ANMS the candidate at every position [i] gets as
    its radius the least Euclidean distance to another candidate [k] with
    [h_i < c * h_k], or the sentinel [max(height, width)^2] when there is
    none; the ranking holds the candidates in descending order of that
    radius, and the points returned are the coordinates of its first [n]
    entries, as one array of pairs or as two arrays.  The threshold is
    [mean + std], or the minimum of the map. *)
Theorem anms_spec (H0 : ndarray A) (n : Z) (c : A) (use_thresh zipped : bool) :
  0 <= n ->
  (use_thresh = false -> 0 < shape0 H0 /\ 0 < shape1 H0) ->
  exists (thresh : A) (entries ranked : list (Z * Z * R)) (res : uv_result),
    threshold_of np_mean np_std H0 use_thresh = Ok thresh
    /\ (use_thresh = true -> thresh = sadd (np_mean H0) (np_std H0))
    /\ (use_thresh = false -> np_min H0 = Ok thresh)
    /\ anms np_mean np_std H0 n c use_thresh zipped = Ok res
    /\ length entries = length (get_maxima H0 thresh false)
    /\ (forall i u v h,
          nth_error (get_maxima H0 thresh false) i = Some (u, v, h) ->
          exists rmin,
            nth_error entries i = Some (u, v, rmin)
            /\ least_stronger_distance (get_maxima H0 thresh false) c
                 (IZR (Z.max (shape0 H0) (shape1 H0) ^ 2)) i u v h rmin)
    /\ Permutation ranked entries
    /\ StronglySorted (fun a b => (snd b <= snd a)%R) ranked
    /\ result_points res = map fst (firstn (Z.to_nat n) ranked)
    /\ res = (if zipped
              then Zipped (map fst (firstn (Z.to_nat n) ranked))
              else Unzipped
                     (map (fun e => fst (fst e)) (firstn (Z.to_nat n) ranked))
                     (map (fun e => snd (fst e)) (firstn (Z.to_nat n) ranked))).
Proof.
  intros Hn Hnonempty.
  assert (Hthr : exists thresh, threshold_of np_mean np_std H0 use_thresh = Ok thresh).
  { unfold threshold_of. destruct use_thresh; [eauto|].
    destruct (Hnonempty eq_refl) as [Hs0 Hs1].
    pose proof (elements_nonempty H0 Hs0 Hs1) as Hne.
    unfold np_min. destruct (elements H0); [contradiction | eauto]. }
  destruct Hthr as (thresh & Hthr).
  set (maxima := get_maxima H0 thresh false).
  set (rmax := radius_of_int (Z.max (shape0 H0) (shape1 H0) ^ 2)).
  set (sorted := sort_by_radius (anms_entries maxima c rmax)).
  exists thresh, (map ranked_value (anms_entries maxima c rmax)),
         (map ranked_value sorted),
         (_maxima_to_uv (firstn (Z.to_nat n) sorted) zipped).
  split; [exact Hthr|].
  split; [intros ->; cbn in Hthr; now inversion Hthr|].
  split; [intros ->; exact Hthr|].
  split.
  { unfold anms. rewrite Hthr. cbn [bind]. fold maxima. fold rmax. fold sorted.
    now rewrite list_prefix_firstn. }
  split.
  { rewrite length_map, anms_entries_map, length_map.
    rewrite <- (length_map snd), enumerate_snd. reflexivity. }
  split; [intros i u v h Hnth; now apply anms_entries_real|].
  split; [apply Permutation_map, sort_by_radius_perm|].
  split.
  { apply StronglySorted_map. apply sort_by_radius_sorted. }
  rewrite firstn_map. split.
  - now rewrite result_points_maxima_to_uv, map_fst_ranked_value.
  - apply maxima_to_uv_ranked_value.
Qed.
End BruteForceTheorem.

(* ------------------------------------------------------------------ *)
(** *** The index-accelerated variant *)

Definition option_list {T : Type} (o : option T) : list T :=
  match o with
  | Some x => [x]
  | None => []
  end.

Lemma bind_assoc {T U V : Type} (c : result T) (k1 : T -> result U)
    (k2 : U -> result V) :
  bind (bind c k1) k2 = bind c (fun x => bind (k1 x) k2).
Proof. destruct c; reflexivity. Qed.

Lemma for_each_ext_in {S : Type} (l : list Z) (f g : Z -> S -> result S) (s : S) :
  (forall i s', In i l -> f i s' = g i s') -> for_each l f s = for_each l g s.
Proof.
  revert s. induction l as [|i l IH]; intros s Hfg; [reflexivity|].
  cbn [for_each]. rewrite Hfg by (now left).
  destruct (g i s); [|reflexivity].
  apply IH. intros j s' Hj. apply Hfg. now right.
Qed.

(** A loop that appends at most one entry per index. *)
Lemma for_each_collect {T : Type} (f : Z -> result (option T)) (l : list Z)
    (init : list T) :
  (forall i, In i l -> exists o, f i = Ok o) ->
  exists outs,
    Forall2 (fun i o => f i = Ok o) l outs
    /\ for_each l (fun i acc =>
                     found <- f i ;;
                     match found with
                     | Some entry => Ok (acc ++ [entry])
                     | None => Ok acc
                     end) init
       = Ok (init ++ flat_map option_list outs).
Proof.
  revert init. induction l as [|i l IH]; intros init Hf.
  - exists []. split; [constructor|]. cbn. now rewrite app_nil_r.
  - destruct (Hf i (or_introl eq_refl)) as (o & Ho).
    cbn [for_each]. rewrite Ho. cbn [bind].
    destruct o as [e|].
    + destruct (IH (init ++ [e])) as (outs & Hall & Hrun).
      { intros j Hj. apply Hf. now right. }
      exists (Some e :: outs). split; [now constructor|].
      rewrite Hrun. cbn. now rewrite <- app_assoc.
    + destruct (IH init) as (outs & Hall & Hrun).
      { intros j Hj. apply Hf. now right. }
      exists (None :: outs). split; [now constructor|].
      rewrite Hrun. reflexivity.
Qed.

Lemma Forall2_in_r {T U : Type} (R : T -> U -> Prop) (l : list T) (l' : list U)
    (y : U) :
  Forall2 R l l' -> In y l' -> exists x, In x l /\ R x y.
Proof.
  intros Hall. induction Hall as [|x y' l l' Hxy Hall IH]; intros Hin; [contradiction|].
  destruct Hin as [<-|Hin].
  - exists x. split; [now left | exact Hxy].
  - destruct (IH Hin) as (x' & Hx' & HR). exists x'. split; [now right | exact HR].
Qed.

Lemma in_flat_map_option_list {T : Type} (outs : list (option T)) (e : T) :
  In e (flat_map option_list outs) <-> In (Some e) outs.
Proof.
  rewrite in_flat_map. split.
  - intros ([x|] & Hin & He); [|contradiction].
    destruct He as [<-|[]]. exact Hin.
  - intros Hin. exists (Some e). split; [exact Hin | now left].
Qed.

Section IndexedFacts.
  Context {A : Type} `{Scalar A}.
  Variables np_mean np_std : ndarray A -> A.
  Variable tree : Type.
  Variable KDTree : list (Z * Z) -> result tree.
  Variable query : tree -> Z * Z -> Z -> list (radius * Z).

(** The farthest of the [k] nearest points to [x]: [dist[0, -1]] and
    [ind[0, -1]]. *)
Definition farthest (t : tree) (x : Z * Z) (k : Z) : radius * Z :=
  last (query t x k) (Sqrt 0, 0).

(** The index answers every query made for the candidates with the
    position of a candidate. *)
Definition index_answers_valid (t : tree) (maxima : list (Z * Z * A)) : Prop :=
  forall u v h k,
    In (u, v, h) maxima -> 2 <= k < Z.of_nat (length maxima) ->
    0 <= snd (farthest t (u, v) k) < Z.of_nat (length maxima).

Lemma np_index_ok (mh : list A) (ind : Z) :
  0 <= ind < Z.of_nat (length mh) ->
  np_index mh ind = Ok (nth (Z.to_nat ind) mh szero).
Proof.
  intros Hind. unfold np_index.
  replace ((- Z.of_nat (length mh) <=? ind) && (ind <? Z.of_nat (length mh)))
    with true by (symmetry; box_true).
  destruct (Z.ltb_spec ind 0); [lia | reflexivity].
Qed.

(** The search returns for every list of [k]s when the index answers are
    positions of candidates. *)
Lemma progressive_search_total (t : tree) (mh : list A) (c : A) (edge u v : Z)
    (h : A) (ks : list Z) :
  (forall k, In k ks -> 0 <= snd (farthest t (u, v) k) < Z.of_nat (length mh)) ->
  exists o, progressive_search tree query t mh c edge u v h ks = Ok o.
Proof.
  induction ks as [|k ks IH]; intros Hvalid; cbn [progressive_search]; [eauto|].
  pose proof (Hvalid k (or_introl eq_refl)) as Hk. unfold farthest in Hk.
  destruct (last (query t (u, v) k) (Sqrt 0, 0)) as [dist_last ind_last].
  cbn [snd] in Hk. rewrite np_index_ok by exact Hk. cbn [bind].
  destruct (slt h (smul c _)); [eauto|].
  apply IH. intros k' Hk'. apply Hvalid. now right.
Qed.

(** What the search found: the first [k] whose farthest neighbour passes
    the test, with the distance to it; or nothing, when none passes. *)
Lemma progressive_search_found (t : tree) (mh : list A) (c : A) (edge u v : Z)
    (h : A) (ks : list Z) (o : option ranked_point) :
  progressive_search tree query t mh c edge u v h ks = Ok o ->
  match o with
  | None =>
      forall k, In k ks ->
        exists hn, np_index mh (snd (farthest t (u, v) k)) = Ok hn
                   /\ slt h (smul c hn) = false
  | Some entry =>
      exists before k after hn,
        ks = before ++ k :: after
        /\ (forall k', In k' before ->
              exists hn', np_index mh (snd (farthest t (u, v) k')) = Ok hn'
                          /\ slt h (smul c hn') = false)
        /\ np_index mh (snd (farthest t (u, v) k)) = Ok hn
        /\ slt h (smul c hn) = true
        /\ entry = (u + edge, v + edge, fst (farthest t (u, v) k))
  end.
Proof.
  revert o. induction ks as [|k ks IH]; intros o Hrun; cbn [progressive_search] in Hrun.
  - inversion Hrun; subst. intros k [].
  - unfold farthest in *.
    destruct (last (query t (u, v) k) (Sqrt 0, 0)) as [dist_last ind_last] eqn:Hlast.
    destruct (np_index mh ind_last) as [hn|e] eqn:Hidx; cbn [bind] in Hrun;
      [|discriminate Hrun].
    destruct (slt h (smul c hn)) eqn:Htest.
    + inversion Hrun; subst.
      exists [], k, ks, hn. rewrite Hlast. cbn [fst snd].
      repeat split; try assumption. intros k' [].
    + specialize (IH o Hrun). destruct o as [entry|].
      * destruct IH as (before & k0 & after & hn0 & Hks & Hbefore & Hidx0 & Ht0 & He).
        exists (k :: before), k0, after, hn0. rewrite Hks.
        repeat split; try assumption.
        intros k' [<-|Hk'].
        -- exists hn. rewrite Hlast. cbn [snd]. now split.
        -- now apply Hbefore.
      * intros k' [<-|Hk'].
        -- exists hn. rewrite Hlast. cbn [snd]. now split.
        -- now apply IH.
Qed.
End IndexedFacts.

Lemma get_maxima_NoDup {A : Type} `{Scalar A} (im : ndarray A) (threshold : A) :
  NoDup (get_maxima im threshold false).
Proof.
  apply (StronglySorted_NoDup scan_before); [|apply get_maxima_scan_order].
  intros x [Hlt|[_ Hlt]]; lia.
Qed.

(** A cell is a candidate at one position only. *)
Lemma candidate_position_unique {A : Type} `{Scalar A} (im : ndarray A)
    (threshold : A) (i i' u v : Z) (h h' : A) :
  In (i, (u, v, h)) (enumerate (get_maxima im threshold false)) ->
  In (i', (u, v, h')) (enumerate (get_maxima im threshold false)) ->
  i = i' /\ h = h'.
Proof.
  intros Hi Hi'.
  pose proof (in_enumerate_bounds _ _ _ Hi) as [Hb Hin].
  pose proof (in_enumerate_bounds _ _ _ Hi') as [Hb' Hin'].
  apply in_get_maxima_scan in Hin. apply in_get_maxima_scan in Hin'.
  destruct Hin as (_ & -> & _). destruct Hin' as (_ & -> & _).
  split; [|reflexivity].
  apply in_enumerate in Hi. apply in_enumerate in Hi'.
  destruct Hi as [Hi0 Hnth]. destruct Hi' as [Hi0' Hnth'].
  pose proof (get_maxima_NoDup im threshold) as Hnd.
  rewrite NoDup_nth_error in Hnd.
  assert (Heq : Z.to_nat i = Z.to_nat i').
  { apply Hnd; [lia | congruence]. }
  lia.
Qed.

Section IndexedEntries.
  Context {A : Type} `{Scalar A}.
  Variable tree : Type.
  Variable query : tree -> Z * Z -> Z -> list (radius * Z).

(** What the loop body of utils.py:189-207 records for position [i]. *)
Definition candidate_entry (t : tree) (maxima : list (Z * Z * A)) (c : A)
    (edge i : Z) : result (option ranked_point) :=
  let muv := map (fun mi => (fst (fst mi), snd (fst mi))) maxima in
  let mh := map (fun mi => snd mi) maxima in
  let nm := Z.of_nat (length maxima) in
  let '(u, v) := nth (Z.to_nat i) muv (0, 0) in
  h <- np_index mh i ;;
  progressive_search tree query t mh c edge u v h (range 2 nm).

Lemma candidate_entry_search (t : tree) (maxima : list (Z * Z * A)) (c : A)
    (edge i u v : Z) (h : A) :
  In (i, (u, v, h)) (enumerate maxima) ->
  candidate_entry t maxima c edge i
  = progressive_search tree query t (map (fun mi => snd mi) maxima) c edge u v h
                       (range 2 (Z.of_nat (length maxima))).
Proof.
  intros Hin. pose proof (in_enumerate_bounds _ _ _ Hin) as [Hb _].
  apply in_enumerate in Hin. destruct Hin as [_ Hnth].
  unfold candidate_entry.
  rewrite (nth_error_nth _ _ _
             (eq_trans (nth_error_map _ _ _)
                       (f_equal (option_map _) Hnth))).
  cbn [fst snd].
  rewrite np_index_ok by (rewrite length_map; exact Hb).
  rewrite (nth_error_nth _ _ _
             (eq_trans (nth_error_map _ _ _)
                       (f_equal (option_map _) Hnth))).
  reflexivity.
Qed.

Lemma position_is_candidate (maxima : list (Z * Z * A)) (i : Z) :
  0 <= i < Z.of_nat (length maxima) ->
  exists u v h, In (i, (u, v, h)) (enumerate maxima).
Proof.
  intros Hi.
  destruct (nth_error maxima (Z.to_nat i)) as [[[u v] h]|] eqn:Hnth.
  - exists u, v, h. apply in_enumerate. split; [lia | exact Hnth].
  - apply nth_error_None in Hnth. lia.
Qed.

(** The recorded entries, position by position. *)
Lemma anms_kdtree_entries_collect (t : tree) (maxima : list (Z * Z * A)) (c : A)
    (edge : Z) :
  index_answers_valid tree query t maxima ->
  exists outs,
    Forall2 (fun i o => candidate_entry t maxima c edge i = Ok o)
            (range 0 (Z.of_nat (length maxima))) outs
    /\ anms_kdtree_entries tree query t maxima c edge
       = Ok (flat_map option_list outs).
Proof.
  intros Hvalid.
  destruct (for_each_collect (candidate_entry t maxima c edge)
              (range 0 (Z.of_nat (length maxima))) [])
    as (outs & Hall & Hrun).
  { intros i Hi. apply in_range in Hi.
    destruct (position_is_candidate maxima i Hi) as (u & v & h & Hin).
    rewrite (candidate_entry_search t maxima c edge i u v h Hin).
    apply progressive_search_total.
    intros k Hk. apply in_range in Hk. rewrite length_map.
    apply (Hvalid u v h k); [|exact Hk].
    now apply in_enumerate_bounds in Hin. }
  exists outs. split; [exact Hall|].
  cbn [app] in Hrun. rewrite <- Hrun. unfold anms_kdtree_entries.
  apply for_each_ext_in. intros i acc _. unfold candidate_entry.
  destruct (nth (Z.to_nat i) _ (0, 0)) as [u v].
  now rewrite !bind_assoc.
Qed.

(** Every recorded entry comes from a candidate whose search hit. *)
Lemma anms_kdtree_entry_origin (t : tree) (maxima : list (Z * Z * A)) (c : A)
    (edge : Z) (outs : list (option ranked_point)) (entry : ranked_point) :
  Forall2 (fun i o => candidate_entry t maxima c edge i = Ok o)
          (range 0 (Z.of_nat (length maxima))) outs ->
  In entry (flat_map option_list outs) ->
  exists i u v h,
    In (i, (u, v, h)) (enumerate maxima)
    /\ progressive_search tree query t (map (fun mi => snd mi) maxima) c edge u v h
                          (range 2 (Z.of_nat (length maxima)))
       = Ok (Some entry).
Proof.
  intros Hall Hin. apply in_flat_map_option_list in Hin.
  destruct (Forall2_in_r _ _ _ _ Hall Hin) as (i & Hi & Hrun).
  apply in_range in Hi.
  destruct (position_is_candidate maxima i Hi) as (u & v & h & Hcand).
  exists i, u, v, h. split; [exact Hcand|].
  now rewrite <- (candidate_entry_search t maxima c edge i u v h Hcand).
Qed.
End IndexedEntries.

Section IndexedTheorems.
  Context {A : Type} `{Scalar A}.
  Variables np_mean np_std : ndarray A -> A.
  Variable tree : Type.
  Variable KDTree : list (Z * Z) -> result tree.
  Variable query : tree -> Z * Z -> Z -> list (radius * Z).

(** The result of [anms_kdtree] once the threshold and the index are
    there: the first [n] recorded entries in descending radius. *)
Lemma anms_kdtree_run (H0 : ndarray A) (n : Z) (c : A) (edge : Z)
    (use_thresh zipped : bool) (thresh : A) (t : tree)
    (entries : list ranked_point) :
  let trimmed := view H0 (sl edge (- edge)) (sl edge (- edge)) in
  let maxima := get_maxima trimmed thresh false in
  threshold_of np_mean np_std trimmed use_thresh = Ok thresh ->
  KDTree (map fst maxima) = Ok t ->
  anms_kdtree_entries tree query t maxima c edge = Ok entries ->
  anms_kdtree np_mean np_std tree KDTree query H0 n c edge use_thresh zipped
  = Ok (_maxima_to_uv (list_prefix (sort_by_radius entries) n) zipped).
Proof.
  intros trimmed maxima Hthr Htree Hentries.
  unfold anms_kdtree. fold trimmed. rewrite Hthr. cbn [bind]. fold maxima.
  replace (map (fun mi : Z * Z * A => (fst (fst mi), snd (fst mi))) maxima)
    with (map fst maxima) by (apply map_ext; intros [[u v] h]; reflexivity).
  rewrite Htree. cbn [bind]. rewrite Hentries. reflexivity.
Qed.

(** C8.  In [anms_kdtree] a candidate for which no [k] from 2 up to
    [totalCandidates - 1] gives a significantly stronger farthest
    neighbour contributes no entry: its point is absent from the result,
    whereas the brute-force loop records an entry for it. *)
Theorem anms_kdtree_omits_unsuppressed
    (H0 : ndarray A) (n : Z) (c : A) (edge : Z) (use_thresh zipped : bool)
    (thresh : A) (t : tree) (i u v : Z) (h : A) :
  let trimmed := view H0 (sl edge (- edge)) (sl edge (- edge)) in
  let maxima := get_maxima trimmed thresh false in
  let rmax := radius_of_int (Z.max (shape0 trimmed) (shape1 trimmed) ^ 2) in
  threshold_of np_mean np_std trimmed use_thresh = Ok thresh ->
  KDTree (map fst maxima) = Ok t ->
  index_answers_valid tree query t maxima ->
  In (i, (u, v, h)) (enumerate maxima) ->
  (forall k hn,
      2 <= k < Z.of_nat (length maxima) ->
      np_index (map snd maxima) (snd (farthest tree query t (u, v) k)) = Ok hn ->
      slt h (smul c hn) = false) ->
  exists res,
    anms_kdtree np_mean np_std tree KDTree query H0 n c edge use_thresh zipped
    = Ok res
    /\ ~ In (u + edge, v + edge) (result_points res)
    /\ In (u, v, suppression_radius maxima c rmax i u v h)
          (anms_entries maxima c rmax).
Proof.
  intros trimmed maxima rmax Hthr Htree Hvalid Hcand Hnever.
  destruct (anms_kdtree_entries_collect tree query t maxima c edge Hvalid)
    as (outs & Hall & Hentries).
  eexists. split; [|split].
  - apply (anms_kdtree_run H0 n c edge use_thresh zipped thresh t _ Hthr Htree Hentries).
  - rewrite result_points_maxima_to_uv. intros Hin.
    apply in_map_iff in Hin. destruct Hin as (entry & Hfst & Hin).
    apply in_list_prefix in Hin.
    apply (Permutation_in _ (sort_by_radius_perm _)) in Hin.
    destruct (anms_kdtree_entry_origin tree query t maxima c edge outs entry Hall Hin)
      as (i' & u' & v' & h' & Hcand' & Hrun).
    pose proof (progressive_search_found _ _ _ _ _ _ _ _ _ _ _ Hrun) as Hfound.
    cbn beta iota in Hfound.
    destruct Hfound as (before & k & after & hn & Hks & _ & Hidx & Htest & ->).
    cbn [fst] in Hfst. inversion Hfst as [[Hu Hv]].
    assert (u' = u) by lia. assert (v' = v) by lia. subst u' v'.
    destruct (candidate_position_unique trimmed thresh i' i u v h' h Hcand' Hcand)
      as [-> ->].
    assert (Hk : In k (range 2 (Z.of_nat (length maxima)))).
    { rewrite Hks. apply in_or_app. right. left. reflexivity. }
    apply in_range in Hk.
    rewrite (Hnever k hn Hk Hidx) in Htest. discriminate Htest.
  - rewrite anms_entries_map. apply in_map_iff.
    exists (i, (u, v, h)). split; [reflexivity | exact Hcand].
Qed.
End IndexedTheorems.

(* ------------------------------------------------------------------ *)
(** *** Concrete runs of the two variants *)

(** C7 on the 7x9 map, [n = 2], [c = 0.9], with the minimum as
    threshold. *)
Lemma anms_spec_witness :
  exists (thresh : Q) (entries ranked : list (Z * Z * R)) (res : uv_result),
    threshold_of qstat qstat peaks7x9 false = Ok thresh
    /\ (false = true -> thresh = sadd (qstat peaks7x9) (qstat peaks7x9))
    /\ (false = false -> np_min peaks7x9 = Ok thresh)
    /\ anms qstat qstat peaks7x9 2 (9 # 10) false true = Ok res
    /\ length entries = length (get_maxima peaks7x9 thresh false)
    /\ (forall i u v h,
          nth_error (get_maxima peaks7x9 thresh false) i = Some (u, v, h) ->
          exists rmin,
            nth_error entries i = Some (u, v, rmin)
            /\ least_stronger_distance (get_maxima peaks7x9 thresh false) (9 # 10)
                 (IZR (Z.max (shape0 peaks7x9) (shape1 peaks7x9) ^ 2)) i u v h rmin)
    /\ Permutation ranked entries
    /\ StronglySorted (fun a b => (snd b <= snd a)%R) ranked
    /\ result_points res = map fst (firstn (Z.to_nat 2) ranked)
    /\ res = Zipped (map fst (firstn (Z.to_nat 2) ranked)).
Proof.
  apply (anms_spec qstat qstat peaks7x9 2 (9 # 10) false true).
  - lia.
  - intros _. cbn. lia.
Defined.

(** The 7x9 map inside a one-pixel margin of zeros. *)
Definition peaks9x11 : ndarray Q :=
  of_rows 0%Q
    [[0; 0; 0;  0; 0; 0; 0; 0; 0; 0; 0];
     [0; 0; 0;  0; 0; 0; 0; 0; 0; 0; 0];
     [0; 0; 10; 0; 0; 0; 0; 0; 5; 0; 0];
     [0; 0; 0;  0; 0; 0; 0; 0; 0; 0; 0];
     [0; 0; 0;  0; 0; 8; 0; 0; 0; 0; 0];
     [0; 0; 0;  0; 0; 0; 0; 0; 0; 0; 0];
     [0; 0; 4;  0; 0; 0; 0; 0; 0; 0; 0];
     [0; 0; 0;  0; 0; 0; 0; 0; 0; 0; 0];
     [0; 0; 0;  0; 0; 0; 0; 0; 0; 0; 0]]%Q.

Definition peaks_trimmed : ndarray Q := view peaks9x11 (sl 1 (- 1)) (sl 1 (- 1)).

Definition peaks_index : ref_tree := [(1, 1); (7, 1); (4, 3); (1, 5)].

Example get_maxima_peaks_trimmed :
  get_maxima peaks_trimmed 0%Q false
  = [(1, 1, 10%Q); (7, 1, 5%Q); (4, 3, 8%Q); (1, 5, 4%Q)].
Proof. vm_compute. reflexivity. Qed.

Example anms_kdtree_peaks9x11 :
  anms_kdtree qstat qstat ref_tree ref_KDTree ref_query peaks9x11 100 (9 # 10) 1
              false true
  = Ok (Zipped [(8, 2); (5, 4); (2, 6)]).
Proof. vm_compute. reflexivity. Qed.

Lemma peaks_index_valid :
  index_answers_valid ref_tree ref_query peaks_index
    (get_maxima peaks_trimmed 0%Q false).
Proof.
  unfold index_answers_valid. rewrite get_maxima_peaks_trimmed.
  intros u v h k Hin Hk. cbn [length] in Hk.
  assert (Hk' : k = 2 \/ k = 3) by lia.
  cbn [In] in Hin.
  destruct Hin as [Heq|[Heq|[Heq|[Heq|[]]]]]; inversion Heq; subst;
    destruct Hk' as [-> | ->]; vm_compute; (split; [discriminate | reflexivity]).
Qed.

(** C8, witness: with a margin of 1 the strongest peak of the 9x11 map,
    candidate 0 at (1, 1) of the trimmed map, finds no stronger neighbour
    and its point (2, 2) is not returned. *)
Lemma anms_kdtree_omits_unsuppressed_witness :
  exists res,
    anms_kdtree qstat qstat ref_tree ref_KDTree ref_query peaks9x11 100 (9 # 10) 1
                false true = Ok res
    /\ ~ In (1 + 1, 1 + 1) (result_points res).
Proof.
  destruct (anms_kdtree_omits_unsuppressed qstat qstat ref_tree ref_KDTree ref_query
              peaks9x11 100 (9 # 10) 1 false true 0%Q peaks_index 0 1 1 10%Q)
    as (res & Hrun & Habsent & _).
  - vm_compute. reflexivity.
  - vm_compute. reflexivity.
  - exact peaks_index_valid.
  - change (view peaks9x11 (sl 1 (Z.opp 1)) (sl 1 (Z.opp 1))) with peaks_trimmed.
    rewrite get_maxima_peaks_trimmed. left. reflexivity.
  - change (view peaks9x11 (sl 1 (Z.opp 1)) (sl 1 (Z.opp 1))) with peaks_trimmed.
    rewrite get_maxima_peaks_trimmed. cbn [length].
    intros k hn Hk Hidx.
    assert (Hk' : k = 2 \/ k = 3) by lia.
    destruct Hk' as [-> | ->]; vm_compute in Hidx; inversion Hidx; subst;
      reflexivity.
  - exists res. split; [exact Hrun | exact Habsent].
Defined.

(* ================================================================== *)
(** ** The two ANMS variants against each other *)

Section VariantsTheorem.
  Context {A : Type} `{Scalar A}.
  Variables np_mean np_std : ndarray A -> A.
  Variable tree : Type.
  Variable KDTree : list (Z * Z) -> result tree.
  Variable query : tree -> Z * Z -> Z -> list (radius * Z).

Lemma length_anms_entries (maxima : list (Z * Z * A)) (c : A) (rmax : radius) :
  length (anms_entries maxima c rmax) = length maxima.
Proof.
  rewrite anms_entries_map, length_map.
  rewrite <- (length_map snd), enumerate_snd. reflexivity.
Qed.

(** The claim that both variants select the same set of points from the
    same map, the indexed one with [edge = 0]. *)
Definition anms_variants_agree (H0 : ndarray A) (n : Z) (c : A)
    (use_thresh : bool) : Prop :=
  exists bf kd,
    anms np_mean np_std H0 n c use_thresh true = Ok bf
    /\ anms_kdtree np_mean np_std tree KDTree query H0 n c 0 use_thresh true = Ok kd
    /\ forall p, In p (result_points bf) <-> In p (result_points kd).
End VariantsTheorem.

(** On the 7x9 map, with the minimum as threshold, brute force selects
    four points, while with [edge = 0] the indexed variant trims the map
    to nothing ([H[0:-0, 0:-0]] is empty) and raises on its minimum,
    whatever the spatial index is. *)
Lemma anms_variants_agree_counterexample :
  ~ exists (tree : Type) (KDTree : list (Z * Z) -> result tree)
           (query : tree -> Z * Z -> Z -> list (radius * Z)),
      anms_variants_agree qstat qstat tree KDTree query peaks7x9 100 (9 # 10) false.
Proof.
  intros (tree & KDTree & query & bf & kd & _ & Hkd & _).
  discriminate Hkd.
Qed.

(** With a margin of 1 the strongest peak is selected by brute force only. *)
Example anms_peaks_trimmed :
  anms qstat qstat peaks_trimmed 100 (9 # 10) false true
  = Ok (Zipped [(1, 1); (7, 1); (4, 3); (1, 5)]).
Proof. vm_compute. reflexivity. Qed.

(* ================================================================== *)
(** ** True convolution *)

Lemma range_shift (lo hi d : Z) :
  range (lo + d) (hi + d) = map (fun i => i + d) (range lo hi).
Proof.
  unfold range. rewrite map_map.
  replace (hi + d - (lo + d)) with (hi - lo) by lia.
  apply map_ext. intros i. lia.
Qed.

Lemma rev_seq_0 (n : nat) :
  rev (seq 0 n) = map (fun i => (n - 1 - i)%nat) (seq 0 n).
Proof.
  induction n as [|n IH]; [reflexivity|].
  rewrite seq_S at 1. rewrite rev_app_distr. cbn [rev app Nat.add].
  rewrite IH. cbn [seq map]. f_equal; [lia|].
  rewrite <- seq_shift, map_map. apply map_ext. intros i. lia.
Qed.

Lemma rev_range (lo hi : Z) :
  rev (range lo hi) = map (fun i => lo + hi - 1 - i) (range lo hi).
Proof.
  unfold range. rewrite <- map_rev, rev_seq_0, !map_map.
  apply map_ext_in. intros i Hi. apply in_seq in Hi. lia.
Qed.

Lemma rev_concat {T : Type} (l : list (list T)) :
  rev (concat l) = concat (map (@rev T) (rev l)).
Proof.
  induction l as [|x l IH]; [reflexivity|].
  cbn [concat rev]. rewrite rev_app_distr, IH, map_app, concat_app.
  cbn. now rewrite app_nil_r.
Qed.

Section TrueConvolution.
  Context {A : Type} `{Scalar A}.
  Variable uninit : Z -> Z -> A.

(** The sum of the specification: over [dv] and [du] from [-r] to [r],
    [image[v - dv, u - du] * kernel[dv + r, du + r]]. *)
Definition conv_sum (img kern : ndarray A) (r v u : Z) : A :=
  fold_left sadd
    (concat (map (fun dv =>
                    map (fun du => smul (item img (v - dv) (u - du))
                                        (item kern (dv + r) (du + r)))
                        (range (- r) (r + 1)))
                 (range (- r) (r + 1))))
    szero.

(** The products that the code sums are those of the specification, met
    in the opposite order. *)
Lemma conv_terms_rev (g h : ndarray A) (r v u : Z) :
  conv_terms g h r v u
  = rev (concat (map (fun dv =>
                        map (fun du => smul (item g (v - dv) (u - du))
                                            (item h (dv + r) (du + r)))
                            (range (- r) (r + 1)))
                     (range (- r) (r + 1)))).
Proof.
  rewrite rev_concat, <- map_rev, map_map.
  assert (Hrev : rev (range (- r) (r + 1))
                 = map (fun i => r - i) (range 0 (2 * r + 1))).
  { rewrite rev_range.
    replace (range (- r) (r + 1)) with (range (0 + - r) (2 * r + 1 + - r))
      by (f_equal; lia).
    rewrite range_shift, map_map. apply map_ext. intros i. lia. }
  rewrite Hrev, map_map. unfold conv_terms. f_equal.
  apply map_ext. intros i.
  rewrite <- map_rev, Hrev, map_map.
  apply map_ext. intros j. f_equal; f_equal; lia.
Qed.

Hypothesis sadd_assoc : forall x y z : A, sadd x (sadd y z) = sadd (sadd x y) z.
Hypothesis sadd_comm : forall x y : A, sadd x y = sadd y x.

Lemma fold_sadd_rev (l : list A) (a : A) :
  fold_left sadd (rev l) a = fold_left sadd l a.
Proof.
  rewrite (fold_symmetric _ sadd_assoc a (fun y => sadd_comm a y) (rev l)).
  rewrite fold_left_rev_right.
  apply fold_left_ext_in. intros acc x _. apply sadd_comm.
Qed.

Lemma conv_cell_sum (g h : ndarray A) (r v u : Z) :
  conv_cell g h r v u = conv_sum g h r v u.
Proof.
  unfold conv_cell, conv_sum. rewrite conv_terms_rev. apply fold_sadd_rev.
Qed.

(** The sum around an interior cell only reads the image. *)
Lemma conv_sum_centred (img ci kern : ndarray A) (r v u : Z) :
  centred img ci r ->
  r <= v < shape0 img - r -> r <= u < shape1 img - r ->
  conv_sum ci kern r (r + v) (r + u) = conv_sum img kern r v u.
Proof.
  intros (_ & _ & Hcen) Hv Hu. unfold conv_sum. f_equal. f_equal.
  apply map_ext_in. intros dv Hdv. apply in_range in Hdv.
  apply map_ext_in. intros du Hdu. apply in_range in Hdu.
  f_equal.
  replace (r + v - dv) with (r + (v - dv)) by lia.
  replace (r + u - du) with (r + (u - du)) by lia.
  apply Hcen; lia.
Qed.

(** For a square kernel of side [2r+1]: in "valid" mode for every [r],
    and in the padded modes for [r >= 1], [convolve2d] returns an array of
    the image's shape whose interior cells hold the true convolution,
    [sum over (dv, du) of image[v-dv, u-du] * kernel[dv+r, du+r]]. *)
Theorem convolve2d_true_convolution
    (img kern : ndarray A) (r : Z) (mode : string) (fill : A) :
  wf_array img -> 0 <= r ->
  shape0 kern = 2 * r + 1 -> shape1 kern = 2 * r + 1 ->
  mode = "valid"%string
  \/ (In mode padded_modes /\ 1 <= r
      /\ (mode = "wrap"%string ->
          (r <= shape0 img \/ shape0 img = 1)
          /\ (r <= shape1 img \/ shape1 img = 1))) ->
  exists out,
    convolve2d uninit img kern mode fill = Ok out
    /\ shape0 out = shape0 img /\ shape1 out = shape1 img
    /\ forall v u, r <= v < shape0 img - r -> r <= u < shape1 img - r ->
         item out v u = conv_sum img kern r v u.
Proof.
  intros Hwf Hr Hk0 Hk1 [->|(Hin & Hr1 & Hwrap)].
  - destruct (convolve2d_valid uninit img kern r fill Hr Hk0 Hk1)
      as (out & Hout & Hs0 & Hs1 & Hcell).
    exists out. repeat split; try assumption.
    intros v u Hv Hu. rewrite Hcell. unfold interior.
    replace ((r <=? v) && (v <? shape0 img - r) && (r <=? u) && (u <? shape1 img - r))
      with true by (symmetry; box_true).
    apply conv_cell_sum.
  - destruct (padded_input uninit img r mode fill Hwf Hr1 Hin Hwrap)
      as (ci & Hci & Hcen).
    destruct (convolve2d_padded uninit img kern ci r mode fill Hwf Hr1 Hk0 Hk1
                (padded_mode_not_valid mode Hin) Hci Hcen)
      as (out & Hout & Hs0 & Hs1 & Hcell).
    exists out. repeat split; try assumption.
    intros v u Hv Hu. rewrite Hcell by lia.
    rewrite conv_cell_sum. now apply conv_sum_centred.
Qed.
End TrueConvolution.

(** Witness: the 3x3 image convolved with itself in "fill" mode; the
    centre cell is 1*9 + 2*8 + 3*7 + 4*6 + 5*5 + 6*4 + 7*3 + 8*2 + 9*1. *)
Lemma convolve2d_true_convolution_witness :
  exists out,
    convolve2d junk img3x3 img3x3 "fill" 0 = Ok out /\ item out 1 1 = 165.
Proof.
  destruct (@convolve2d_true_convolution Z Scalar_Z junk Z.add_assoc Z.add_comm
              img3x3 img3x3 1 "fill" 0 wf_img3x3)
    as (out & Hout & _ & _ & Hcell).
  - lia.
  - reflexivity.
  - reflexivity.
  - right. split; [cbn; tauto|]. split; [lia|]. intros Hmode. discriminate Hmode.
  - exists out. split; [exact Hout|].
    rewrite Hcell by (cbn; lia). reflexivity.
Defined.

(* ================================================================== *)
(** ** Further properties of the padding and of the Gaussian kernel *)

(** In "extend" mode every padded sample is the nearest edge sample of a
    non-empty image (clamp to edge). *)
Theorem extend_padding_clamps {A : Type} `{Scalar A} (uninit : Z -> Z -> A)
    (img : ndarray A) (r : Z) (fill : A) :
  1 <= shape0 img -> 1 <= shape1 img -> 1 <= r ->
  exists ci,
    conv_input_of uninit img r "extend" fill = Ok ci
    /\ shape0 ci = shape0 img + 2 * r /\ shape1 ci = shape1 img + 2 * r
    /\ forall i j, 0 <= i < shape0 img + 2 * r -> 0 <= j < shape1 img + 2 * r ->
         item ci i j = item img (clamp (shape0 img) (i - r))
                                (clamp (shape1 img) (j - r)).
Proof.
  intros HM HN Hr.
  destruct (extend_input uninit img r fill ltac:(split; lia) Hr)
    as (ci & Hci & (Hs0 & Hs1 & _) & Hcell).
  exists ci. repeat split; try assumption. now apply Hcell.
Qed.

Lemma extend_padding_clamps_witness :
  exists ci,
    conv_input_of junk img3x3 1 "extend" 0 = Ok ci
    /\ shape0 ci = 3 + 2 * 1 /\ shape1 ci = 3 + 2 * 1
    /\ forall i j, 0 <= i < 3 + 2 * 1 -> 0 <= j < 3 + 2 * 1 ->
         item ci i j = item img3x3 (clamp 3 (i - 1)) (clamp 3 (j - 1)).
Proof.
  apply (extend_padding_clamps junk img3x3 1 0); cbn; lia.
Defined.

(** In "wrap" mode, for an image with at least [r] rows and columns, every
    padded sample is the sample one period away: the padded input is the
    image continued periodically, corner blocks included. *)
Theorem wrap_padding_is_periodic {A : Type} `{Scalar A} (uninit : Z -> Z -> A)
    (img : ndarray A) (r : Z) (fill : A) :
  1 <= r -> r <= shape0 img -> r <= shape1 img ->
  exists ci,
    conv_input_of uninit img r "wrap" fill = Ok ci
    /\ shape0 ci = shape0 img + 2 * r /\ shape1 ci = shape1 img + 2 * r
    /\ forall i j, 0 <= i < shape0 img + 2 * r -> 0 <= j < shape1 img + 2 * r ->
         item ci i j = item img ((i - r) mod shape0 img) ((j - r) mod shape1 img).
Proof.
  intros Hr HM HN.
  destruct (wrap_input uninit img r fill ltac:(split; lia) Hr
              (or_introl HM) (or_introl HN))
    as (ci & Hci & (Hs0 & Hs1 & _) & Hcell).
  exists ci. repeat split; try assumption.
  intros i j Hi Hj. rewrite (Hcell HM HN i j Hi Hj).
  assert (Hwrap : forall n x, r <= n -> - r <= x < n + r -> wrap_index n x = x mod n).
  { intros n x Hn Hx. unfold wrap_index.
    destruct (Z.ltb_spec x 0).
    - apply (Z.mod_unique x n (-1)); lia.
    - destruct (Z.leb_spec n x).
      + apply (Z.mod_unique x n 1); lia.
      + symmetry. apply Z.mod_small. lia. }
  rewrite !Hwrap by lia. reflexivity.
Qed.

Lemma wrap_padding_is_periodic_witness :
  exists ci,
    conv_input_of junk img3x3 1 "wrap" 0 = Ok ci
    /\ shape0 ci = 3 + 2 * 1 /\ shape1 ci = 3 + 2 * 1
    /\ forall i j, 0 <= i < 3 + 2 * 1 -> 0 <= j < 3 + 2 * 1 ->
         item ci i j = item img3x3 ((i - 1) mod 3) ((j - 1) mod 3).
Proof.
  apply (wrap_padding_is_periodic junk img3x3 1 0); cbn; lia.
Defined.

(** The Gaussian kernel of an odd positive size is unchanged by a rotation
    of 180 degrees. *)
Theorem gaussian_kernel_symmetric (uninit : Z -> Z -> R) (n sigma : Z) :
  0 < n -> Z.odd n = true -> sigma <> 0 ->
  exists h,
    get_gaussian_kernel uninit (PyInt n) (PyInt sigma) = Ok h
    /\ forall row col, 0 <= row < n -> 0 <= col < n ->
         item h (n - 1 - row) (n - 1 - col) = item h row col.
Proof.
  intros Hn Hodd Hs.
  destruct (get_gaussian_kernel_odd uninit n sigma Hn Hodd Hs)
    as (h & Hh & _ & _ & Hcell & _).
  exists h. split; [exact Hh|].
  intros row col Hrow Hcol. rewrite !Hcell by lia.
  f_equal. unfold gauss_weight. f_equal. f_equal. f_equal. f_equal.
  assert (Hmean : n = 2 * (n / 2) + 1).
  { rewrite (Z.div_mod n 2) at 1 by lia. rewrite Zmod_odd, Hodd. reflexivity. }
  set (mean := n / 2) in *.
  replace (n - 1 - col - mean) with (- (col - mean)) by lia.
  replace (n - 1 - row - mean) with (- (row - mean)) by lia.
  rewrite !Z.pow_2_r. ring.
Qed.

Lemma gaussian_kernel_symmetric_witness :
  exists h,
    get_gaussian_kernel (fun _ _ => 0%R) (PyInt 11) (PyInt 2) = Ok h
    /\ forall row col, 0 <= row < 11 -> 0 <= col < 11 ->
         item h (11 - 1 - row) (11 - 1 - col) = item h row col.
Proof.
  apply (gaussian_kernel_symmetric (fun _ _ => 0%R) 11 2);
    [lia | reflexivity | discriminate].
Defined.

(* ================================================================== *)
(** ** Edge behaviour of the convolution *)

Section ConvolveEdges.
  Context {A : Type} `{Scalar A}.
  Variable uninit : Z -> Z -> A.

(** In "valid" mode, for every square kernel of side [2r+1], the result
    has the shape of the image and every cell closer than [r] to an edge
    is zero; an image with a dimension of at most [2r] gives the zero
    array. *)
Theorem convolve2d_valid_border_is_zero (img kern : ndarray A) (r : Z) (fill : A) :
  0 <= r -> shape0 kern = 2 * r + 1 -> shape1 kern = 2 * r + 1 ->
  exists out,
    convolve2d uninit img kern "valid" fill = Ok out
    /\ shape0 out = shape0 img /\ shape1 out = shape1 img
    /\ (forall v u,
          v < r \/ shape0 img - r <= v \/ u < r \/ shape1 img - r <= u ->
          item out v u = szero)
    /\ (shape0 img <= 2 * r \/ shape1 img <= 2 * r ->
        forall v u, item out v u = szero).
Proof.
  intros Hr Hk0 Hk1.
  destruct (convolve2d_valid uninit img kern r fill Hr Hk0 Hk1)
    as (out & Hout & Hs0 & Hs1 & Hcell).
  exists out. split; [exact Hout|]. split; [exact Hs0|]. split; [exact Hs1|].
  split.
  - intros v u Hvu. rewrite Hcell. unfold interior.
    replace ((r <=? v) && (v <? shape0 img - r) && (r <=? u) && (u <? shape1 img - r))
      with false by (symmetry; box_false).
    reflexivity.
  - intros Hsmall v u. rewrite Hcell. unfold interior.
    replace ((r <=? v) && (v <? shape0 img - r) && (r <=? u) && (u <? shape1 img - r))
      with false by (symmetry; box_false).
    reflexivity.
Qed.

(** In "fill" mode the padded input holds the image in its centre and the
    fill value in every other cell. *)
Theorem fill_padding_is_constant (img : ndarray A) (r : Z) (fill : A) :
  wf_array img -> 1 <= r ->
  exists ci,
    conv_input_of uninit img r "fill" fill = Ok ci
    /\ shape0 ci = shape0 img + 2 * r /\ shape1 ci = shape1 img + 2 * r
    /\ forall i j, 0 <= i < shape0 img + 2 * r -> 0 <= j < shape1 img + 2 * r ->
         item ci i j =
           if (r <=? i) && (i <? r + shape0 img) && (r <=? j) && (j <? r + shape1 img)
           then item img (i - r) (j - r) else fill.
Proof.
  intros Hwf Hr.
  destruct (fill_input uninit img r fill Hwf Hr)
    as (ci & Hci & (Hs0 & Hs1 & _) & Hcell).
  exists ci. split; [exact Hci|]. split; [exact Hs0|]. split; [exact Hs1|].
  intros i j Hi Hj. rewrite Hcell. unfold in_box.
  destruct ((r <=? i) && (i <? r + shape0 img) && (r <=? j) && (j <? r + shape1 img));
    [reflexivity|].
  replace ((0 <=? i) && (i <? 0 + (shape0 img + 2 * r))
           && (0 <=? j) && (j <? 0 + (shape1 img + 2 * r)))
    with true by (symmetry; box_true).
  reflexivity.
Qed.

(** Each image dimension spans at least one kernel radius, or is 1: what
    "wrap" needs to copy whole blocks of the image. *)
Definition wrap_fits (img : ndarray A) (r : Z) : Prop :=
  (r <= shape0 img \/ shape0 img = 1) /\ (r <= shape1 img \/ shape1 img = 1).

Lemma wrap_input_raises (img : ndarray A) (r : Z) (fill : A) :
  wf_array img -> 1 <= r -> ~ wrap_fits img r ->
  conv_input_of uninit img r "wrap" fill = Raise BroadcastError.
Proof.
  intros [HM HN] Hr Hbad.
  unfold conv_input_of. mode_tests. rewrite np_empty_ok by lia. cbn [bind].
  remember (shape0 img) as M eqn:EM. remember (shape1 img) as N eqn:EN.
  pad_step (mk_array (M + 2 * r) (N + 2 * r) uninit) (sl r (- r)) (sl r (- r)) img
           r M r N cin1 Hrun1 Hsh10 Hsh11 Hcell1.
  destruct (Z_le_gt_dec r M) as [HrM|HrM]; [|destruct (Z.eq_dec M 1) as [HM1|HM1]].
  3:{ (* too few rows: the top block does not fit *)
      rewrite set_slice_raises; [reflexivity|].
      apply andb_false_iff. left.
      cbn [view shape0]. rewrite Hsh10, <- EM.
      unfold broadcastable. apply orb_false_iff.
      rewrite !Z.eqb_neq. slice_bounds. }
  all: assert (HbadN : ~ (r <= N \/ N = 1))
         by (intros HN'; apply Hbad; unfold wrap_fits; rewrite <- EM, <- EN;
             split; [lia | exact HN']).
  all: pad_step cin1 (sl_to r) (sl r (- r)) (view img (sl_from (- r)) sl_all)
                0 r r N cin2 Hrun2 Hsh20 Hsh21 Hcell2.
  all: pad_step cin2 (sl_from (- r)) (sl r (- r)) (view img (sl_to r) sl_all)
                (M + r) r r N cin3 Hrun3 Hsh30 Hsh31 Hcell3.
  all: rewrite set_slice_raises; [reflexivity|].
  all: apply andb_false_iff; right.
  all: cbn [view shape1]; rewrite Hsh31, <- EN.
  all: unfold broadcastable; apply orb_false_iff.
  all: rewrite !Z.eqb_neq; slice_bounds.
Qed.

Lemma convolve2d_wrap_raises (img kern : ndarray A) (r : Z) (fill : A) :
  wf_array img -> 1 <= r -> shape0 kern = 2 * r + 1 -> ~ wrap_fits img r ->
  convolve2d uninit img kern "wrap" fill = Raise BroadcastError.
Proof.
  intros Hwf Hr Hk0 Hbad. unfold convolve2d. mode_tests.
  replace (shape0 kern / 2) with r by (rewrite Hk0; apply Z.div_unique with 1; lia).
  now rewrite (wrap_input_raises img r fill Hwf Hr Hbad).
Qed.

(** "wrap" mode copies blocks of [r] rows and columns of the image into
    the padding: with a square kernel of side [2r+1], [r >= 1], a result
    of the image's shape is returned when each image dimension is at
    least [r], or 1, and numpy's broadcast error is raised otherwise. *)
Theorem convolve2d_wrap_needs_a_period (img kern : ndarray A) (r : Z) (fill : A) :
  wf_array img -> 1 <= r ->
  shape0 kern = 2 * r + 1 -> shape1 kern = 2 * r + 1 ->
  (wrap_fits img r ->
   exists out, convolve2d uninit img kern "wrap" fill = Ok out
               /\ shape0 out = shape0 img /\ shape1 out = shape1 img)
  /\ (~ wrap_fits img r ->
      convolve2d uninit img kern "wrap" fill = Raise BroadcastError).
Proof.
  intros Hwf Hr Hk0 Hk1. split.
  - intros [H0 H1].
    destruct (wrap_input uninit img r fill Hwf Hr H0 H1) as (ci & Hci & Hcen & _).
    destruct (convolve2d_padded uninit img kern ci r "wrap" fill Hwf Hr Hk0 Hk1
                eq_refl Hci Hcen)
      as (out & Hout & Hs0 & Hs1 & _).
    exists out. auto.
  - intros Hbad. now apply (convolve2d_wrap_raises img kern r fill).
Qed.

(** A kernel with an even number [2r] of rows, [r >= 1], cannot be
    multiplied with the [2r+1] by [2r+1] window cut around a cell:
    [_convolve] raises the broadcast error at the first cell whose window
    fits, that is as soon as both dimensions of its input exceed [2r]. *)
Lemma _convolve_even_kernel (g h : ndarray A) (r : Z) :
  1 <= r -> shape0 h = 2 * r ->
  2 * r < shape0 g -> 2 * r < shape1 g ->
  _convolve g h = Raise BroadcastError.
Proof.
  intros Hr Hh0 Hg0 Hg1. unfold _convolve.
  replace (shape0 h / 2) with r by (rewrite Hh0; apply Z.div_unique with 0; lia).
  rewrite (range_cons r (shape0 g - r)) by lia. cbn [for_each].
  rewrite (range_cons r (shape1 g - r)) by lia. cbn [for_each].
  unfold np_mul at 1. cbn [view flip01 shape0 shape1].
  rewrite Hh0.
  replace (slice_len (sl (r - r) (r + r + 1)) (shape0 g)) with (2 * r + 1)
    by slice_bounds.
  replace (broadcastable (2 * r + 1) (2 * r) || broadcastable (2 * r) (2 * r + 1))
    with false
    by (symmetry; unfold broadcastable; rewrite !orb_false_iff, !Z.eqb_neq; lia).
  reflexivity.
Qed.

(** [convolve2d] with a kernel of [2r] rows, [r >= 1], raises the broadcast
    error: in "valid" mode when both image dimensions exceed [2r], in a
    padded mode for every image that the padding accepts and that is not
    empty. *)
Theorem convolve2d_even_kernel_raises
    (img kern : ndarray A) (r : Z) (mode : string) (fill : A) :
  1 <= r -> shape0 kern = 2 * r ->
  (mode = "valid"%string /\ 2 * r < shape0 img /\ 2 * r < shape1 img)
  \/ (In mode padded_modes /\ 1 <= shape0 img /\ 1 <= shape1 img
      /\ (mode = "wrap"%string -> wrap_fits img r)) ->
  convolve2d uninit img kern mode fill = Raise BroadcastError.
Proof.
  intros Hr Hk0 [(-> & HM & HN)|(Hin & HM & HN & Hwrap)].
  - unfold convolve2d. mode_tests. now apply _convolve_even_kernel with r.
  - unfold convolve2d. rewrite (padded_mode_not_valid mode Hin).
    replace (shape0 kern / 2) with r by (rewrite Hk0; apply Z.div_unique with 0; lia).
    destruct (padded_input uninit img r mode fill) as (ci & Hci & Hs0 & Hs1 & _);
      [split; lia | exact Hr | exact Hin | exact Hwrap |].
    rewrite Hci. cbn [bind].
    rewrite (_convolve_even_kernel ci kern r) by lia.
    reflexivity.
Qed.

(** The padded sample at [(i, j)] in closed form, for an image with at
    least [r] rows and columns. *)
Definition pad_sample (img : ndarray A) (r : Z) (mode : string) (fill : A)
    (i j : Z) : A :=
  if (mode =? "fill")%string then
    if in_box r (shape0 img) r (shape1 img) i j
    then item img (i - r) (j - r) else fill
  else if (mode =? "extend")%string then
    item img (clamp (shape0 img) (i - r)) (clamp (shape1 img) (j - r))
  else if (mode =? "mirror")%string then
    item img (reflect (shape0 img) (i - r)) (reflect (shape1 img) (j - r))
  else
    item img (wrap_index (shape0 img) (i - r)) (wrap_index (shape1 img) (j - r)).

Lemma padded_cells (img : ndarray A) (r : Z) (mode : string) (fill : A) :
  1 <= r -> In mode padded_modes -> r <= shape0 img -> r <= shape1 img ->
  exists ci,
    conv_input_of uninit img r mode fill = Ok ci /\ centred img ci r
    /\ forall i j, 0 <= i < shape0 img + 2 * r -> 0 <= j < shape1 img + 2 * r ->
         item ci i j = pad_sample img r mode fill i j.
Proof.
  intros Hr Hin HM HN.
  assert (Hwf : wf_array img) by (split; lia).
  cbn in Hin. destruct Hin as [<-|[<-|[<-|[<-|[]]]]]; unfold pad_sample; mode_tests.
  - destruct (fill_input uninit img r fill Hwf Hr) as (ci & Hci & Hcen & Hcell).
    exists ci. split; [exact Hci|]. split; [exact Hcen|].
    intros i j Hi Hj. rewrite Hcell.
    destruct (in_box r (shape0 img) r (shape1 img) i j); [reflexivity|].
    unfold in_box.
    replace ((0 <=? i) && (i <? 0 + (shape0 img + 2 * r))
             && (0 <=? j) && (j <? 0 + (shape1 img + 2 * r)))
      with true by (symmetry; box_true).
    reflexivity.
  - destruct (extend_input uninit img r fill Hwf Hr) as (ci & Hci & Hcen & Hcell).
    exists ci. split; [exact Hci|]. split; [exact Hcen|].
    apply Hcell; lia.
  - destruct (mirror_input uninit img r fill Hwf Hr) as (ci & Hci & Hcen & Hcell).
    exists ci. split; [exact Hci|]. split; [exact Hcen|].
    apply Hcell; lia.
  - destruct (wrap_input uninit img r fill Hwf Hr (or_introl HM) (or_introl HN))
      as (ci & Hci & Hcen & Hcell).
    exists ci. split; [exact Hci|]. split; [exact Hcen|].
    apply Hcell; lia.
Qed.

(** A window sum reads its input inside the window only. *)
Lemma conv_cell_ext (g g' h : ndarray A) (r v u : Z) :
  (forall i j, 0 <= i < 2 * r + 1 -> 0 <= j < 2 * r + 1 ->
     item g (v - r + i) (u - r + j) = item g' (v - r + i) (u - r + j)) ->
  conv_cell g h r v u = conv_cell g' h r v u.
Proof.
  intros Hext. unfold conv_cell, conv_terms. f_equal. f_equal.
  apply map_ext_in. intros i Hi. apply in_range in Hi.
  apply map_ext_in. intros j Hj. apply in_range in Hj.
  f_equal. now apply Hext.
Qed.

(** The result of a padded mode, cell by cell, as window sums over the
    closed form of the padded input. *)
Lemma convolve2d_pad_sample (img kern : ndarray A) (r : Z) (mode : string) (fill : A) :
  1 <= r -> shape0 kern = 2 * r + 1 -> shape1 kern = 2 * r + 1 ->
  In mode padded_modes -> r <= shape0 img -> r <= shape1 img ->
  exists out,
    convolve2d uninit img kern mode fill = Ok out
    /\ shape0 out = shape0 img /\ shape1 out = shape1 img
    /\ forall v u, 0 <= v < shape0 img -> 0 <= u < shape1 img ->
         item out v u
         = conv_cell (mk_array (shape0 img + 2 * r) (shape1 img + 2 * r)
                               (pad_sample img r mode fill))
                     kern r (r + v) (r + u).
Proof.
  intros Hr Hk0 Hk1 Hin HM HN.
  destruct (padded_cells img r mode fill Hr Hin HM HN) as (ci & Hci & Hcen & Hcell).
  destruct (convolve2d_padded uninit img kern ci r mode fill ltac:(split; lia)
              Hr Hk0 Hk1 (padded_mode_not_valid mode Hin) Hci Hcen)
    as (out & Hout & Hs0 & Hs1 & Hitem).
  exists out. split; [exact Hout|]. split; [exact Hs0|]. split; [exact Hs1|].
  intros v u Hv Hu. rewrite Hitem by assumption.
  apply conv_cell_ext. intros i j Hi Hj. cbn [item].
  apply Hcell; lia.
Qed.
End ConvolveEdges.

(** The samples that [np.empty] leaves uninitialised never reach the result
    of a padded mode when the image has at least [r] rows and columns:
    whatever the fresh memory holds, the same rows are returned. *)
Theorem convolve2d_ignores_uninitialised {A : Type} `{Scalar A}
    (uninit uninit' : Z -> Z -> A) (img kern : ndarray A) (r : Z) (mode : string)
    (fill : A) :
  1 <= r -> shape0 kern = 2 * r + 1 -> shape1 kern = 2 * r + 1 ->
  In mode padded_modes -> r <= shape0 img -> r <= shape1 img ->
  exists out out',
    convolve2d uninit img kern mode fill = Ok out
    /\ convolve2d uninit' img kern mode fill = Ok out'
    /\ to_rows out = to_rows out'.
Proof.
  intros Hr Hk0 Hk1 Hin HM HN.
  destruct (convolve2d_pad_sample uninit img kern r mode fill Hr Hk0 Hk1 Hin HM HN)
    as (out & Hout & Hs0 & Hs1 & Hcell).
  destruct (convolve2d_pad_sample uninit' img kern r mode fill Hr Hk0 Hk1 Hin HM HN)
    as (out' & Hout' & Hs0' & Hs1' & Hcell').
  exists out, out'. split; [exact Hout|]. split; [exact Hout'|].
  apply to_rows_ext; [congruence | congruence |].
  intros v u Hv Hu. rewrite Hs0 in Hv. rewrite Hs1 in Hu.
  now rewrite Hcell, Hcell'.
Qed.

(** Witnesses on the 3x3 integer image. *)
Lemma convolve2d_valid_border_is_zero_witness :
  exists out,
    convolve2d junk img3x3 impulse3x3 "valid" 0 = Ok out
    /\ shape0 out = shape0 img3x3 /\ shape1 out = shape1 img3x3
    /\ (forall v u,
          v < 1 \/ shape0 img3x3 - 1 <= v \/ u < 1 \/ shape1 img3x3 - 1 <= u ->
          item out v u = 0)
    /\ (shape0 img3x3 <= 2 * 1 \/ shape1 img3x3 <= 2 * 1 ->
        forall v u, item out v u = 0).
Proof.
  exact (convolve2d_valid_border_is_zero junk img3x3 impulse3x3 1 0
           ltac:(lia) eq_refl eq_refl).
Defined.

Lemma fill_padding_is_constant_witness :
  exists ci,
    conv_input_of junk img3x3 1 "fill" 0 = Ok ci
    /\ shape0 ci = shape0 img3x3 + 2 * 1 /\ shape1 ci = shape1 img3x3 + 2 * 1
    /\ forall i j, 0 <= i < shape0 img3x3 + 2 * 1 -> 0 <= j < shape1 img3x3 + 2 * 1 ->
         item ci i j =
           if (1 <=? i) && (i <? 1 + shape0 img3x3) && (1 <=? j) && (j <? 1 + shape1 img3x3)
           then item img3x3 (i - 1) (j - 1) else 0.
Proof.
  apply (fill_padding_is_constant junk img3x3 1 0); [exact wf_img3x3 | lia].
Defined.

(** A 2x2 image under a kernel of radius 3 does not span a period; the
    3x3 image under a kernel of radius 1 does. *)
Definition box7x7 : ndarray Z := mk_array 7 7 (fun _ _ => 1).

Lemma convolve2d_wrap_needs_a_period_witness :
  (exists out, convolve2d junk img3x3 impulse3x3 "wrap" 0 = Ok out
               /\ shape0 out = shape0 img3x3 /\ shape1 out = shape1 img3x3)
  /\ convolve2d junk img2x2 box7x7 "wrap" 0 = Raise BroadcastError.
Proof.
  split.
  - apply (convolve2d_wrap_needs_a_period junk img3x3 impulse3x3 1 0);
      [exact wf_img3x3 | lia | reflexivity | reflexivity |].
    split; left; cbn; lia.
  - apply (convolve2d_wrap_needs_a_period junk img2x2 box7x7 3 0);
      [split; cbn; lia | lia | reflexivity | reflexivity |].
    intros [[Hr|Hr] _]; cbn in Hr; lia.
Defined.

Lemma convolve2d_even_kernel_raises_witness :
  convolve2d junk img3x3 img2x2 "valid" 0 = Raise BroadcastError.
Proof.
  apply (convolve2d_even_kernel_raises junk img3x3 img2x2 1 "valid" 0);
    [lia | reflexivity |].
  left. split; [reflexivity|]. cbn. lia.
Defined.

Lemma convolve2d_ignores_uninitialised_witness :
  exists out out',
    convolve2d junk img3x3 impulse3x3 "mirror" 0 = Ok out
    /\ convolve2d (fun _ _ => 7) img3x3 impulse3x3 "mirror" 0 = Ok out'
    /\ to_rows out = to_rows out'.
Proof.
  apply (convolve2d_ignores_uninitialised junk (fun _ _ => 7) img3x3 impulse3x3 1
           "mirror" 0);
    [lia | reflexivity | reflexivity | cbn; tauto | cbn; lia | cbn; lia].
Defined.

(** With fewer than [r] rows, "mirror" reflects rows of the padded input
    that have not been written yet: the result shows what the fresh memory
    held. *)
Example mirror_short_image_reads_uninitialised :
  let img1x1 := of_rows 0 [[5]] in
  let ones5x5 := mk_array 5 5 (fun _ _ => 1) in
  option_map to_rows
    (match convolve2d (fun _ _ => 0) img1x1 ones5x5 "mirror" 0 with
     | Ok out => Some out | Raise _ => None end)
  <> option_map to_rows
       (match convolve2d (fun _ _ => 1) img1x1 ones5x5 "mirror" 0 with
        | Ok out => Some out | Raise _ => None end).
Proof. vm_compute. discriminate. Qed.

(* ================================================================== *)
(** ** Algebra of the convolution *)

(** The cells of a kernel window, row by row. *)
Definition window (r : Z) : list (Z * Z) :=
  list_prod (range 0 (2 * r + 1)) (range 0 (2 * r + 1)).

Lemma concat_map_list_prod {X Y T : Type} (f : X -> Y -> T) (l : list X)
    (l' : list Y) :
  concat (map (fun i => map (fun j => f i j) l') l)
  = map (fun ij => f (fst ij) (snd ij)) (list_prod l l').
Proof.
  induction l as [|i l IH]; [reflexivity|].
  cbn [map concat list_prod]. rewrite map_app, map_map, IH. reflexivity.
Qed.

Lemma conv_terms_window {A : Type} `{Scalar A} (g h : ndarray A) (r v u : Z) :
  conv_terms g h r v u
  = map (fun ij => smul (item g (v - r + fst ij) (u - r + snd ij))
                        (item h (2 * r - fst ij) (2 * r - snd ij)))
        (window r).
Proof.
  unfold conv_terms, window.
  apply (concat_map_list_prod
           (fun i j => smul (item g (v - r + i) (u - r + j))
                            (item h (2 * r - i) (2 * r - j)))).
Qed.

Lemma in_window (r i j : Z) :
  In (i, j) (window r) <-> 0 <= i < 2 * r + 1 /\ 0 <= j < 2 * r + 1.
Proof. unfold window. now rewrite in_prod_iff, !in_range. Qed.

Section ConvolveAlgebra.
  Context {A : Type} `{Scalar A}.
  Variable uninit : Z -> Z -> A.

  Hypothesis sadd_assoc : forall x y z : A, sadd x (sadd y z) = sadd (sadd x y) z.
  Hypothesis sadd_comm : forall x y : A, sadd x y = sadd y x.
  Hypothesis sadd_0_l : forall x : A, sadd szero x = x.
  Hypothesis smul_0_r : forall x : A, smul x szero = szero.
  Hypothesis smul_add_r :
    forall x y z : A, smul x (sadd y z) = sadd (smul x y) (smul x z).
  Hypothesis smul_add_l :
    forall x y z : A, smul (sadd x y) z = sadd (smul x z) (smul y z).

Lemma fold_sadd_smul (c : A) (l : list A) (a : A) :
  fold_left sadd (map (smul c) l) (smul c a) = smul c (fold_left sadd l a).
Proof.
  revert a. induction l as [|x l IH]; intros a; [reflexivity|].
  cbn [map fold_left]. rewrite <- smul_add_r. apply IH.
Qed.

Lemma fold_sadd_pointwise {X : Type} (f g : X -> A) (l : list X) (a b : A) :
  fold_left sadd (map (fun x => sadd (f x) (g x)) l) (sadd a b)
  = sadd (fold_left sadd (map f l) a) (fold_left sadd (map g l) b).
Proof.
  revert a b. induction l as [|x l IH]; intros a b; [reflexivity|].
  cbn [map fold_left]. rewrite <- IH. f_equal.
  rewrite <- !sadd_assoc. f_equal.
  rewrite !sadd_assoc. rewrite (sadd_comm b (f x)). reflexivity.
Qed.

(** The samples of the flipped kernel are those of the kernel in the
    opposite order, so both have the same sum. *)
Lemma elements_flip01 (h : ndarray A) :
  elements (flip01 h) = rev (elements h).
Proof.
  unfold elements, to_rows. cbn [flip01 shape0 shape1 item].
  rewrite rev_concat, <- map_rev, map_map.
  rewrite rev_range, map_map. f_equal.
  apply map_ext. intros v.
  rewrite <- map_rev, rev_range, map_map.
  apply map_ext. intros u. f_equal; lia.
Qed.

Lemma np_sum_flip01 (h : ndarray A) : np_sum (flip01 h) = np_sum h.
Proof.
  unfold np_sum. rewrite elements_flip01.
  apply (fold_sadd_rev sadd_assoc sadd_comm).
Qed.

(** The window sum over a window that holds one value [c] throughout. *)
Lemma conv_cell_constant (g h : ndarray A) (r v u : Z) (c : A) :
  shape0 h = 2 * r + 1 -> shape1 h = 2 * r + 1 ->
  (forall i j, 0 <= i < 2 * r + 1 -> 0 <= j < 2 * r + 1 ->
     item g (v - r + i) (u - r + j) = c) ->
  conv_cell g h r v u = smul c (np_sum h).
Proof.
  intros Hh0 Hh1 Hc.
  rewrite <- np_sum_flip01. unfold conv_cell, np_sum.
  rewrite <- fold_sadd_smul, smul_0_r. f_equal.
  unfold conv_terms, elements, to_rows. cbn [flip01 shape0 shape1 item].
  rewrite Hh0, Hh1, concat_map, map_map. f_equal.
  apply map_ext_in. intros i Hi. apply in_range in Hi.
  rewrite map_map.
  apply map_ext_in. intros j Hj. apply in_range in Hj.
  rewrite Hc by lia. f_equal. f_equal; lia.
Qed.

(** Indices reached by clamping, reflecting or wrapping stay inside the
    image. *)
Lemma clamp_in_range (n x : Z) : 1 <= n -> 0 <= clamp n x < n.
Proof.
  intros Hn. unfold clamp.
  destruct (Z.ltb_spec x 0); [lia|]. destruct (Z.leb_spec n x); lia.
Qed.

Lemma reflect_in_range (n r x : Z) :
  r <= n -> - r <= x < n + r -> 0 <= reflect n x < n.
Proof.
  intros Hn Hx. unfold reflect.
  destruct (Z.ltb_spec x 0); [lia|]. destruct (Z.leb_spec n x); lia.
Qed.

Lemma wrap_index_in_range (n r x : Z) :
  r <= n -> - r <= x < n + r -> 0 <= wrap_index n x < n.
Proof.
  intros Hn Hx. unfold wrap_index.
  destruct (Z.ltb_spec x 0); [lia|]. destruct (Z.leb_spec n x); lia.
Qed.

(** The modes that pad with samples of the image. *)
Definition sampling_modes : list string := ["extend"; "mirror"; "wrap"]%string.

(** In these modes every padded sample is a sample of the image. *)
Lemma pad_sample_from_image (img : ndarray A) (r : Z) (mode : string) (fill : A)
    (i j : Z) :
  1 <= r -> In mode sampling_modes -> r <= shape0 img -> r <= shape1 img ->
  0 <= i < shape0 img + 2 * r -> 0 <= j < shape1 img + 2 * r ->
  exists v u, 0 <= v < shape0 img /\ 0 <= u < shape1 img
              /\ forall (img' : ndarray A) (fill' : A),
                   shape0 img' = shape0 img -> shape1 img' = shape1 img ->
                   pad_sample img' r mode fill' i j = item img' v u.
Proof.
  intros Hr Hin HM HN Hi Hj. cbn in Hin.
  destruct Hin as [<-|[<-|[<-|[]]]].
  - exists (clamp (shape0 img) (i - r)), (clamp (shape1 img) (j - r)).
    split; [apply clamp_in_range; lia|]. split; [apply clamp_in_range; lia|].
    intros img' fill' E0 E1. unfold pad_sample. mode_tests.
    rewrite E0, E1. reflexivity.
  - exists (reflect (shape0 img) (i - r)), (reflect (shape1 img) (j - r)).
    split; [apply reflect_in_range with r; lia|].
    split; [apply reflect_in_range with r; lia|].
    intros img' fill' E0 E1. unfold pad_sample. mode_tests.
    rewrite E0, E1. reflexivity.
  - exists (wrap_index (shape0 img) (i - r)), (wrap_index (shape1 img) (j - r)).
    split; [apply wrap_index_in_range with r; lia|].
    split; [apply wrap_index_in_range with r; lia|].
    intros img' fill' E0 E1. unfold pad_sample. mode_tests.
    rewrite E0, E1. reflexivity.
Qed.

Lemma sampling_mode_padded (mode : string) :
  In mode sampling_modes -> In mode padded_modes.
Proof. intros Hin. right. exact Hin. Qed.

(** Over an image that holds one value [c] in every cell, with at least
    [r] rows and columns, the modes that pad with image samples return
    [c] times the sum of the kernel in every cell: a kernel that sums to
    one leaves the image unchanged, a kernel that sums to zero gives the
    zero image. *)
Theorem convolve2d_constant_image
    (img kern : ndarray A) (r : Z) (mode : string) (fill c : A) :
  1 <= r -> shape0 kern = 2 * r + 1 -> shape1 kern = 2 * r + 1 ->
  In mode sampling_modes -> r <= shape0 img -> r <= shape1 img ->
  (forall v u, 0 <= v < shape0 img -> 0 <= u < shape1 img -> item img v u = c) ->
  exists out,
    convolve2d uninit img kern mode fill = Ok out
    /\ shape0 out = shape0 img /\ shape1 out = shape1 img
    /\ forall v u, 0 <= v < shape0 img -> 0 <= u < shape1 img ->
         item out v u = smul c (np_sum kern).
Proof.
  intros Hr Hk0 Hk1 Hin HM HN Hconst.
  destruct (convolve2d_pad_sample uninit img kern r mode fill Hr Hk0 Hk1
              (sampling_mode_padded mode Hin) HM HN)
    as (out & Hout & Hs0 & Hs1 & Hcell).
  exists out. split; [exact Hout|]. split; [exact Hs0|]. split; [exact Hs1|].
  intros v u Hv Hu. rewrite Hcell by assumption.
  apply conv_cell_constant; [exact Hk0 | exact Hk1 |].
  intros i j Hi Hj. cbn [item].
  destruct (pad_sample_from_image img r mode fill (r + v - r + i) (r + u - r + j)
              Hr Hin HM HN ltac:(lia) ltac:(lia))
    as (v' & u' & Hv' & Hu' & Hpad).
  rewrite (Hpad img fill eq_refl eq_refl). now apply Hconst.
Qed.

(** The window sum of a sum of two inputs. *)
Lemma conv_cell_additive (g1 g2 g3 h : ndarray A) (r v u : Z) :
  (forall i j, 0 <= i < 2 * r + 1 -> 0 <= j < 2 * r + 1 ->
     item g3 (v - r + i) (u - r + j)
     = sadd (item g1 (v - r + i) (u - r + j)) (item g2 (v - r + i) (u - r + j))) ->
  conv_cell g3 h r v u = sadd (conv_cell g1 h r v u) (conv_cell g2 h r v u).
Proof.
  intros Hsum. unfold conv_cell. rewrite !conv_terms_window.
  rewrite <- fold_sadd_pointwise, sadd_0_l. f_equal.
  apply map_ext_in. intros [i j] Hij. apply in_window in Hij. cbn [fst snd].
  rewrite Hsum by lia. apply smul_add_l.
Qed.

(** [convolve2d] is additive in the image: for images of one shape, the
    result for the cell-wise sum of two images (with the sum of the two
    fill values) is the cell-wise sum of the two results, in "valid" mode
    and, for images with at least [r] rows and columns, in every padded
    mode. *)
Theorem convolve2d_additive
    (img1 img2 img3 kern : ndarray A) (r : Z) (mode : string) (fill1 fill2 : A) :
  shape0 kern = 2 * r + 1 -> shape1 kern = 2 * r + 1 ->
  shape0 img1 = shape0 img3 -> shape1 img1 = shape1 img3 ->
  shape0 img2 = shape0 img3 -> shape1 img2 = shape1 img3 ->
  (forall v u, 0 <= v < shape0 img3 -> 0 <= u < shape1 img3 ->
     item img3 v u = sadd (item img1 v u) (item img2 v u)) ->
  (mode = "valid"%string /\ 0 <= r)
  \/ (In mode padded_modes /\ 1 <= r /\ r <= shape0 img3 /\ r <= shape1 img3) ->
  exists out1 out2 out3,
    convolve2d uninit img1 kern mode fill1 = Ok out1
    /\ convolve2d uninit img2 kern mode fill2 = Ok out2
    /\ convolve2d uninit img3 kern mode (sadd fill1 fill2) = Ok out3
    /\ shape0 out3 = shape0 img3 /\ shape1 out3 = shape1 img3
    /\ forall v u, 0 <= v < shape0 img3 -> 0 <= u < shape1 img3 ->
         item out3 v u = sadd (item out1 v u) (item out2 v u).
Proof.
  intros Hk0 Hk1 H10 H11 H20 H21 Hsum [(-> & Hr)|(Hin & Hr & HM & HN)].
  - destruct (convolve2d_valid uninit img1 kern r fill1 Hr Hk0 Hk1)
      as (out1 & Hout1 & _ & _ & Hcell1).
    destruct (convolve2d_valid uninit img2 kern r fill2 Hr Hk0 Hk1)
      as (out2 & Hout2 & _ & _ & Hcell2).
    destruct (convolve2d_valid uninit img3 kern r (sadd fill1 fill2) Hr Hk0 Hk1)
      as (out3 & Hout3 & Hs0 & Hs1 & Hcell3).
    exists out1, out2, out3. repeat (split; [assumption|]).
    intros v u Hv Hu. rewrite Hcell1, Hcell2, Hcell3.
    unfold interior. rewrite H10, H11, H20, H21.
    destruct ((r <=? v) && (v <? shape0 img3 - r) && (r <=? u) && (u <? shape1 img3 - r))
      eqn:Hint; [|now rewrite sadd_0_l].
    repeat rewrite andb_true_iff in Hint.
    rewrite !Z.leb_le, !Z.ltb_lt in Hint.
    apply conv_cell_additive. intros i j Hi Hj. apply Hsum; lia.
  - destruct (convolve2d_pad_sample uninit img1 kern r mode fill1 Hr Hk0 Hk1 Hin)
      as (out1 & Hout1 & _ & _ & Hcell1); [lia | lia |].
    destruct (convolve2d_pad_sample uninit img2 kern r mode fill2 Hr Hk0 Hk1 Hin)
      as (out2 & Hout2 & _ & _ & Hcell2); [lia | lia |].
    destruct (convolve2d_pad_sample uninit img3 kern r mode (sadd fill1 fill2)
                Hr Hk0 Hk1 Hin HM HN)
      as (out3 & Hout3 & Hs0 & Hs1 & Hcell3).
    exists out1, out2, out3. repeat (split; [assumption|]).
    intros v u Hv Hu.
    rewrite Hcell1, Hcell2, Hcell3 by lia.
    rewrite H10, H11, H20, H21.
    apply conv_cell_additive. intros i j Hi Hj. cbn [item].
    replace (r + v - r + i) with (v + i) by lia.
    replace (r + u - r + j) with (u + j) by lia.
    destruct Hin as [<-|Hin].
    + unfold pad_sample. mode_tests. rewrite H10, H11, H20, H21.
      unfold in_box.
      destruct ((r <=? v + i) && (v + i <? r + shape0 img3)
                && (r <=? u + j) && (u + j <? r + shape1 img3)) eqn:Hbox;
        [|reflexivity].
      repeat rewrite andb_true_iff in Hbox.
      rewrite !Z.leb_le, !Z.ltb_lt in Hbox.
      apply Hsum; lia.
    + destruct (pad_sample_from_image img3 r mode fill1 (v + i) (u + j)
                  Hr Hin HM HN ltac:(lia) ltac:(lia))
        as (v' & u' & Hv' & Hu' & Hpad).
      rewrite (Hpad img1 fill1 H10 H11), (Hpad img2 fill2 H20 H21).
      rewrite (Hpad img3 (sadd fill1 fill2) eq_refl eq_refl).
      now apply Hsum.
Qed.
End ConvolveAlgebra.

(** Witnesses on integer images. *)
Definition flat3x3 : ndarray Z := mk_array 3 3 (fun _ _ => 4).

Lemma convolve2d_constant_image_witness :
  exists out,
    convolve2d junk flat3x3 img3x3 "extend" 0 = Ok out
    /\ shape0 out = shape0 flat3x3 /\ shape1 out = shape1 flat3x3
    /\ forall v u, 0 <= v < shape0 flat3x3 -> 0 <= u < shape1 flat3x3 ->
         item out v u = 4 * np_sum img3x3.
Proof.
  apply (@convolve2d_constant_image Z Scalar_Z junk Z.add_assoc Z.add_comm
           Z.mul_0_r Z.mul_add_distr_l flat3x3 img3x3 1 "extend" 0 4);
    [lia | reflexivity | reflexivity | cbn; tauto | cbn; lia | cbn; lia |].
  intros v u _ _. reflexivity.
Defined.

Definition sum3x3 : ndarray Z :=
  mk_array 3 3 (fun v u => item img3x3 v u + item flat3x3 v u).

Lemma convolve2d_additive_witness :
  exists out1 out2 out3,
    convolve2d junk img3x3 impulse3x3 "wrap" 1 = Ok out1
    /\ convolve2d junk flat3x3 impulse3x3 "wrap" 2 = Ok out2
    /\ convolve2d junk sum3x3 impulse3x3 "wrap" (1 + 2) = Ok out3
    /\ shape0 out3 = shape0 sum3x3 /\ shape1 out3 = shape1 sum3x3
    /\ forall v u, 0 <= v < shape0 sum3x3 -> 0 <= u < shape1 sum3x3 ->
         item out3 v u = item out1 v u + item out2 v u.
Proof.
  apply (@convolve2d_additive Z Scalar_Z junk Z.add_assoc Z.add_comm Z.add_0_l
           Z.mul_add_distr_r img3x3 flat3x3 sum3x3 impulse3x3 1 "wrap" 1 2);
    try reflexivity.
  right. cbn. split; [tauto | lia].
Defined.

(* ================================================================== *)
(** ** The Gaussian kernel of any odd size, and the errors of its builder *)

Section GaussianAnySigma.
  Variable uninit : Z -> Z -> R.

(** [get_gaussian_kernel(n, sigma)] with an odd positive size [n] and an
    integer [sigma] that is not zero, positive or negative, returns an [n]
    by [n] kernel whose cell [(row, col)] is
    [exp(-((col-mean)^2+(row-mean)^2)/(2*sigma^2))], [mean = n // 2], over
    the positive total of these weights, so that it sums to 1. *)
Theorem get_gaussian_kernel_normalised (n sigma : Z) :
  0 < n -> Z.odd n = true -> sigma <> 0 ->
  exists h total,
    get_gaussian_kernel uninit (PyInt n) (PyInt sigma) = Ok h
    /\ shape0 h = n /\ shape1 h = n
    /\ (0 < total)%R
    /\ (forall row col, 0 <= row < n -> 0 <= col < n ->
          item h row col
          = (exp (- IZR ((col - n / 2) ^ 2 + (row - n / 2) ^ 2)
                  / (2 * IZR sigma ^ 2)) / total)%R)
    /\ np_sum h = 1%R.
Proof.
  intros Hn Hodd Hs.
  destruct (get_gaussian_kernel_odd uninit n sigma Hn Hodd Hs)
    as (h & Hh & Hs0 & Hs1 & Hcell & Hsum).
  exists h, (gauss_total n sigma).
  split; [exact Hh|]. split; [exact Hs0|]. split; [exact Hs1|].
  split; [now apply gauss_total_pos|]. split; [exact Hcell | exact Hsum].
Qed.

(** The weights fall with the distance from the centre cell
    [(n // 2, n // 2)]: no cell of the kernel is negative, the centre cell
    is positive, and a cell that is not farther from the centre than
    another holds at least as much; so the centre holds the largest weight
    and cells at equal distance hold equal weights. *)
Theorem gaussian_kernel_falls_from_centre (n sigma : Z) :
  0 < n -> Z.odd n = true -> sigma <> 0 ->
  exists h,
    get_gaussian_kernel uninit (PyInt n) (PyInt sigma) = Ok h
    /\ (forall row col, 0 <= row < n -> 0 <= col < n -> (0 <= item h row col)%R)
    /\ (0 < item h (n / 2) (n / 2))%R
    /\ (forall row col row' col',
          0 <= row < n -> 0 <= col < n -> 0 <= row' < n -> 0 <= col' < n ->
          (col - n / 2) ^ 2 + (row - n / 2) ^ 2
          <= (col' - n / 2) ^ 2 + (row' - n / 2) ^ 2 ->
          (item h row' col' <= item h row col)%R).
Proof.
  intros Hn Hodd Hs.
  destruct (get_gaussian_kernel_odd uninit n sigma Hn Hodd Hs)
    as (h & Hh & _ & _ & Hcell & _).
  pose proof (gauss_total_pos n sigma Hn) as Htot.
  assert (Hden : (0 < 2 * IZR sigma ^ 2)%R).
  { assert (0 < IZR sigma ^ 2)%R; [|lra].
    replace (IZR sigma ^ 2)%R with (Rsqr (IZR sigma)) by (unfold Rsqr; ring).
    apply Rsqr_pos_lt. now apply not_0_IZR. }
  assert (Hpos : forall row col, 0 <= row < n -> 0 <= col < n ->
             (0 < item h row col)%R).
  { intros row col Hrow Hcol. rewrite Hcell by assumption.
    apply Rdiv_lt_0_compat; [apply exp_pos | exact Htot]. }
  exists h. split; [exact Hh|]. split; [|split].
  - intros row col Hrow Hcol. left. now apply Hpos.
  - assert (Hmid : 0 <= n / 2 < n).
    { split; [apply Z.div_pos; lia | apply Z.div_lt_upper_bound; lia]. }
    now apply Hpos.
  - intros row col row' col' Hrow Hcol Hrow' Hcol' Hnear.
    rewrite !Hcell by assumption.
    apply Rmult_le_compat_r; [left; now apply Rinv_0_lt_compat|].
    unfold gauss_weight.
    set (a := (col - n / 2) ^ 2 + (row - n / 2) ^ 2) in *.
    set (b := (col' - n / 2) ^ 2 + (row' - n / 2) ^ 2) in *.
    assert (Hle : (- IZR b / (2 * IZR sigma ^ 2)
                   <= - IZR a / (2 * IZR sigma ^ 2))%R).
    { apply Rmult_le_compat_r; [left; now apply Rinv_0_lt_compat|].
      apply IZR_le in Hnear. lra. }
    destruct Hle as [Hlt|Heq].
    + left. now apply exp_increasing.
    + right. now rewrite Heq.
Qed.
(** An odd negative size passes the parity test and fails in [np.empty]. *)
Lemma get_gaussian_kernel_negative_size (n : Z) (sigma : pynum) :
  Z.odd n = true -> n < 0 ->
  get_gaussian_kernel uninit (PyInt n) sigma = Raise NegativeDimensions.
Proof.
  intros Hodd Hn. unfold get_gaussian_kernel.
  cbn [py_mod2 py_truthy py_floordiv2 py_index bind].
  rewrite Zmod_odd, Hodd. cbn [Z.eqb negb].
  unfold np_empty. cbn [fst snd].
  replace (n <? 0) with true by (symmetry; apply Z.ltb_lt; exact Hn).
  reflexivity.
Qed.

(** With [sigma = 0] the exponent of the first cell divides by zero. *)
Lemma get_gaussian_kernel_zero_sigma (n : Z) :
  Z.odd n = true -> 0 < n ->
  get_gaussian_kernel uninit (PyInt n) (PyInt 0) = Raise ZeroDivision.
Proof.
  intros Hodd Hn. unfold get_gaussian_kernel.
  cbn [py_mod2 py_truthy py_floordiv2 py_index bind].
  rewrite Zmod_odd, Hodd. cbn [Z.eqb negb].
  rewrite np_empty_ok by lia. cbn [bind].
  rewrite (range_cons 0 n) by lia. cbn [for_each].
  reflexivity.
Qed.

(** What [get_gaussian_kernel] does with integer arguments, case by case:
    an even size is rejected by the function itself; an odd negative size
    fails in [np.empty]; a zero [sigma] makes the first exponent divide by
    zero; every other call returns a kernel. *)
Theorem get_gaussian_kernel_integer_cases (n sigma : Z) :
  (Z.even n = true ->
   get_gaussian_kernel uninit (PyInt n) (PyInt sigma)
   = Raise (KernelSizeNotOdd (PyInt n)))
  /\ (Z.odd n = true -> n < 0 ->
      get_gaussian_kernel uninit (PyInt n) (PyInt sigma) = Raise NegativeDimensions)
  /\ (Z.odd n = true -> 0 < n -> sigma = 0 ->
      get_gaussian_kernel uninit (PyInt n) (PyInt sigma) = Raise ZeroDivision)
  /\ (Z.odd n = true -> 0 < n -> sigma <> 0 ->
      exists h, get_gaussian_kernel uninit (PyInt n) (PyInt sigma) = Ok h
                /\ shape0 h = n /\ shape1 h = n).
Proof.
  split; [|split; [|split]].
  - intros Heven. unfold get_gaussian_kernel. cbn [py_mod2 py_truthy].
    rewrite Zmod_even, Heven. reflexivity.
  - intros Hodd Hn. now apply get_gaussian_kernel_negative_size.
  - intros Hodd Hn ->. now apply get_gaussian_kernel_zero_sigma.
  - intros Hodd Hn Hs.
    destruct (get_gaussian_kernel_odd uninit n sigma Hn Hodd Hs)
      as (h & Hh & Hs0 & Hs1 & _).
    exists h. auto.
Qed.

(** [gaussian(sigma)] for an integer [sigma] that is not positive never
    returns a kernel: for 0 the side is 1 and the exponent divides by
    zero; for a negative [sigma] the side is negative and [np.empty]
    rejects it. *)
Theorem gaussian_nonpositive_sigma_raises (sigma : Z) :
  sigma <= 0 ->
  gaussian uninit (PyInt sigma)
  = Raise (if sigma =? 0 then ZeroDivision else NegativeDimensions).
Proof.
  intros Hs.
  destruct (gaussian_side_int sigma) as (n & Hside & Hodd & Hle & Hleast).
  unfold gaussian. rewrite Hside.
  destruct (Z.eqb_spec sigma 0) as [->|Hne].
  - assert (Hn : n = 1).
    { specialize (Hleast 1 eq_refl ltac:(lia)).
      destruct (Z.eq_dec n 0) as [->|]; [discriminate Hodd | lia]. }
    subst n. now apply get_gaussian_kernel_zero_sigma.
  - assert (Hn : n < 0) by (specialize (Hleast (-1) eq_refl ltac:(lia)); lia).
    now apply get_gaussian_kernel_negative_size.
Qed.
End GaussianAnySigma.

Lemma get_gaussian_kernel_normalised_witness :
  exists h total,
    get_gaussian_kernel (fun _ _ => 0%R) (PyInt 7) (PyInt (-3)) = Ok h
    /\ shape0 h = 7 /\ shape1 h = 7
    /\ (0 < total)%R
    /\ (forall row col, 0 <= row < 7 -> 0 <= col < 7 ->
          item h row col
          = (exp (- IZR ((col - 7 / 2) ^ 2 + (row - 7 / 2) ^ 2)
                  / (2 * IZR (-3) ^ 2)) / total)%R)
    /\ np_sum h = 1%R.
Proof.
  apply (get_gaussian_kernel_normalised (fun _ _ => 0%R) 7 (-3));
    [lia | reflexivity | lia].
Defined.

Lemma gaussian_kernel_falls_from_centre_witness :
  exists h,
    get_gaussian_kernel (fun _ _ => 0%R) (PyInt 11) (PyInt 2) = Ok h
    /\ (forall row col, 0 <= row < 11 -> 0 <= col < 11 -> (0 <= item h row col)%R)
    /\ (0 < item h (11 / 2) (11 / 2))%R
    /\ (forall row col row' col',
          0 <= row < 11 -> 0 <= col < 11 -> 0 <= row' < 11 -> 0 <= col' < 11 ->
          (col - 11 / 2) ^ 2 + (row - 11 / 2) ^ 2
          <= (col' - 11 / 2) ^ 2 + (row' - 11 / 2) ^ 2 ->
          (item h row' col' <= item h row col)%R).
Proof.
  apply (gaussian_kernel_falls_from_centre (fun _ _ => 0%R) 11 2);
    [lia | reflexivity | lia].
Defined.

Lemma get_gaussian_kernel_integer_cases_witness :
  get_gaussian_kernel (fun _ _ => 0%R) (PyInt (-3)) (PyInt 2) = Raise NegativeDimensions
  /\ get_gaussian_kernel (fun _ _ => 0%R) (PyInt 3) (PyInt 0) = Raise ZeroDivision.
Proof.
  split.
  - apply (get_gaussian_kernel_integer_cases (fun _ _ => 0%R) (-3) 2);
      [reflexivity | lia].
  - apply (get_gaussian_kernel_integer_cases (fun _ _ => 0%R) 3 0);
      [reflexivity | lia | reflexivity].
Defined.

Lemma gaussian_nonpositive_sigma_raises_witness :
  gaussian (fun _ _ => 0%R) (PyInt (-2)) = Raise NegativeDimensions.
Proof.
  apply (gaussian_nonpositive_sigma_raises (fun _ _ => 0%R) (-2)). lia.
Defined.

(* ================================================================== *)
(** ** More on the maxima extractor *)

Lemma filter_flat_map {X T : Type} (P : T -> bool) (g : X -> list T) (l : list X) :
  filter P (flat_map g l) = flat_map (fun x => filter P (g x)) l.
Proof.
  induction l as [|x l IH]; [reflexivity|].
  cbn [flat_map]. now rewrite filter_app, IH.
Qed.

Section StableSortOrder.
  Context {T : Type}.
  Variable key_lt : T -> T -> bool.
  Variable before : T -> T -> Prop.

  Hypothesis key_lt_asym : forall a b, key_lt a b = true -> key_lt b a = false.
  Hypothesis key_ge_trans :
    forall a b c, key_lt a b = false -> key_lt b c = false -> key_lt a c = false.

(** The order that a stable descending sort produces: a larger key first,
    and among keys of which neither is smaller, the earlier element
    first. *)
Definition desc_then (a b : T) : Prop :=
  key_lt b a = true \/ (key_lt a b = false /\ before a b).

Lemma desc_then_not_lt (a b : T) : desc_then a b -> key_lt a b = false.
Proof. intros [Hlt|[Hge _]]; [now apply key_lt_asym | exact Hge]. Qed.

Lemma insert_desc_stable (x : T) (l : list T) :
  Forall (before x) l -> StronglySorted desc_then l ->
  StronglySorted desc_then (insert_desc key_lt x l).
Proof.
  intros Hx Hl. induction Hl as [|y l Hl IH Hy]; cbn [insert_desc].
  - repeat constructor.
  - apply Forall_cons_iff in Hx. destruct Hx as [Hxy Hx].
    destruct (key_lt x y) eqn:Hlt.
    + constructor; [now apply IH|].
      apply Forall_forall. intros z Hz.
      apply (Permutation_in _ (insert_desc_perm key_lt x l)) in Hz.
      destruct Hz as [<-|Hz]; [now left|].
      rewrite Forall_forall in Hy. now apply Hy.
    + constructor; [now constructor|].
      constructor; [right; now split|].
      apply Forall_forall. intros z Hz. right. split.
      * apply (key_ge_trans x y z Hlt), desc_then_not_lt.
        rewrite Forall_forall in Hy. now apply Hy.
      * rewrite Forall_forall in Hx. now apply Hx.
Qed.

Lemma sort_desc_stable (l : list T) :
  StronglySorted before l -> StronglySorted desc_then (sort_desc key_lt l).
Proof.
  intros Hl. induction Hl as [|x l Hl IH Hx]; cbn [sort_desc]; [constructor|].
  apply insert_desc_stable; [|exact IH].
  apply Forall_forall. intros y Hy.
  apply (Permutation_in _ (sort_desc_perm key_lt l)) in Hy.
  rewrite Forall_forall in Hx. now apply Hx.
Qed.
End StableSortOrder.

Section MaximaEdges.
  Context {A : Type} `{Scalar A}.

(** A map with fewer than three rows or fewer than three columns has no
    interior cell: [get_maxima] returns no point, whatever the scores and
    the threshold. *)
Theorem get_maxima_small_map (im : ndarray A) (threshold : A) (sort : bool) :
  shape0 im < 3 \/ shape1 im < 3 -> get_maxima im threshold sort = [].
Proof.
  intros Hsmall.
  assert (Hscan : get_maxima im threshold false = []).
  { rewrite get_maxima_scan. destruct Hsmall as [Hm|Hn].
    - rewrite (range_empty 1 (shape0 im - 1)) by lia. reflexivity.
    - rewrite (range_empty 1 (shape1 im - 1)) by lia. cbn [flat_map].
      induction (range 1 (shape0 im - 1)) as [|k l IH]; [reflexivity | exact IH]. }
  destruct sort; [|exact Hscan].
  rewrite get_maxima_sorted_eq, Hscan. reflexivity.
Qed.

(** Raising the threshold only removes points: the points found with a
    threshold [t2] that is not below [t1] are those found with [t1] whose
    score is not below [t2], in the same scan order. *)
Theorem get_maxima_threshold_filters (im : ndarray A) (t1 t2 : A) :
  (forall x, slt x t1 = true -> slt x t2 = true) ->
  get_maxima im t2 false
  = filter (fun pt => negb (slt (point_h pt) t2)) (get_maxima im t1 false)
  /\ forall sort pt,
       In pt (get_maxima im t2 sort) <->
       In pt (get_maxima im t1 sort) /\ slt (point_h pt) t2 = false.
Proof.
  intros Hle.
  assert (Heq : get_maxima im t2 false
                = filter (fun pt => negb (slt (point_h pt) t2))
                         (get_maxima im t1 false)).
  { rewrite !get_maxima_scan, filter_flat_map.
    apply flat_map_ext. intros k. rewrite filter_flat_map.
    apply flat_map_ext. intros j. unfold peak_at.
    destruct (slt (item im k j) t1) eqn:H1.
    - now rewrite (Hle _ H1).
    - destruct (above_neighbours im k j (item im k j)).
      + cbn [filter point_h snd].
        destruct (slt (item im k j) t2); reflexivity.
      + destruct (slt (item im k j) t2); reflexivity. }
  split; [exact Heq|].
  assert (Hscan : forall sort pt,
             In pt (get_maxima im t1 sort) <-> In pt (get_maxima im t1 false)).
  { intros sort pt. destruct sort; [|reflexivity].
    rewrite get_maxima_sorted_eq. apply sort_desc_in. }
  assert (Hscan2 : forall sort pt,
             In pt (get_maxima im t2 sort) <-> In pt (get_maxima im t2 false)).
  { intros sort pt. destruct sort; [|reflexivity].
    rewrite get_maxima_sorted_eq. apply sort_desc_in. }
  intros sort pt. rewrite Hscan, Hscan2, Heq, filter_In, negb_true_iff.
  reflexivity.
Qed.

  Hypothesis slt_asym : forall a b : A, slt a b = true -> slt b a = false.
  Hypothesis sge_trans :
    forall a b c : A, slt a b = false -> slt b c = false -> slt a c = false.

(** With [sort], the order of the points is settled completely: a larger
    score first, and points of which neither has the smaller score in
    row-major scan order (Python's sort is stable). *)
Theorem get_maxima_sort_is_stable (im : ndarray A) (threshold : A) :
  StronglySorted
    (fun a b => slt (point_h b) (point_h a) = true
                \/ (slt (point_h a) (point_h b) = false /\ scan_before a b))
    (get_maxima im threshold true).
Proof.
  rewrite get_maxima_sorted_eq.
  apply (sort_desc_stable (fun a b => slt (point_h a) (point_h b)) scan_before).
  - intros a b. apply slt_asym.
  - intros a b c. apply sge_trans.
  - apply get_maxima_scan_order.
Qed.
End MaximaEdges.

Lemma get_maxima_small_map_witness :
  get_maxima img2x2 0 true = [].
Proof.
  apply (get_maxima_small_map img2x2 0 true). left. cbn. lia.
Defined.

Lemma get_maxima_threshold_filters_witness :
  get_maxima peak5x5 4 false
  = filter (fun pt => negb (slt (point_h pt) 4)) (get_maxima peak5x5 1 false)
  /\ forall sort pt,
       In pt (get_maxima peak5x5 4 sort) <->
       In pt (get_maxima peak5x5 1 sort) /\ slt (point_h pt) 4 = false.
Proof.
  apply (get_maxima_threshold_filters peak5x5 1 4).
  intros x. cbn. rewrite !Z.ltb_lt. lia.
Defined.

Lemma get_maxima_sort_is_stable_witness :
  StronglySorted
    (fun a b => slt (point_h b) (point_h a) = true
                \/ (slt (point_h a) (point_h b) = false /\ scan_before a b))
    (get_maxima peak5x5 1 true).
Proof.
  exact (get_maxima_sort_is_stable Z_slt_asym Z_sge_trans peak5x5 1).
Defined.

(* ================================================================== *)
(** ** What brute-force ANMS returns *)

Lemma elements_empty {A : Type} (a : ndarray A) :
  shape0 a <= 0 \/ shape1 a <= 0 -> elements a = [].
Proof.
  intros [H0|H1]; unfold elements, to_rows.
  - rewrite (range_empty 0 (shape0 a)) by lia. reflexivity.
  - rewrite (range_empty 0 (shape1 a)) by lia. cbn [map].
    induction (range 0 (shape0 a)) as [|v l IH]; [reflexivity | exact IH].
Qed.

(** [len(l[:n])]: Python counts a negative [n] from the end. *)
Lemma length_list_prefix {T : Type} (l : list T) (n : Z) :
  Z.of_nat (length (list_prefix l n))
  = if n <? 0 then Z.max (n + Z.of_nat (length l)) 0
    else Z.min n (Z.of_nat (length l)).
Proof.
  unfold list_prefix, slice_hi, sl_to, norm_bound. cbn [sl_stop].
  rewrite length_firstn. destruct (Z.ltb_spec n 0); lia.
Qed.

(** Points in scan order have pairwise different coordinates, and scan
    order only looks at the coordinates. *)
Lemma scan_order_NoDup_coords {A : Type} (l : list (Z * Z * A)) :
  StronglySorted scan_before l -> NoDup (map fst l).
Proof.
  intros Hl. induction Hl as [|x l Hl IH Hx]; cbn [map]; constructor; [|exact IH].
  intros Hin. apply in_map_iff in Hin. destruct Hin as (y & Hfst & Hy).
  rewrite Forall_forall in Hx. specialize (Hx y Hy).
  unfold scan_before, point_v, point_u in Hx. rewrite Hfst in Hx. lia.
Qed.

Lemma scan_order_by_coords {A B : Type} (l : list (Z * Z * A)) (l' : list (Z * Z * B)) :
  map fst l = map fst l' ->
  StronglySorted scan_before l -> StronglySorted scan_before l'.
Proof.
  intros Hmap Hl. revert l' Hmap.
  induction Hl as [|x l Hl IH Hx]; intros [|x' l'] Hmap; cbn [map] in Hmap;
    try discriminate Hmap; constructor.
  - apply IH. now inversion Hmap.
  - inversion Hmap as [[Hfst Htl]]. apply Forall_forall. intros y' Hy'.
    assert (Hc : In (fst y') (map fst l)) by (rewrite Htl; now apply in_map).
    apply in_map_iff in Hc. destruct Hc as (y & Hy1 & Hy).
    rewrite Forall_forall in Hx. specialize (Hx y Hy).
    unfold scan_before, point_v, point_u in *. rewrite <- Hfst, <- Hy1. exact Hx.
Qed.

Section BruteForceEdges.
  Context {A : Type} `{Scalar A}.
  Variables np_mean np_std : ndarray A -> A.

(** The result of [anms] once the threshold is there. *)
Lemma anms_run (H0 : ndarray A) (n : Z) (c : A) (use_thresh zipped : bool)
    (thresh : A) :
  threshold_of np_mean np_std H0 use_thresh = Ok thresh ->
  anms np_mean np_std H0 n c use_thresh zipped
  = Ok (_maxima_to_uv
          (list_prefix
             (sort_by_radius
                (anms_entries (get_maxima H0 thresh false) c
                   (radius_of_int (Z.max (shape0 H0) (shape1 H0) ^ 2))))
             n)
          zipped).
Proof. intros Hthr. unfold anms. rewrite Hthr. reflexivity. Qed.

Lemma map_fst_anms_entries (maxima : list (Z * Z * A)) (c : A) (rmax : radius) :
  map fst (anms_entries maxima c rmax) = map fst maxima.
Proof.
  rewrite anms_entries_map, map_map.
  transitivity (map fst (map snd (enumerate maxima))).
  - rewrite map_map. apply map_ext. intros [i [[u v] h]]. reflexivity.
  - now rewrite enumerate_snd.
Qed.

(** [anms] raises only when the minimum of an empty map is asked for:
    with [use_thresh] unset and a map without cells it raises numpy's
    error for a reduction of an empty array; in every other case it
    returns. *)
Theorem anms_raises_on_empty_minimum_only
    (H0 : ndarray A) (n : Z) (c : A) (use_thresh zipped : bool) :
  (use_thresh = false -> shape0 H0 <= 0 \/ shape1 H0 <= 0 ->
   anms np_mean np_std H0 n c use_thresh zipped = Raise EmptyReduction)
  /\ (use_thresh = true \/ (0 < shape0 H0 /\ 0 < shape1 H0) ->
      exists res, anms np_mean np_std H0 n c use_thresh zipped = Ok res).
Proof.
  split.
  - intros -> Hempty. unfold anms, threshold_of, np_min.
    now rewrite (elements_empty H0 Hempty).
  - intros Hok.
    assert (Hthr : exists thresh,
               threshold_of np_mean np_std H0 use_thresh = Ok thresh).
    { unfold threshold_of. destruct use_thresh; [eauto|].
      destruct Hok as [Hu|[Hs0 Hs1]]; [discriminate Hu|].
      pose proof (elements_nonempty H0 Hs0 Hs1) as Hne.
      unfold np_min. destruct (elements H0); [contradiction | eauto]. }
    destruct Hthr as (thresh & Hthr).
    rewrite (anms_run H0 n c use_thresh zipped thresh Hthr). eauto.
Qed.

(** How many points [anms] returns: [n] of them, or all candidates when
    there are fewer; a negative [n] drops that many from the end of the
    ranking, as Python's slice does. *)
Theorem anms_returns_count
    (H0 : ndarray A) (n : Z) (c : A) (use_thresh zipped : bool) (thresh : A) :
  threshold_of np_mean np_std H0 use_thresh = Ok thresh ->
  exists res,
    anms np_mean np_std H0 n c use_thresh zipped = Ok res
    /\ Z.of_nat (length (result_points res))
       = let candidates := Z.of_nat (length (get_maxima H0 thresh false)) in
         if n <? 0 then Z.max (n + candidates) 0 else Z.min n candidates.
Proof.
  intros Hthr. rewrite (anms_run H0 n c use_thresh zipped thresh Hthr).
  eexists. split; [reflexivity|].
  rewrite result_points_maxima_to_uv, length_map, length_list_prefix.
  unfold sort_by_radius.
  rewrite sort_desc_length, length_anms_entries. reflexivity.
Qed.

(** Every point that [anms] returns is a candidate of the map: an interior
    cell whose score is not below the threshold and exceeds its eight
    neighbours; no point is returned twice; and when [n] is at least the
    number of candidates, every candidate is returned. *)
Theorem anms_selects_maxima
    (H0 : ndarray A) (n : Z) (c : A) (use_thresh zipped : bool) (thresh : A) :
  threshold_of np_mean np_std H0 use_thresh = Ok thresh ->
  exists res,
    anms np_mean np_std H0 n c use_thresh zipped = Ok res
    /\ NoDup (result_points res)
    /\ (forall u v, In (u, v) (result_points res) ->
          interior_cell H0 v u /\ slt (item H0 v u) thresh = false
          /\ strict_local_max H0 v u)
    /\ (Z.of_nat (length (get_maxima H0 thresh false)) <= n ->
        forall u v,
          interior_cell H0 v u -> slt (item H0 v u) thresh = false ->
          strict_local_max H0 v u ->
          In (u, v) (result_points res)).
Proof.
  intros Hthr. rewrite (anms_run H0 n c use_thresh zipped thresh Hthr).
  set (maxima := get_maxima H0 thresh false).
  set (rmax := radius_of_int (Z.max (shape0 H0) (shape1 H0) ^ 2)).
  set (ranked := sort_by_radius (anms_entries maxima c rmax)).
  assert (Hperm : Permutation (map fst ranked) (map fst maxima)).
  { rewrite <- (map_fst_anms_entries maxima c rmax).
    apply Permutation_map, sort_by_radius_perm. }
  assert (Hcand : forall u v,
             In (u, v) (map fst maxima) <->
             interior_cell H0 v u /\ slt (item H0 v u) thresh = false
             /\ strict_local_max H0 v u).
  { intros u v. rewrite in_map_iff. split.
    - intros ([[u' v'] h] & Hfst & Hin). cbn in Hfst. inversion Hfst; subst.
      apply in_get_maxima_scan in Hin. destruct Hin as (Hint & -> & Hthr' & Hmax).
      auto.
    - intros (Hint & Hthr' & Hmax). exists (u, v, item H0 v u).
      split; [reflexivity|]. apply in_get_maxima_scan. auto. }
  eexists. split; [reflexivity|].
  rewrite result_points_maxima_to_uv. split; [|split].
  - unfold list_prefix. rewrite <- firstn_map.
    apply (NoDup_app_remove_r _ (skipn (Z.to_nat (slice_hi (sl_to n)
                                          (Z.of_nat (length ranked))))
                                       (map fst ranked))).
    rewrite firstn_skipn.
    apply (Permutation_NoDup (Permutation_sym Hperm)).
    apply scan_order_NoDup_coords, get_maxima_scan_order.
  - intros u v Hin. apply Hcand.
    apply (Permutation_in _ Hperm).
    apply in_map_iff in Hin. destruct Hin as (entry & Hfst & Hin).
    apply in_list_prefix in Hin. apply in_map_iff. eauto.
  - intros Hn u v Hint Hthr' Hmax.
    assert (Hall : list_prefix ranked n = ranked).
    { rewrite list_prefix_firstn by lia. apply firstn_all2.
      unfold ranked, sort_by_radius.
      rewrite sort_desc_length, length_anms_entries. fold maxima. lia. }
    rewrite Hall. apply (Permutation_in _ (Permutation_sym Hperm)).
    apply Hcand. auto.
Qed.

(** The ranking that [anms] cuts its result from is settled completely:
    every candidate is in it once, with the least distance to a
    significantly stronger other candidate (or the sentinel) as its
    radius; a larger radius comes first, and candidates of equal radius
    stay in the row-major order in which [get_maxima] found them.  The
    points returned are the first [n] of the ranking, or all but the last
    [-n] for a negative [n]. *)
Theorem anms_ranking_is_stable
    (H0 : ndarray A) (n : Z) (c : A) (use_thresh zipped : bool) (thresh : A) :
  threshold_of np_mean np_std H0 use_thresh = Ok thresh ->
  exists (ranked : list (Z * Z * R)) (res : uv_result),
    anms np_mean np_std H0 n c use_thresh zipped = Ok res
    /\ result_points res
       = map fst (firstn (Z.to_nat (if n <? 0 then n + Z.of_nat (length ranked)
                                    else n))
                         ranked)
    /\ Permutation (map fst ranked) (map fst (get_maxima H0 thresh false))
    /\ (forall u v r, In (u, v, r) ranked ->
          exists i h,
            nth_error (get_maxima H0 thresh false) i = Some (u, v, h)
            /\ least_stronger_distance (get_maxima H0 thresh false) c
                 (IZR (Z.max (shape0 H0) (shape1 H0) ^ 2)) i u v h r)
    /\ StronglySorted
         (fun a b => (snd b < snd a)%R \/ (snd a = snd b /\ scan_before a b))
         ranked.
Proof.
  intros Hthr. rewrite (anms_run H0 n c use_thresh zipped thresh Hthr).
  set (maxima := get_maxima H0 thresh false).
  set (rmax := radius_of_int (Z.max (shape0 H0) (shape1 H0) ^ 2)).
  set (entries := anms_entries maxima c rmax).
  assert (Hentry : forall e, In e entries ->
             exists i u v h,
               nth_error maxima i = Some (u, v, h)
               /\ e = (u, v, suppression_radius maxima c rmax (Z.of_nat i) u v h)).
  { intros e He. unfold entries in He. rewrite anms_entries_map in He.
    apply in_map_iff in He. destruct He as ([k [[u v] h]] & <- & Hk).
    apply in_enumerate in Hk. destruct Hk as [Hk Hnth].
    exists (Z.to_nat k), u, v, h. split; [exact Hnth|].
    now rewrite Z2Nat.id by exact Hk. }
  exists (map ranked_value (sort_by_radius entries)). eexists.
  split; [reflexivity|]. split; [|split; [|split]].
  - rewrite result_points_maxima_to_uv, list_prefix_python, length_map.
    now rewrite firstn_map, map_fst_ranked_value.
  - rewrite map_fst_ranked_value.
    rewrite <- (map_fst_anms_entries maxima c rmax).
    apply Permutation_map, sort_by_radius_perm.
  - intros u v r Hin. apply in_map_iff in Hin. destruct Hin as (e & He & Hin).
    apply (Permutation_in _ (sort_by_radius_perm _)) in Hin.
    destruct (Hentry e Hin) as (i & u' & v' & h & Hnth & ->).
    unfold ranked_value in He. cbn [fst snd] in He. inversion He; subst u' v' r.
    exists i, h. split; [exact Hnth|].
    now apply candidate_radius_real.
  - apply StronglySorted_map.
    apply (StronglySorted_weaken_in
             (desc_then (fun a b : ranked_point => radius_lt (snd a) (snd b))
                        scan_before)).
    + intros a b Ha Hb Hab.
      assert (Hnn : 0 <= radicand (snd b)).
      { apply (Permutation_in _ (sort_by_radius_perm _)) in Hb.
        destruct (Hentry b Hb) as (i & u & v & h & _ & ->). cbn [snd].
        apply suppression_radius_nonneg. unfold rmax, radius_of_int.
        cbn [radicand]. apply Z.square_nonneg. }
      unfold ranked_value. cbn [snd fst].
      assert (Hscan : scan_before a b ->
                      @scan_before R (fst a, radius_val (snd a))
                                     (fst b, radius_val (snd b))).
      { intros Hs. exact Hs. }
      unfold desc_then, radius_lt in Hab.
      destruct (Z.lt_trichotomy (radicand (snd b)) (radicand (snd a)))
        as [Hlt|[Heq|Hgt]].
      * left. unfold radius_val. apply sqrt_lt_1_alt.
        split; [now apply IZR_le | now apply IZR_lt].
      * right. destruct Hab as [Hab|[_ Hs]]; [apply Z.ltb_lt in Hab; lia|].
        split; [unfold radius_val; now rewrite Heq | now apply Hscan].
      * exfalso. destruct Hab as [Hab|[Hab _]];
          [apply Z.ltb_lt in Hab | apply Z.ltb_ge in Hab]; lia.
    + apply (sort_desc_stable (fun a b : ranked_point => radius_lt (snd a) (snd b))
                              scan_before).
      * intros a b. unfold radius_lt. rewrite Z.ltb_lt, Z.ltb_ge. lia.
      * intros a b d. unfold radius_lt. rewrite !Z.ltb_ge. lia.
      * apply (scan_order_by_coords maxima).
        -- symmetry. apply map_fst_anms_entries.
        -- apply get_maxima_scan_order.
Qed.
End BruteForceEdges.

(** Witnesses on the 7x9 map with four peaks. *)
Lemma anms_raises_on_empty_minimum_only_witness :
  anms qstat qstat (mk_array 0 5 (fun _ _ => 0%Q)) 10 (9 # 10) false true
  = Raise EmptyReduction
  /\ exists res, anms qstat qstat peaks7x9 10 (9 # 10) false true = Ok res.
Proof.
  split.
  - apply (anms_raises_on_empty_minimum_only qstat qstat
             (mk_array 0 5 (fun _ _ => 0%Q)) 10 (9 # 10) false true);
      [reflexivity | left; cbn; lia].
  - apply (anms_raises_on_empty_minimum_only qstat qstat peaks7x9 10 (9 # 10)
             false true).
    right. cbn. lia.
Defined.

Lemma anms_returns_count_witness :
  exists res,
    anms qstat qstat peaks7x9 (-1) (9 # 10) true true = Ok res
    /\ Z.of_nat (length (result_points res))
       = let candidates := Z.of_nat (length (get_maxima peaks7x9 (0 + 0)%Q false)) in
         if -1 <? 0 then Z.max (-1 + candidates) 0 else Z.min (-1) candidates.
Proof.
  apply (anms_returns_count qstat qstat peaks7x9 (-1) (9 # 10) true true (0 + 0)%Q).
  reflexivity.
Defined.

Lemma anms_selects_maxima_witness :
  exists res,
    anms qstat qstat peaks7x9 2 (9 # 10) true true = Ok res
    /\ NoDup (result_points res)
    /\ (forall u v, In (u, v) (result_points res) ->
          interior_cell peaks7x9 v u /\ slt (item peaks7x9 v u) (0 + 0)%Q = false
          /\ strict_local_max peaks7x9 v u)
    /\ (Z.of_nat (length (get_maxima peaks7x9 (0 + 0)%Q false)) <= 2 ->
        forall u v,
          interior_cell peaks7x9 v u -> slt (item peaks7x9 v u) (0 + 0)%Q = false ->
          strict_local_max peaks7x9 v u ->
          In (u, v) (result_points res)).
Proof.
  apply (anms_selects_maxima qstat qstat peaks7x9 2 (9 # 10) true true (0 + 0)%Q).
  reflexivity.
Defined.

Lemma anms_ranking_is_stable_witness :
  exists (ranked : list (Z * Z * R)) (res : uv_result),
    anms qstat qstat peaks7x9 2 (9 # 10) true true = Ok res
    /\ result_points res
       = map fst (firstn (Z.to_nat (if 2 <? 0 then 2 + Z.of_nat (length ranked)
                                    else 2))
                         ranked)
    /\ Permutation (map fst ranked) (map fst (get_maxima peaks7x9 (0 + 0)%Q false))
    /\ (forall u v r, In (u, v, r) ranked ->
          exists i h,
            nth_error (get_maxima peaks7x9 (0 + 0)%Q false) i = Some (u, v, h)
            /\ least_stronger_distance (get_maxima peaks7x9 (0 + 0)%Q false) (9 # 10)
                 (IZR (Z.max (shape0 peaks7x9) (shape1 peaks7x9) ^ 2)) i u v h r)
    /\ StronglySorted
         (fun a b => (snd b < snd a)%R \/ (snd a = snd b /\ scan_before a b))
         ranked.
Proof.
  apply (anms_ranking_is_stable qstat qstat peaks7x9 2 (9 # 10) true true (0 + 0)%Q).
  reflexivity.
Defined.

(* ================================================================== *)
(** ** What index-accelerated ANMS returns *)

(** The trimmed map [H[edge:-edge, edge:-edge]] where it has an interior:
    it starts at [(edge, edge)] and loses [2 * edge] rows and columns. *)
Lemma trim_slice (edge len : Z) :
  0 <= len -> 1 <= edge -> 3 <= slice_len (sl edge (- edge)) len ->
  slice_lo (sl edge (- edge)) len = edge
  /\ slice_len (sl edge (- edge)) len = len - 2 * edge.
Proof.
  unfold slice_len, slice_lo, slice_hi, sl, norm_bound. cbn [sl_start sl_stop].
  destruct (Z.ltb_spec edge 0); [lia|].
  destruct (Z.ltb_spec (- edge) 0); lia.
Qed.

Lemma collect_nothing {T : Type} (f : Z -> result (option T)) (l : list Z)
    (outs : list (option T)) :
  Forall2 (fun i o => f i = Ok o) l outs ->
  (forall i, In i l -> f i = Ok None) ->
  flat_map option_list outs = [].
Proof.
  intros Hall. induction Hall as [|i o l outs Hio Hall IH]; intros Hnone;
    [reflexivity|].
  cbn [flat_map]. rewrite IH by (intros j Hj; apply Hnone; now right).
  rewrite (Hnone i (or_introl eq_refl)) in Hio. inversion Hio. reflexivity.
Qed.

Lemma list_prefix_nil {T : Type} (n : Z) : list_prefix (@nil T) n = [].
Proof. unfold list_prefix. apply firstn_nil. Qed.

Section IndexedEdges.
  Context {A : Type} `{Scalar A}.
  Variables np_mean np_std : ndarray A -> A.
  Variable tree : Type.
  Variable KDTree : list (Z * Z) -> result tree.
  Variable query : tree -> Z * Z -> Z -> list (radius * Z).

(** The search starts at [k = 2] and stops before [k] reaches the number
    of candidates: with one or two candidates no query is made, nothing
    is recorded, and [anms_kdtree] returns no point at all. *)
Theorem anms_kdtree_needs_three_candidates
    (H0 : ndarray A) (n : Z) (c : A) (edge : Z) (use_thresh zipped : bool)
    (thresh : A) (t : tree) :
  let trimmed := view H0 (sl edge (- edge)) (sl edge (- edge)) in
  let maxima := get_maxima trimmed thresh false in
  threshold_of np_mean np_std trimmed use_thresh = Ok thresh ->
  KDTree (map fst maxima) = Ok t ->
  (length maxima <= 2)%nat ->
  exists res,
    anms_kdtree np_mean np_std tree KDTree query H0 n c edge use_thresh zipped
    = Ok res
    /\ result_points res = [].
Proof.
  intros trimmed maxima Hthr Htree Hfew.
  assert (Hvalid : index_answers_valid tree query t maxima).
  { intros u v h k _ Hk. lia. }
  destruct (anms_kdtree_entries_collect tree query t maxima c edge Hvalid)
    as (outs & Hall & Hentries).
  assert (Hnone : flat_map option_list outs = []).
  { apply (collect_nothing _ _ _ Hall). intros i Hi. apply in_range in Hi.
    destruct (position_is_candidate maxima i Hi) as (u & v & h & Hin).
    rewrite (candidate_entry_search tree query t maxima c edge i u v h Hin).
    rewrite (range_empty 2 (Z.of_nat (length maxima))) by lia.
    reflexivity. }
  rewrite Hnone in Hentries.
  eexists. split.
  - apply (anms_kdtree_run np_mean np_std tree KDTree query H0 n c edge use_thresh
             zipped thresh t [] Hthr Htree Hentries).
  - rewrite result_points_maxima_to_uv.
    change (sort_by_radius []) with (@nil ranked_point).
    now rewrite list_prefix_nil.
Qed.

(** Every point that [anms_kdtree] returns, for a margin [edge >= 1], lies
    more than [edge] cells away from each border of the map, is named in
    the coordinates of the untrimmed map, and is there a cell whose score
    is not below the threshold and exceeds its eight neighbours. *)
Theorem anms_kdtree_points_inside_margin
    (H0 : ndarray A) (n : Z) (c : A) (edge : Z) (use_thresh zipped : bool)
    (thresh : A) (t : tree) :
  let trimmed := view H0 (sl edge (- edge)) (sl edge (- edge)) in
  let maxima := get_maxima trimmed thresh false in
  wf_array H0 -> 1 <= edge ->
  threshold_of np_mean np_std trimmed use_thresh = Ok thresh ->
  KDTree (map fst maxima) = Ok t ->
  index_answers_valid tree query t maxima ->
  exists res,
    anms_kdtree np_mean np_std tree KDTree query H0 n c edge use_thresh zipped
    = Ok res
    /\ forall u v, In (u, v) (result_points res) ->
         edge + 1 <= v < shape0 H0 - edge - 1
         /\ edge + 1 <= u < shape1 H0 - edge - 1
         /\ slt (item H0 v u) thresh = false
         /\ strict_local_max H0 v u.
Proof.
  intros trimmed maxima [HM HN] Hedge Hthr Htree Hvalid.
  destruct (anms_kdtree_entries_collect tree query t maxima c edge Hvalid)
    as (outs & Hall & Hentries).
  eexists. split.
  - apply (anms_kdtree_run np_mean np_std tree KDTree query H0 n c edge use_thresh
             zipped thresh t _ Hthr Htree Hentries).
  - rewrite result_points_maxima_to_uv. intros u v Hin.
    apply in_map_iff in Hin. destruct Hin as (entry & Hfst & Hin).
    apply in_list_prefix in Hin.
    apply (Permutation_in _ (sort_by_radius_perm _)) in Hin.
    destruct (anms_kdtree_entry_origin tree query t maxima c edge outs entry Hall Hin)
      as (i & u' & v' & h & Hcand & Hrun).
    pose proof (progressive_search_found _ _ _ _ _ _ _ _ _ _ _ Hrun) as Hfound.
    cbn beta iota in Hfound.
    destruct Hfound as (before & k & after & hn & _ & _ & _ & _ & ->).
    cbn [fst] in Hfst. injection Hfst as Hu' Hv'. rewrite <- Hu', <- Hv'.
    apply in_enumerate_bounds in Hcand. destruct Hcand as [_ Hcand].
    apply in_get_maxima_scan in Hcand.
    destruct Hcand as ([Hv Hu] & -> & Hthr' & Hmax).
    cbn [trimmed view shape0 shape1] in Hv, Hu.
    destruct (trim_slice edge (shape0 H0) HM Hedge ltac:(lia)) as [Hlo0 Hlen0].
    destruct (trim_slice edge (shape1 H0) HN Hedge ltac:(lia)) as [Hlo1 Hlen1].
    assert (Hitem : forall a b, item trimmed a b = item H0 (edge + a) (edge + b)).
    { intros a b. cbn [trimmed view item]. now rewrite Hlo0, Hlo1. }
    split; [lia|]. split; [lia|]. split.
    + rewrite Hitem in Hthr'.
      replace (v' + edge) with (edge + v') by lia.
      replace (u' + edge) with (edge + u') by lia. exact Hthr'.
    + intros dk dj Hdk Hdj Hne. specialize (Hmax dk dj Hdk Hdj Hne).
      rewrite !Hitem in Hmax.
      replace (v' + edge + dk) with (edge + (v' + dk)) by lia.
      replace (u' + edge + dj) with (edge + (u' + dj)) by lia.
      replace (v' + edge) with (edge + v') by lia.
      replace (u' + edge) with (edge + u') by lia. exact Hmax.
Qed.

(** With [edge = 0] the slice [H[0:-0, 0:-0]] is empty, so [anms_kdtree]
    selects nothing from any map: with the minimum as threshold it raises
    numpy's error for a reduction of an empty array, and otherwise it
    raises what the index raises for an empty point set or returns no
    point. *)
Theorem anms_kdtree_zero_edge_selects_nothing
    (H0 : ndarray A) (n : Z) (c : A) (use_thresh zipped : bool) :
  wf_array H0 ->
  (use_thresh = false ->
   anms_kdtree np_mean np_std tree KDTree query H0 n c 0 use_thresh zipped
   = Raise EmptyReduction)
  /\ (use_thresh = true ->
      match KDTree [] with
      | Ok _ =>
          exists res,
            anms_kdtree np_mean np_std tree KDTree query H0 n c 0 use_thresh zipped
            = Ok res
            /\ result_points res = []
      | Raise e =>
          anms_kdtree np_mean np_std tree KDTree query H0 n c 0 use_thresh zipped
          = Raise e
      end).
Proof.
  intros [HM HN].
  set (trimmed := view H0 (sl 0 (- 0)) (sl 0 (- 0))).
  assert (Hs0 : shape0 trimmed = 0).
  { cbn [trimmed view shape0]. change (- 0) with 0. slice_bounds. }
  assert (Hmax : forall thresh, get_maxima trimmed thresh false = []).
  { intros thresh. rewrite get_maxima_scan.
    rewrite (range_empty 1 (shape0 trimmed - 1)) by lia. reflexivity. }
  split.
  - intros ->. unfold anms_kdtree. fold trimmed. unfold threshold_of, np_min.
    rewrite (elements_empty trimmed) by (left; lia). reflexivity.
  - intros ->. unfold anms_kdtree. fold trimmed. cbn [threshold_of bind].
    rewrite Hmax. cbn [map].
    destruct (KDTree []) as [t|e]; cbn [bind]; [|reflexivity].
    eexists. split; [reflexivity|].
    rewrite result_points_maxima_to_uv.
    cbn [anms_kdtree_entries length Z.of_nat map].
    change (range 0 0) with (@nil Z). cbn [for_each bind].
    change (sort_by_radius []) with (@nil ranked_point).
    now rewrite list_prefix_nil.
Qed.

(** With [edge = 0] the trimmed map [H[0:-0, 0:-0]] has no row, so a run
    of [anms_kdtree] that returns holds no point. *)
Lemma anms_kdtree_zero_edge_no_points
    (H0 : ndarray A) (n : Z) (c : A) (use_thresh zipped : bool) (kd : uv_result) :
  wf_array H0 ->
  anms_kdtree np_mean np_std tree KDTree query H0 n c 0 use_thresh zipped = Ok kd ->
  result_points kd = [].
Proof.
  intros [HM HN].
  set (trimmed := view H0 (sl 0 (- 0)) (sl 0 (- 0))).
  assert (Hs0 : shape0 trimmed = 0).
  { cbn [trimmed view shape0]. change (- 0) with 0. slice_bounds. }
  assert (Hmax : forall thresh, get_maxima trimmed thresh false = []).
  { intros thresh. rewrite get_maxima_scan.
    rewrite (range_empty 1 (shape0 trimmed - 1)) by lia. reflexivity. }
  unfold anms_kdtree. fold trimmed.
  destruct (threshold_of np_mean np_std trimmed use_thresh) as [thresh|e];
    cbn [bind]; [|discriminate].
  rewrite Hmax. cbn [map].
  destruct (KDTree []) as [t|e]; cbn [bind]; [|discriminate].
  change (anms_kdtree_entries tree query t [] c 0) with (@Ok (list ranked_point) []).
  cbn [bind]. change (sort_by_radius []) with (@nil ranked_point).
  rewrite list_prefix_nil. intros Hkd. inversion Hkd.
  now rewrite result_points_maxima_to_uv.
Qed.

(** C4.  On every map that has a candidate, and for every [n >= 1], the
    two variants do not return the same set of points when [edge = 0]:
    brute-force [anms] returns at least one point, while [anms_kdtree]
    trims the map to [H[0:-0, 0:-0]], which is empty, and so raises or
    returns no point. *)
Theorem anms_kdtree_zero_edge_disagrees
    (H0 : ndarray A) (n : Z) (c : A) (use_thresh : bool) (thresh : A) :
  wf_array H0 -> 1 <= n ->
  threshold_of np_mean np_std H0 use_thresh = Ok thresh ->
  get_maxima H0 thresh false <> [] ->
  (exists bf, anms np_mean np_std H0 n c use_thresh true = Ok bf
              /\ result_points bf <> [])
  /\ (forall kd,
        anms_kdtree np_mean np_std tree KDTree query H0 n c 0 use_thresh true
        = Ok kd ->
        result_points kd = [])
  /\ ~ anms_variants_agree np_mean np_std tree KDTree query H0 n c use_thresh.
Proof.
  intros Hwf Hn Hthr Hcand.
  assert (Hbf : exists bf, anms np_mean np_std H0 n c use_thresh true = Ok bf
                           /\ result_points bf <> []).
  { rewrite (anms_run np_mean np_std H0 n c use_thresh true thresh Hthr).
    eexists. split; [reflexivity|].
    rewrite result_points_maxima_to_uv. intros Hnil.
    apply (f_equal (@length _)) in Hnil. rewrite length_map in Hnil.
    apply (f_equal Z.of_nat) in Hnil. rewrite length_list_prefix in Hnil.
    unfold sort_by_radius in Hnil.
    rewrite sort_desc_length, length_anms_entries in Hnil.
    destruct (get_maxima H0 thresh false) as [|x l]; [now apply Hcand|].
    destruct (Z.ltb_spec n 0); cbn [length] in Hnil; lia. }
  split; [exact Hbf|]. split.
  - intros kd Hkd.
    exact (anms_kdtree_zero_edge_no_points H0 n c use_thresh true kd Hwf Hkd).
  - intros (bf & kd & Hrun & Hkd & Hsame).
    destruct Hbf as (bf' & Hrun' & Hne). rewrite Hrun in Hrun'.
    inversion Hrun'; subst bf'.
    pose proof (anms_kdtree_zero_edge_no_points H0 n c use_thresh true kd Hwf Hkd)
      as Hnil.
    destruct (result_points bf) as [|p l]; [now apply Hne|].
    rewrite Hnil in Hsame. exact (proj1 (Hsame p) (or_introl eq_refl)).
Qed.
End IndexedEdges.

(** Witnesses: the 9x11 map, and a 9x11 map with two peaks only. *)
Definition two_peaks9x11 : ndarray Q :=
  of_rows 0%Q
    [[0; 0; 0;  0; 0; 0; 0; 0; 0; 0; 0];
     [0; 0; 0;  0; 0; 0; 0; 0; 0; 0; 0];
     [0; 0; 10; 0; 0; 0; 0; 0; 0; 0; 0];
     [0; 0; 0;  0; 0; 0; 0; 0; 0; 0; 0];
     [0; 0; 0;  0; 0; 8; 0; 0; 0; 0; 0];
     [0; 0; 0;  0; 0; 0; 0; 0; 0; 0; 0];
     [0; 0; 0;  0; 0; 0; 0; 0; 0; 0; 0];
     [0; 0; 0;  0; 0; 0; 0; 0; 0; 0; 0];
     [0; 0; 0;  0; 0; 0; 0; 0; 0; 0; 0]]%Q.

Lemma anms_kdtree_needs_three_candidates_witness :
  exists res,
    anms_kdtree qstat qstat ref_tree ref_KDTree ref_query two_peaks9x11 100 (9 # 10) 1
                false true = Ok res
    /\ result_points res = [].
Proof.
  apply (anms_kdtree_needs_three_candidates qstat qstat ref_tree ref_KDTree ref_query
           two_peaks9x11 100 (9 # 10) 1 false true 0%Q [(1, 1); (4, 3)]).
  - vm_compute. reflexivity.
  - vm_compute. reflexivity.
  - vm_compute. lia.
Defined.

Lemma anms_kdtree_points_inside_margin_witness :
  exists res,
    anms_kdtree qstat qstat ref_tree ref_KDTree ref_query peaks9x11 100 (9 # 10) 1
                false true = Ok res
    /\ forall u v, In (u, v) (result_points res) ->
         1 + 1 <= v < shape0 peaks9x11 - 1 - 1
         /\ 1 + 1 <= u < shape1 peaks9x11 - 1 - 1
         /\ slt (item peaks9x11 v u) 0%Q = false
         /\ strict_local_max peaks9x11 v u.
Proof.
  apply (anms_kdtree_points_inside_margin qstat qstat ref_tree ref_KDTree ref_query
           peaks9x11 100 (9 # 10) 1 false true 0%Q peaks_index).
  - split; cbn; lia.
  - lia.
  - vm_compute. reflexivity.
  - vm_compute. reflexivity.
  - exact peaks_index_valid.
Defined.

Lemma anms_kdtree_zero_edge_selects_nothing_witness :
  anms_kdtree qstat qstat ref_tree ref_KDTree ref_query peaks9x11 100 (9 # 10) 0
              false true = Raise EmptyReduction
  /\ anms_kdtree qstat qstat ref_tree ref_KDTree ref_query peaks9x11 100 (9 # 10) 0
                 true true = Raise IndexBuildError.
Proof.
  destruct (anms_kdtree_zero_edge_selects_nothing qstat qstat ref_tree ref_KDTree
              ref_query peaks9x11 100 (9 # 10) true true) as [_ Hmean];
    [split; cbn; lia|].
  destruct (anms_kdtree_zero_edge_selects_nothing qstat qstat ref_tree ref_KDTree
              ref_query peaks9x11 100 (9 # 10) false true) as [Hmin _];
    [split; cbn; lia|].
  split; [now apply Hmin | now apply Hmean].
Defined.

(** C4 on the 7x9 map with four peaks, the reference index, [n = 100],
    [c = 0.9] and the minimum as threshold. *)
Lemma anms_kdtree_zero_edge_disagrees_witness :
  (exists bf, anms qstat qstat peaks7x9 100 (9 # 10) false true = Ok bf
              /\ result_points bf <> [])
  /\ (forall kd,
        anms_kdtree qstat qstat ref_tree ref_KDTree ref_query peaks7x9 100 (9 # 10) 0
                    false true = Ok kd ->
        result_points kd = [])
  /\ ~ anms_variants_agree qstat qstat ref_tree ref_KDTree ref_query peaks7x9 100
         (9 # 10) false.
Proof.
  apply (anms_kdtree_zero_edge_disagrees qstat qstat ref_tree ref_KDTree ref_query
           peaks7x9 100 (9 # 10) false 0%Q).
  - split; cbn; lia.
  - lia.
  - vm_compute. reflexivity.
  - vm_compute. discriminate.
Defined.

(* ================================================================== *)
(** ** Results of [convolve2d] in one form for all modes *)

Section ConvValue.
  Context {A : Type} `{Scalar A}.
  Variable uninit : Z -> Z -> A.

(** The sample that [convolve2d] returns at [(v, u)]: in "valid" mode the
    window sum over the image, or zero in the border band; in a padded
    mode the window sum over the padded input. *)
Definition conv_value (img kern : ndarray A) (r : Z) (mode : string) (fill : A)
    (v u : Z) : A :=
  if (mode =? "valid")%string then
    if interior img r v u then conv_cell img kern r v u else szero
  else
    conv_cell (mk_array (shape0 img + 2 * r) (shape1 img + 2 * r)
                        (pad_sample img r mode fill))
              kern r (r + v) (r + u).

(** The modes and image sizes for which the closed form is known. *)
Definition regular_call (img : ndarray A) (r : Z) (mode : string) : Prop :=
  (mode = "valid"%string /\ 0 <= r)
  \/ (In mode padded_modes /\ 1 <= r /\ r <= shape0 img /\ r <= shape1 img).

Lemma convolve2d_conv_value (img kern : ndarray A) (r : Z) (mode : string) (fill : A) :
  shape0 kern = 2 * r + 1 -> shape1 kern = 2 * r + 1 ->
  regular_call img r mode ->
  exists out,
    convolve2d uninit img kern mode fill = Ok out
    /\ shape0 out = shape0 img /\ shape1 out = shape1 img
    /\ forall v u, 0 <= v < shape0 img -> 0 <= u < shape1 img ->
         item out v u = conv_value img kern r mode fill v u.
Proof.
  intros Hk0 Hk1 [(-> & Hr)|(Hin & Hr & HM & HN)]; unfold conv_value.
  - destruct (convolve2d_valid uninit img kern r fill Hr Hk0 Hk1)
      as (out & Hout & Hs0 & Hs1 & Hcell).
    exists out. split; [exact Hout|]. split; [exact Hs0|]. split; [exact Hs1|].
    intros v u _ _. apply Hcell.
  - rewrite (padded_mode_not_valid mode Hin).
    apply (convolve2d_pad_sample uninit img kern r mode fill Hr Hk0 Hk1 Hin HM HN).
Qed.

(** Padding commutes with a cell-wise operation on images of one shape,
    the fill values being combined in the same way. *)
Lemma pad_sample_pointwise (op : A -> A -> A) (p x y : ndarray A) (r : Z)
    (mode : string) (fx fy : A) (i j : Z) :
  1 <= r -> In mode padded_modes -> r <= shape0 p -> r <= shape1 p ->
  shape0 x = shape0 p -> shape1 x = shape1 p ->
  shape0 y = shape0 p -> shape1 y = shape1 p ->
  (forall v u, 0 <= v < shape0 p -> 0 <= u < shape1 p ->
     item p v u = op (item x v u) (item y v u)) ->
  0 <= i < shape0 p + 2 * r -> 0 <= j < shape1 p + 2 * r ->
  pad_sample p r mode (op fx fy) i j
  = op (pad_sample x r mode fx i j) (pad_sample y r mode fy i j).
Proof.
  intros Hr Hin HM HN Hx0 Hx1 Hy0 Hy1 Hop Hi Hj.
  destruct Hin as [<-|Hin].
  - unfold pad_sample. mode_tests. rewrite Hx0, Hx1, Hy0, Hy1. unfold in_box.
    destruct ((r <=? i) && (i <? r + shape0 p) && (r <=? j) && (j <? r + shape1 p))
      eqn:Hbox; [|reflexivity].
    repeat rewrite andb_true_iff in Hbox.
    rewrite !Z.leb_le, !Z.ltb_lt in Hbox.
    apply Hop; lia.
  - destruct (pad_sample_from_image p r mode fx i j Hr Hin HM HN Hi Hj)
      as (v' & u' & Hv' & Hu' & Hpad).
    rewrite (Hpad x fx Hx0 Hx1), (Hpad y fy Hy0 Hy1).
    rewrite (Hpad p (op fx fy) eq_refl eq_refl).
    now apply Hop.
Qed.

  Hypothesis sadd_assoc : forall x y z : A, sadd x (sadd y z) = sadd (sadd x y) z.
  Hypothesis sadd_comm : forall x y : A, sadd x y = sadd y x.
  Hypothesis smul_0_r : forall x : A, smul x szero = szero.
  Hypothesis smul_add_r :
    forall x y z : A, smul x (sadd y z) = sadd (smul x y) (smul x z).

(** Over an image that holds [c] in every cell, a kernel whose sum times
    [c] vanishes gives zero in every cell, in "valid" mode and in the modes
    that pad with image samples. *)
Lemma conv_value_constant_image (img kern : ndarray A) (r : Z) (mode : string)
    (fill c : A) (v u : Z) :
  shape0 kern = 2 * r + 1 -> shape1 kern = 2 * r + 1 ->
  (mode = "valid"%string /\ 0 <= r)
  \/ (In mode sampling_modes /\ 1 <= r /\ r <= shape0 img /\ r <= shape1 img) ->
  (forall v u, 0 <= v < shape0 img -> 0 <= u < shape1 img -> item img v u = c) ->
  smul c (np_sum kern) = szero ->
  0 <= v < shape0 img -> 0 <= u < shape1 img ->
  conv_value img kern r mode fill v u = szero.
Proof.
  intros Hk0 Hk1 Hmode Hconst Hzero Hv Hu. unfold conv_value.
  destruct Hmode as [(-> & Hr)|(Hin & Hr & HM & HN)].
  - mode_tests. unfold interior.
    destruct ((r <=? v) && (v <? shape0 img - r) && (r <=? u) && (u <? shape1 img - r))
      eqn:Hint; [|reflexivity].
    repeat rewrite andb_true_iff in Hint.
    rewrite !Z.leb_le, !Z.ltb_lt in Hint.
    rewrite <- Hzero.
    apply (conv_cell_constant sadd_assoc sadd_comm smul_0_r smul_add_r);
      [exact Hk0 | exact Hk1 |].
    intros i j Hi Hj. apply Hconst; lia.
  - rewrite (padded_mode_not_valid mode (sampling_mode_padded mode Hin)).
    rewrite <- Hzero.
    apply (conv_cell_constant sadd_assoc sadd_comm smul_0_r smul_add_r);
      [exact Hk0 | exact Hk1 |].
    intros i j Hi Hj. cbn [item].
    destruct (pad_sample_from_image img r mode fill (r + v - r + i) (r + u - r + j)
                Hr Hin HM HN ltac:(lia) ltac:(lia))
      as (v' & u' & Hv' & Hu' & Hpad).
    rewrite (Hpad img fill eq_refl eq_refl). now apply Hconst.
Qed.
End ConvValue.

(* ================================================================== *)
(** ** Weighted sums of squares *)

Lemma fold_Rplus_acc (l : list R) (a : R) :
  fold_left Rplus l a = (a + fold_left Rplus l 0)%R.
Proof.
  revert a. induction l as [|x l IH]; intros a; cbn [fold_left]; [lra|].
  rewrite IH, (IH (0 + x)%R). lra.
Qed.

Section WeightedSums.
  Context {X : Type}.

(** [sum of f over l], folded as [np.sum] folds it. *)
Definition wsum (f : X -> R) (l : list X) : R := fold_left Rplus (map f l) 0%R.

Lemma wsum_cons (f : X -> R) (x : X) (l : list X) :
  wsum f (x :: l) = (f x + wsum f l)%R.
Proof. unfold wsum. cbn [map fold_left]. rewrite fold_Rplus_acc. lra. Qed.

Lemma wsum_nonneg (f : X -> R) (l : list X) :
  (forall x, In x l -> (0 <= f x)%R) -> (0 <= wsum f l)%R.
Proof.
  induction l as [|x l IH]; intros Hf.
  - unfold wsum. cbn. lra.
  - rewrite wsum_cons.
    specialize (IH (fun y Hy => Hf y (or_intror Hy))).
    specialize (Hf x (or_introl eq_refl)). lra.
Qed.
End WeightedSums.

(** The window sum of squares under a kernel without negative cells is
    not negative. *)
Lemma conv_cell_of_squares (g w : ndarray R) (r v u : Z) (fa : Z -> Z -> R) :
  (forall i j, 0 <= i < 2 * r + 1 -> 0 <= j < 2 * r + 1 ->
     (0 <= item w (2 * r - i) (2 * r - j))%R) ->
  (forall i j, 0 <= i < 2 * r + 1 -> 0 <= j < 2 * r + 1 ->
     item g (v - r + i) (u - r + j) = (fa i j * fa i j)%R) ->
  (0 <= conv_cell g w r v u)%R.
Proof.
  intros Hw Hcells. unfold conv_cell. rewrite conv_terms_window.
  change (0 <= wsum (fun ij : Z * Z =>
                       item g (v - r + fst ij) (u - r + snd ij)
                       * item w (2 * r - fst ij) (2 * r - snd ij))
                    (window r))%R.
  apply wsum_nonneg. intros [i j] Hij. apply in_window in Hij. cbn [fst snd].
  rewrite Hcells by lia.
  apply Rmult_le_pos; [apply Rle_0_sqr | apply Hw; lia].
Qed.

(* ================================================================== *)
(** ** Harris response *)

(** [a.T]. *)
Definition transpose {A : Type} (a : ndarray A) : ndarray A :=
  mk_array (shape1 a) (shape0 a) (fun v u => item a u v).

(** [a op b] cell by cell, with broadcasting. *)
Definition np_binop {B : Type} (op : R -> R -> B) (a b : ndarray R)
  : result (ndarray B) :=
  let dim x y := if x =? 1 then y else x in
  if (broadcastable (shape0 a) (shape0 b) || broadcastable (shape0 b) (shape0 a))
     && (broadcastable (shape1 a) (shape1 b) || broadcastable (shape1 b) (shape1 a))
  then Ok (mk_array (dim (shape0 a) (shape0 b)) (dim (shape1 a) (shape1 b))
             (fun v u => op (item a (bidx (shape0 a) v) (bidx (shape1 a) u))
                            (item b (bidx (shape0 b) v) (bidx (shape1 b) u))))
  else Raise BroadcastError.

Definition np_add : ndarray R -> ndarray R -> result (ndarray R) := np_binop Rplus.
Definition np_sub : ndarray R -> ndarray R -> result (ndarray R) := np_binop Rminus.

(** [a / b] on floats: numpy does not raise when a divisor is zero, the
    cell becomes [inf] or [nan]; [None] stands for such a cell. *)
Definition float_div (x y : R) : option R :=
  if Req_EM_T y 0 then None else Some (x / y)%R.

Definition np_div : ndarray R -> ndarray R -> result (ndarray (option R)) :=
  np_binop float_div.

(** [a + x] for a scalar [x]. *)
Definition np_add_scalar (a : ndarray R) (x : R) : ndarray R :=
  mk_array (shape0 a) (shape1 a) (fun v u => (item a v u + x)%R).

(** The horizontal Sobel kernel of utils.py:114. *)
Definition sobel_u : ndarray R :=
  of_rows 0%R [[-1; 0; 1]; [-2; 0; 2]; [-1; 0; 1]]%R.

(** [1e-10]. *)
Definition epsilon : R := (1 / 10 ^ 10)%R.

Section HarrisResponse.
  (** What the [k]-th array allocated by [np.empty] holds. *)
  Variable fresh : nat -> Z -> Z -> R.

(** utils.py:112-125. *)
Definition harris_response (img : ndarray R) (conv_mode : string)
  : result (ndarray (option R)) :=
  w <- gaussian (fresh 0) (PyInt 2) ;;
  let s_u := sobel_u in
  let s_v := transpose s_u in
  Iu <- convolve2d (fresh 1) img s_u conv_mode 0%R ;;
  Iv <- convolve2d (fresh 2) img s_v conv_mode 0%R ;;
  IuIu <- np_mul Iu Iu ;;
  Iuu <- convolve2d (fresh 3) IuIu w conv_mode 0%R ;;
  IvIv <- np_mul Iv Iv ;;
  Ivv <- convolve2d (fresh 4) IvIv w conv_mode 0%R ;;
  IuIv <- np_mul Iu Iv ;;
  Iuv <- convolve2d (fresh 5) IuIv w conv_mode 0%R ;;
  (* Prevent divide by zero *)
  let epsilon := epsilon in
  IuuIvv <- np_mul Iuu Ivv ;;
  IuvIuv <- np_mul Iuv Iuv ;;
  num <- np_sub IuuIvv IuvIuv ;;
  den <- np_add Iuu Ivv ;;
  np_div num (np_add_scalar den epsilon).
End HarrisResponse.

Lemma np_mul_real (a b : ndarray R) : np_mul a b = np_binop Rmult a b.
Proof. reflexivity. Qed.

Lemma np_binop_same_shape {B : Type} (op : R -> R -> B) (a b : ndarray R) :
  shape0 b = shape0 a -> shape1 b = shape1 a ->
  exists p,
    np_binop op a b = Ok p
    /\ shape0 p = shape0 a /\ shape1 p = shape1 a
    /\ forall v u, 0 <= v < shape0 a -> 0 <= u < shape1 a ->
         item p v u = op (item a v u) (item b v u).
Proof.
  intros H0 H1. unfold np_binop. rewrite H0, H1, !broadcastable_refl.
  cbn [orb andb]. eexists. split; [reflexivity|]. cbn [shape0 shape1 item].
  split; [destruct (shape0 a =? 1); reflexivity|].
  split; [destruct (shape1 a =? 1); reflexivity|].
  intros v u Hv Hu. now rewrite !bidx_in_range.
Qed.

Lemma np_mul_same_shape (a b : ndarray R) :
  shape0 b = shape0 a -> shape1 b = shape1 a ->
  exists p,
    np_mul a b = Ok p
    /\ shape0 p = shape0 a /\ shape1 p = shape1 a
    /\ forall v u, 0 <= v < shape0 a -> 0 <= u < shape1 a ->
         item p v u = (item a v u * item b v u)%R.
Proof. rewrite np_mul_real. apply np_binop_same_shape. Qed.

Lemma epsilon_pos : (0 < epsilon)%R.
Proof.
  unfold epsilon. apply Rdiv_lt_0_compat; [lra|]. apply pow_lt. lra.
Qed.

(** The Sobel kernels are 3 by 3 and sum to zero. *)
Lemma sobel_u_sum : np_sum sobel_u = 0%R.
Proof.
  unfold np_sum, elements, to_rows.
  change (shape0 sobel_u) with 3. change (shape1 sobel_u) with 3.
  change (range 0 3) with [0; 1; 2]. cbn.
  change (Pos.to_nat 1) with 1%nat. change (Pos.to_nat 2) with 2%nat. cbn. lra.
Qed.

Lemma sobel_v_sum : np_sum (transpose sobel_u) = 0%R.
Proof.
  unfold np_sum, elements, to_rows.
  change (shape0 (transpose sobel_u)) with 3.
  change (shape1 (transpose sobel_u)) with 3.
  change (range 0 3) with [0; 1; 2]. cbn.
  change (Pos.to_nat 1) with 1%nat. change (Pos.to_nat 2) with 2%nat. cbn. lra.
Qed.

Lemma regular_call_shape {A : Type} (a b : ndarray A) (r : Z) (mode : string) :
  shape0 b = shape0 a -> shape1 b = shape1 a ->
  regular_call a r mode -> regular_call b r mode.
Proof. unfold regular_call. intros -> ->. exact (fun Hc => Hc). Qed.

Lemma regular_call_smaller {A : Type} (a : ndarray A) (r r' : Z) (mode : string) :
  1 <= r' <= r -> regular_call a r mode -> regular_call a r' mode.
Proof.
  intros Hr [(Hm & H0)|(Hin & H1 & HM & HN)]; [left | right].
  - split; [exact Hm | lia].
  - split; [exact Hin|]. lia.
Qed.

Section HarrisFacts.
  Variable fresh : nat -> Z -> Z -> R.

(** The smoothing window [gaussian(2)]: 11 by 11, all cells positive. *)
Lemma harris_window :
  exists w,
    gaussian (fresh 0) (PyInt 2) = Ok w
    /\ shape0 w = 2 * 5 + 1 /\ shape1 w = 2 * 5 + 1
    /\ forall row col, 0 <= row < 11 -> 0 <= col < 11 -> (0 < item w row col)%R.
Proof.
  destruct (get_gaussian_kernel_odd (fresh 0) 11 2)
    as (w & Hw & Hs0 & Hs1 & Hcell & _); [lia | reflexivity | lia |].
  exists w. split.
  - unfold gaussian. change (gaussian_side (PyInt 2)) with (PyInt 11). exact Hw.
  - split; [exact Hs0|]. split; [exact Hs1|].
    intros row col Hrow Hcol. rewrite Hcell by assumption.
    apply Rdiv_lt_0_compat; [apply exp_pos | apply gauss_total_pos; lia].
Qed.

(** One run of [harris_response], through its intermediate arrays. *)
Lemma harris_response_run (img : ndarray R) (mode : string) :
  regular_call img 5 mode ->
  exists w Iu Iv IuIu IvIv IuIv H,
    (shape0 w = 2 * 5 + 1 /\ shape1 w = 2 * 5 + 1
     /\ forall row col, 0 <= row < 11 -> 0 <= col < 11 -> (0 < item w row col)%R)
    /\ (shape0 Iu = shape0 img /\ shape1 Iu = shape1 img
        /\ shape0 Iv = shape0 img /\ shape1 Iv = shape1 img
        /\ shape0 IuIu = shape0 img /\ shape1 IuIu = shape1 img
        /\ shape0 IvIv = shape0 img /\ shape1 IvIv = shape1 img
        /\ shape0 IuIv = shape0 img /\ shape1 IuIv = shape1 img)
    /\ (forall v u, 0 <= v < shape0 img -> 0 <= u < shape1 img ->
          item Iu v u = conv_value img sobel_u 1 mode 0%R v u
          /\ item Iv v u = conv_value img (transpose sobel_u) 1 mode 0%R v u)
    /\ (forall v u, 0 <= v < shape0 img -> 0 <= u < shape1 img ->
          item IuIu v u = (item Iu v u * item Iu v u)%R
          /\ item IvIv v u = (item Iv v u * item Iv v u)%R
          /\ item IuIv v u = (item Iu v u * item Iv v u)%R)
    /\ harris_response fresh img mode = Ok H
    /\ shape0 H = shape0 img /\ shape1 H = shape1 img
    /\ forall v u, 0 <= v < shape0 img -> 0 <= u < shape1 img ->
         item H v u
         = float_div
             (conv_value IuIu w 5 mode 0%R v u * conv_value IvIv w 5 mode 0%R v u
              - conv_value IuIv w 5 mode 0%R v u * conv_value IuIv w 5 mode 0%R v u)
             (conv_value IuIu w 5 mode 0%R v u + conv_value IvIv w 5 mode 0%R v u
              + epsilon).
Proof.
  intros Hcall.
  pose proof (regular_call_smaller img 5 1 mode ltac:(lia) Hcall) as Hcall1.
  destruct harris_window as (w & Hw & Hw0 & Hw1 & Hwpos).
  destruct (convolve2d_conv_value (fresh 1) img sobel_u 1 mode 0%R
              eq_refl eq_refl Hcall1)
    as (Iu & HIu & Hu0 & Hu1 & Hucell).
  destruct (convolve2d_conv_value (fresh 2) img (transpose sobel_u) 1 mode 0%R
              eq_refl eq_refl Hcall1)
    as (Iv & HIv & Hv0 & Hv1 & Hvcell).
  destruct (np_mul_same_shape Iu Iu eq_refl eq_refl)
    as (IuIu & HIuIu & Huu0 & Huu1 & Huucell).
  destruct (np_mul_same_shape Iv Iv eq_refl eq_refl)
    as (IvIv & HIvIv & Hvv0 & Hvv1 & Hvvcell).
  destruct (np_mul_same_shape Iu Iv ltac:(congruence) ltac:(congruence))
    as (IuIv & HIuIv & Huv0 & Huv1 & Huvcell).
  rewrite Hu0 in Huu0, Huv0. rewrite Hu1 in Huu1, Huv1.
  rewrite Hv0 in Hvv0. rewrite Hv1 in Hvv1.
  destruct (convolve2d_conv_value (fresh 3) IuIu w 5 mode 0%R Hw0 Hw1
              (regular_call_shape img IuIu 5 mode Huu0 Huu1 Hcall))
    as (Iuu & HIuu & Hsuu0 & Hsuu1 & HIuucell).
  destruct (convolve2d_conv_value (fresh 4) IvIv w 5 mode 0%R Hw0 Hw1
              (regular_call_shape img IvIv 5 mode Hvv0 Hvv1 Hcall))
    as (Ivv & HIvv & Hsvv0 & Hsvv1 & HIvvcell).
  destruct (convolve2d_conv_value (fresh 5) IuIv w 5 mode 0%R Hw0 Hw1
              (regular_call_shape img IuIv 5 mode Huv0 Huv1 Hcall))
    as (Iuv & HIuv & Hsuv0 & Hsuv1 & HIuvcell).
  rewrite Huu0 in Hsuu0, HIuucell. rewrite Huu1 in Hsuu1, HIuucell.
  rewrite Hvv0 in Hsvv0, HIvvcell. rewrite Hvv1 in Hsvv1, HIvvcell.
  rewrite Huv0 in Hsuv0, HIuvcell. rewrite Huv1 in Hsuv1, HIuvcell.
  destruct (np_mul_same_shape Iuu Ivv ltac:(congruence) ltac:(congruence))
    as (IuuIvv & HIuuIvv & Hp0 & Hp1 & Hpcell).
  destruct (np_mul_same_shape Iuv Iuv eq_refl eq_refl)
    as (IuvIuv & HIuvIuv & Hq0 & Hq1 & Hqcell).
  destruct (np_binop_same_shape Rminus IuuIvv IuvIuv ltac:(congruence)
              ltac:(congruence))
    as (num & Hnum & Hn0 & Hn1 & Hncell).
  destruct (np_binop_same_shape Rplus Iuu Ivv ltac:(congruence) ltac:(congruence))
    as (den & Hden & Hd0 & Hd1 & Hdcell).
  destruct (np_binop_same_shape float_div num (np_add_scalar den epsilon)
              ltac:(cbn [np_add_scalar shape0]; congruence)
              ltac:(cbn [np_add_scalar shape1]; congruence))
    as (H & HH & Hh0 & Hh1 & Hhcell).
  exists w, Iu, Iv, IuIu, IvIv, IuIv, H.
  split; [auto|]. split; [repeat split; assumption|].
  split; [intros v u Hv Hu; split; [now apply Hucell | now apply Hvcell]|].
  split.
  { intros v u Hv Hu.
    rewrite Huucell, Hvvcell, Huvcell by lia. auto. }
  split.
  { unfold harris_response. cbv zeta.
    rewrite Hw. cbn [bind]. rewrite HIu. cbn [bind]. rewrite HIv. cbn [bind].
    rewrite HIuIu. cbn [bind]. rewrite HIuu. cbn [bind].
    rewrite HIvIv. cbn [bind]. rewrite HIvv. cbn [bind].
    rewrite HIuIv. cbn [bind]. rewrite HIuv. cbn [bind].
    rewrite HIuuIvv. cbn [bind]. rewrite HIuvIuv. cbn [bind].
    unfold np_sub, np_add, np_div.
    rewrite Hnum. cbn [bind]. rewrite Hden. cbn [bind]. exact HH. }
  split; [congruence|]. split; [congruence|].
  intros v u Hv Hu.
  rewrite Hhcell by lia. cbn [np_add_scalar item].
  rewrite Hncell, Hdcell, Hpcell, Hqcell by lia.
  rewrite HIuucell, HIvvcell, HIuvcell by lia.
  reflexivity.
Qed.

(** A smoothed square in one cell is not negative. *)
Lemma smoothed_square (w I II : ndarray R) (mode : string) (v u : Z) :
  regular_call II 5 mode ->
  (forall row col, 0 <= row < 11 -> 0 <= col < 11 -> (0 < item w row col)%R) ->
  shape0 I = shape0 II -> shape1 I = shape1 II ->
  (forall v u, 0 <= v < shape0 II -> 0 <= u < shape1 II ->
     item II v u = (item I v u * item I v u)%R) ->
  0 <= v < shape0 II -> 0 <= u < shape1 II ->
  (0 <= conv_value II w 5 mode 0%R v u)%R.
Proof.
  intros Hcall Hwpos H0 H1 Hprod Hv Hu.
  unfold conv_value.
  destruct Hcall as [(-> & _)|(Hin & _ & HM & HN)].
  - mode_tests. unfold interior.
    destruct ((5 <=? v) && (v <? shape0 II - 5)
              && (5 <=? u) && (u <? shape1 II - 5)) eqn:Hint.
    + repeat rewrite andb_true_iff in Hint.
      rewrite !Z.leb_le, !Z.ltb_lt in Hint.
      apply (conv_cell_of_squares II w 5 v u
               (fun i j => item I (v - 5 + i) (u - 5 + j))).
      * intros i j Hi Hj. left. apply Hwpos; lia.
      * intros i j Hi Hj. apply Hprod; lia.
    + cbn [szero Scalar_R]. lra.
  - rewrite (padded_mode_not_valid mode Hin).
    apply (conv_cell_of_squares _ w 5 (5 + v) (5 + u)
             (fun i j => pad_sample I 5 mode 0%R (5 + v - 5 + i) (5 + u - 5 + j))).
    + intros i j Hi Hj. left. apply Hwpos; lia.
    + intros i j Hi Hj. cbn [item].
      replace (pad_sample II 5 mode 0%R (5 + v - 5 + i) (5 + u - 5 + j))
        with (pad_sample II 5 mode (0 * 0)%R (5 + v - 5 + i) (5 + u - 5 + j))
        by (f_equal; ring).
      apply (pad_sample_pointwise Rmult II I I 5 mode 0%R 0%R);
        first [ exact Hin | lia | congruence
              | intros v' u' Hv' Hu'; apply Hprod; congruence ].
Qed.

Lemma float_div_defined (p q : R) :
  (0 < q)%R -> float_div p q = Some (p / q)%R.
Proof.
  intros Hq. unfold float_div.
  destruct (Req_EM_T q 0) as [Hz|_]; [lra | reflexivity].
Qed.

(** [harris_response], in "valid" mode for every image and in a padded
    mode for an image with at least 5 rows and columns, returns an array
    of the image's shape in which every cell holds a number: no divisor
    [Iuu + Ivv + epsilon] is zero, because the smoothed squares of the two
    gradients are not negative, the window [gaussian(2)] having no
    negative cell. *)
Theorem harris_response_is_defined (img : ndarray R) (mode : string) :
  mode = "valid"%string
  \/ (In mode padded_modes /\ 5 <= shape0 img /\ 5 <= shape1 img) ->
  exists H,
    harris_response fresh img mode = Ok H
    /\ shape0 H = shape0 img /\ shape1 H = shape1 img
    /\ forall v u, 0 <= v < shape0 img -> 0 <= u < shape1 img ->
         exists h : R, item H v u = Some h.
Proof.
  intros Hmode.
  assert (Hcall : regular_call img 5 mode).
  { destruct Hmode as [->|(Hin & HM & HN)]; [left | right].
    - split; [reflexivity | lia].
    - split; [exact Hin | lia]. }
  destruct (harris_response_run img mode Hcall)
    as (w & Iu & Iv & IuIu & IvIv & IuIv & H & (Hw0 & Hw1 & Hwpos)
        & (Hu0 & Hu1 & Hv0 & Hv1 & Huu0 & Huu1 & Hvv0 & Hvv1 & Huv0 & Huv1)
        & _ & Hprod & HH & Hh0 & Hh1 & Hcell).
  exists H. split; [exact HH|]. split; [exact Hh0|]. split; [exact Hh1|].
  intros v u Hv Hu.
  assert (Hx : (0 <= conv_value IuIu w 5 mode 0%R v u)%R).
  { apply (smoothed_square w Iu IuIu mode v u);
      [ now apply (regular_call_shape img IuIu 5 mode) | exact Hwpos
      | congruence | congruence | | lia | lia ].
    intros v' u' Hv' Hu'. apply Hprod; congruence. }
  assert (Hy : (0 <= conv_value IvIv w 5 mode 0%R v u)%R).
  { apply (smoothed_square w Iv IvIv mode v u);
      [ now apply (regular_call_shape img IvIv 5 mode) | exact Hwpos
      | congruence | congruence | | lia | lia ].
    intros v' u' Hv' Hu'. apply Hprod; congruence. }
  pose proof epsilon_pos as Heps.
  rewrite (Hcell v u Hv Hu), float_div_defined by lra. eauto.
Qed.
End HarrisFacts.

Lemma float_div_zero (q : R) : (0 < q)%R -> float_div (0 * 0 - 0 * 0) q = Some 0%R.
Proof.
  intros Hq. unfold float_div. destruct (Req_EM_T q 0) as [Hz|_]; [lra|].
  f_equal. unfold Rdiv. ring.
Qed.

(** The laws of real arithmetic that the theorems on sums need. *)
Lemma R_sadd_assoc (x y z : R) : sadd x (sadd y z) = sadd (sadd x y) z.
Proof. cbn. ring. Qed.

Lemma R_sadd_comm (x y : R) : sadd x y = sadd y x.
Proof. cbn. ring. Qed.

Lemma R_smul_0_r (x : R) : smul x szero = szero.
Proof. cbn. ring. Qed.

Lemma R_smul_add_r (x y z : R) : smul x (sadd y z) = sadd (smul x y) (smul x z).
Proof. cbn. ring. Qed.

Section HarrisEdges.
  Variable fresh : nat -> Z -> Z -> R.

(** A cell where the three smoothed products vanish holds zero. *)
Lemma harris_cell_zero (x y z : R) :
  x = 0%R -> y = 0%R -> z = 0%R ->
  float_div (x * y - z * z) (x + y + epsilon) = Some 0%R.
Proof.
  intros -> -> ->. apply float_div_zero. pose proof epsilon_pos. lra.
Qed.

(** Over an image that holds one value in every cell the gradients
    vanish, and so does the response: in "valid" mode, and in the modes
    that pad with image samples for an image with at least 5 rows and
    columns, every cell of the result is zero. *)
Theorem harris_response_constant_image (img : ndarray R) (mode : string) (c : R) :
  mode = "valid"%string
  \/ (In mode sampling_modes /\ 5 <= shape0 img /\ 5 <= shape1 img) ->
  (forall v u, 0 <= v < shape0 img -> 0 <= u < shape1 img -> item img v u = c) ->
  exists H,
    harris_response fresh img mode = Ok H
    /\ shape0 H = shape0 img /\ shape1 H = shape1 img
    /\ forall v u, 0 <= v < shape0 img -> 0 <= u < shape1 img ->
         item H v u = Some 0%R.
Proof.
  intros Hmode Hconst.
  assert (Hcall : regular_call img 5 mode).
  { destruct Hmode as [->|(Hin & HM & HN)]; [left; split; [reflexivity | lia]|].
    right. split; [now apply sampling_mode_padded | lia]. }
  assert (Hmode' : forall (a : ndarray R) r, 1 <= r <= 5 ->
             shape0 a = shape0 img -> shape1 a = shape1 img ->
             (mode = "valid"%string /\ 0 <= r)
             \/ (In mode sampling_modes /\ 1 <= r /\ r <= shape0 a /\ r <= shape1 a)).
  { intros a r Hr Ha0 Ha1. destruct Hmode as [->|(Hin & HM & HN)].
    - left. split; [reflexivity | lia].
    - right. split; [exact Hin | lia]. }
  assert (Hzero : forall (a k : ndarray R) r c' v u,
             1 <= r <= 5 -> shape0 k = 2 * r + 1 -> shape1 k = 2 * r + 1 ->
             shape0 a = shape0 img -> shape1 a = shape1 img ->
             (forall v u, 0 <= v < shape0 img -> 0 <= u < shape1 img ->
                item a v u = c') ->
             (c' * np_sum k = 0)%R ->
             0 <= v < shape0 img -> 0 <= u < shape1 img ->
             conv_value a k r mode 0%R v u = 0%R).
  { intros a k r c' v u Hr Hk0 Hk1 Ha0 Ha1 Ha Hsum Hv Hu.
    apply (conv_value_constant_image R_sadd_assoc R_sadd_comm R_smul_0_r
             R_smul_add_r a k r mode 0%R c' v u Hk0 Hk1
             (Hmode' a r Hr Ha0 Ha1));
      [rewrite Ha0, Ha1; exact Ha | exact Hsum | lia | lia]. }
  destruct (harris_response_run fresh img mode Hcall)
    as (w & Iu & Iv & IuIu & IvIv & IuIv & H & (Hw0 & Hw1 & _)
        & (Hu0 & Hu1 & Hv0 & Hv1 & Huu0 & Huu1 & Hvv0 & Hvv1 & Huv0 & Huv1)
        & Hgrad & Hprod & HH & Hh0 & Hh1 & Hcell).
  assert (HIu : forall v u, 0 <= v < shape0 img -> 0 <= u < shape1 img ->
             item Iu v u = 0%R /\ item Iv v u = 0%R).
  { intros v u Hv Hu. destruct (Hgrad v u Hv Hu) as [-> ->]. split.
    - apply (Hzero img sobel_u 1 c); try reflexivity; try assumption; try lia.
      rewrite sobel_u_sum. ring.
    - apply (Hzero img (transpose sobel_u) 1 c);
        try reflexivity; try assumption; try lia.
      rewrite sobel_v_sum. ring. }
  exists H. split; [exact HH|]. split; [exact Hh0|]. split; [exact Hh1|].
  intros v u Hv Hu. rewrite (Hcell v u Hv Hu).
  apply harris_cell_zero.
  - apply (Hzero IuIu w 5 0%R); try assumption; try lia; [|ring].
    intros v' u' Hv' Hu'. destruct (Hprod v' u' Hv' Hu') as (-> & _ & _).
    destruct (HIu v' u' Hv' Hu') as [-> _]. ring.
  - apply (Hzero IvIv w 5 0%R); try assumption; try lia; [|ring].
    intros v' u' Hv' Hu'. destruct (Hprod v' u' Hv' Hu') as (_ & -> & _).
    destruct (HIu v' u' Hv' Hu') as [_ ->]. ring.
  - apply (Hzero IuIv w 5 0%R); try assumption; try lia; [|ring].
    intros v' u' Hv' Hu'. destruct (Hprod v' u' Hv' Hu') as (_ & _ & ->).
    destruct (HIu v' u' Hv' Hu') as [-> _]. ring.
Qed.

(** In "valid" mode the response is zero in every cell closer than 5 to
    an edge of the image, where the 11 by 11 smoothing window does not
    fit; an image with fewer than 11 rows or columns gives the zero
    response. *)
Theorem harris_response_valid_border (img : ndarray R) :
  exists H,
    harris_response fresh img "valid" = Ok H
    /\ shape0 H = shape0 img /\ shape1 H = shape1 img
    /\ forall v u, 0 <= v < shape0 img -> 0 <= u < shape1 img ->
         v < 5 \/ shape0 img - 5 <= v \/ u < 5 \/ shape1 img - 5 <= u ->
         item H v u = Some 0%R.
Proof.
  destruct (harris_response_run fresh img "valid")
    as (w & Iu & Iv & IuIu & IvIv & IuIv & H & _
        & (Hu0 & Hu1 & Hv0 & Hv1 & Huu0 & Huu1 & Hvv0 & Hvv1 & Huv0 & Huv1)
        & _ & _ & HH & Hh0 & Hh1 & Hcell);
    [left; split; [reflexivity | lia]|].
  exists H. split; [exact HH|]. split; [exact Hh0|]. split; [exact Hh1|].
  intros v u Hv Hu Hedge. rewrite (Hcell v u Hv Hu).
  assert (Hout : forall a : ndarray R,
             shape0 a = shape0 img -> shape1 a = shape1 img ->
             conv_value a w 5 "valid" 0%R v u = 0%R).
  { intros a Ha0 Ha1. unfold conv_value. mode_tests. unfold interior.
    rewrite Ha0, Ha1.
    replace ((5 <=? v) && (v <? shape0 img - 5) && (5 <=? u) && (u <? shape1 img - 5))
      with false by (symmetry; box_false).
    reflexivity. }
  apply harris_cell_zero; now apply Hout.
Qed.

(** With a boundary mode that [convolve2d] does not recognise, the first
    convolution raises the error of utils.py:85 and [harris_response]
    passes it on. *)
Theorem harris_response_unrecognised_mode (img : ndarray R) (mode : string) :
  wf_array img -> ~ In mode boundary_modes ->
  harris_response fresh img mode = Raise (InvalidBoundaryMode mode).
Proof.
  intros Hwf Hnot.
  destruct (harris_window fresh) as (w & Hw & _).
  unfold harris_response. cbv zeta. rewrite Hw. cbn [bind].
  rewrite (convolve2d_unrecognised_mode (fresh 1%nat) img sobel_u mode 0%R);
    [reflexivity | exact Hwf | split; cbn; lia | exact Hnot].
Qed.

(** In "wrap" mode the 11 by 11 smoothing window needs 5 rows and columns
    of the image to copy: for an image that is not empty and has a
    dimension between 2 and 4, the gradients are computed and the first
    smoothing raises numpy's broadcast error. *)
Theorem harris_response_wrap_small_image (img : ndarray R) :
  1 <= shape0 img -> 1 <= shape1 img -> ~ wrap_fits img 5 ->
  harris_response fresh img "wrap" = Raise BroadcastError.
Proof.
  intros HM HN Hbad.
  assert (Hcall : regular_call img 1 "wrap").
  { right. split; [cbn; tauto | lia]. }
  destruct (harris_window fresh) as (w & Hw & Hw0 & Hw1 & _).
  destruct (convolve2d_conv_value (fresh 1%nat) img sobel_u 1 "wrap" 0%R
              eq_refl eq_refl Hcall)
    as (Iu & HIu & Hu0 & Hu1 & _).
  destruct (convolve2d_conv_value (fresh 2%nat) img (transpose sobel_u) 1 "wrap" 0%R
              eq_refl eq_refl Hcall)
    as (Iv & HIv & Hv0 & Hv1 & _).
  destruct (np_mul_same_shape Iu Iu eq_refl eq_refl)
    as (IuIu & HIuIu & Huu0 & Huu1 & _).
  unfold harris_response. cbv zeta.
  rewrite Hw. cbn [bind]. rewrite HIu. cbn [bind]. rewrite HIv. cbn [bind].
  rewrite HIuIu. cbn [bind].
  rewrite (convolve2d_wrap_raises (fresh 3%nat) IuIu w 5 0%R);
    [reflexivity | split; lia | lia | exact Hw0 |].
  unfold wrap_fits in *. rewrite Huu0, Huu1, Hu0, Hu1. exact Hbad.
Qed.
End HarrisEdges.

(** Witnesses on a 12 by 12 image. *)
Definition ramp12x12 : ndarray R := mk_array 12 12 (fun v u => IZR (v * u)).
Definition flat12x12 : ndarray R := mk_array 12 12 (fun _ _ => 3%R).
Definition zero_memory : nat -> Z -> Z -> R := fun _ _ _ => 0%R.

Lemma harris_response_is_defined_witness :
  exists H,
    harris_response zero_memory ramp12x12 "mirror" = Ok H
    /\ shape0 H = shape0 ramp12x12 /\ shape1 H = shape1 ramp12x12
    /\ forall v u, 0 <= v < shape0 ramp12x12 -> 0 <= u < shape1 ramp12x12 ->
         exists h : R, item H v u = Some h.
Proof.
  apply (harris_response_is_defined zero_memory ramp12x12 "mirror").
  right. split; [cbn; tauto | cbn; lia].
Defined.

Lemma harris_response_constant_image_witness :
  exists H,
    harris_response zero_memory flat12x12 "extend" = Ok H
    /\ shape0 H = shape0 flat12x12 /\ shape1 H = shape1 flat12x12
    /\ forall v u, 0 <= v < shape0 flat12x12 -> 0 <= u < shape1 flat12x12 ->
         item H v u = Some 0%R.
Proof.
  apply (harris_response_constant_image zero_memory flat12x12 "extend" 3%R).
  - right. split; [cbn; tauto | cbn; lia].
  - intros v u _ _. reflexivity.
Defined.

Lemma harris_response_valid_border_witness :
  exists H,
    harris_response zero_memory ramp12x12 "valid" = Ok H
    /\ shape0 H = shape0 ramp12x12 /\ shape1 H = shape1 ramp12x12
    /\ forall v u, 0 <= v < shape0 ramp12x12 -> 0 <= u < shape1 ramp12x12 ->
         v < 5 \/ shape0 ramp12x12 - 5 <= v \/ u < 5 \/ shape1 ramp12x12 - 5 <= u ->
         item H v u = Some 0%R.
Proof.
  apply (harris_response_valid_border zero_memory ramp12x12).
Defined.

Lemma harris_response_unrecognised_mode_witness :
  harris_response zero_memory ramp12x12 "reflect"
  = Raise (InvalidBoundaryMode "reflect").
Proof.
  apply (harris_response_unrecognised_mode zero_memory ramp12x12 "reflect").
  - split; cbn; lia.
  - cbn. intros [Hm|[Hm|[Hm|[Hm|[Hm|[]]]]]]; discriminate Hm.
Defined.

Lemma harris_response_wrap_small_image_witness :
  harris_response zero_memory (mk_array 3 12 (fun _ _ => 1%R)) "wrap"
  = Raise BroadcastError.
Proof.
  apply (harris_response_wrap_small_image zero_memory
           (mk_array 3 12 (fun _ _ => 1%R))); [cbn; lia | cbn; lia |].
  intros [[Hr|Hr] _]; cbn in Hr; lia.
Defined.
